(** * Shelly hotkey controller: a shallow embedding of [shelly_controller.py]

    The program is a PySide6 window ([ShellyController]) around a
    configuration dictionary.  The embedding keeps the source's structure:

    - the configuration dictionary is a record with the source's keys;
    - every Qt object the program creates with the window as parent is kept
      in a store owned by the window, and the attributes [self.shortcuts] and
      [self.tray_icon] hold references into that store;
    - HTTP requests, tray notifications and dialogs are recorded as a trace
      of events, in program order;
    - [json.load] / [json.dump(..., indent=2)] are modelled on JSON values
      whose strings are sequences of Unicode code points; the window works
      on the record reading of the loaded dictionary. *)

From stdpp Require Import base list strings.
From Stdlib Require Import ZArith NArith Lia DecimalString.

Local Open Scope Z_scope.

(** ** The configuration dictionary *)

(** One element of [config["hotkeys"]]. *)
Record HotkeyEntry := {
  hk_name : string;
  hk_shortcut : string;
  hk_endpoint : string;
  hk_action : string
}.

(** [self.config]. *)
Record Configuration := {
  shelly_ip : string;
  autostart : bool;
  minimize_to_tray : bool;
  hotkeys : list HotkeyEntry
}.

(** The dictionary literal at the end of [load_config]. *)
Definition default_config : Configuration :=
  {| shelly_ip := "192.168.1.100";
     autostart := false;
     minimize_to_tray := true;
     hotkeys := [ {| hk_name := "Toggle Light"; hk_shortcut := "Ctrl+Alt+L";
                     hk_endpoint := "relay/0"; hk_action := "toggle" |} ] |}.

(** ** Observable effects *)

Inductive MessageIcon := Information | Warning | Critical.

(** What a call of [requests.get] does: it raises (the argument is [str(e)])
    or it returns a response with a status code. *)
Inductive Response :=
| Raised (e : string)
| Status (status_code : Z).

Inductive Event :=
| HttpGet (url : string) (timeout : option Z)
    (* requests.get(url) or requests.get(url, timeout=t) *)
| TrayMessage (title msg : string) (icon : MessageIcon) (msecs : Z)
    (* self.tray_icon.showMessage(title, msg, icon, msecs) *)
| MessageBox (icon : MessageIcon) (title text : string).
    (* QMessageBox.information / QMessageBox.warning *)

Definition is_http_get (e : Event) : bool :=
  match e with HttpGet _ _ => true | _ => false end.

(** The requests of a trace, in order. *)
Definition requests_of (tr : list Event) : list Event := filter is_http_get tr.

(** [str(n)] for an integer. *)
Definition str_int (n : Z) : string := NilZero.string_of_int (Z.to_int n).

(** ** Device client and connectivity probe *)

Section DeviceClient.

(** The device and the network between: the outcome of a GET of [url]
    with the given timeout. *)
Variable requests_get : string → option Z → Response.

(** [toggle_shelly_device(self, endpoint, action)]. *)
Definition toggle_shelly_device (config : Configuration)
    (endpoint action : string) : list Event :=
  let ip := shelly_ip config in
  let url := "http://" +:+ ip +:+ "/" +:+ endpoint in
  let after (request : string) : list Event :=
    HttpGet request None ::
    match requests_get request None with
    | Status code =>
        if code =? 200 then
          [TrayMessage "Shelly Controller"
             ("Successfully toggled: " +:+ endpoint) Information 2000]
        else
          [TrayMessage "Shelly Controller"
             ("Error: Status code " +:+ str_int code) Warning 3000]
    | Raised e =>
        [TrayMessage "Shelly Controller" ("Failed: " +:+ e) Critical 3000]
    end in
  if String.eqb action "toggle" then after (url +:+ "?turn=toggle")
  else if existsb (String.eqb action) ["on"; "off"] then
    after (url +:+ "?turn=" +:+ action)
  else
    [TrayMessage "Shelly Controller" ("Unknown action: " +:+ action)
       Warning 3000].

(** The loop of [test_connection] over the remaining endpoints. *)
Fixpoint test_connection_loop (ip : string) (endpoints : list string)
    : list Event :=
  match endpoints with
  | [] => [MessageBox Warning "Error" "Failed to connect to the Shelly device"]
  | endpoint :: rest =>
      let url := "http://" +:+ ip +:+ endpoint in
      HttpGet url (Some 3) ::
      match requests_get url (Some 3) with
      | Status code =>
          if code =? 200 then
            [MessageBox Information "Success"
               "Successfully connected to Shelly device!"]
          else test_connection_loop ip rest
      | Raised _ => test_connection_loop ip rest
      end
  end.

(** [test_connection(self)]. *)
Definition test_connection (config : Configuration) : list Event :=
  let ip := shelly_ip config in
  let endpoints := ["/shelly"; "/relay/0"; "/"] in
  test_connection_loop ip endpoints.

End DeviceClient.

(** ** JSON documents

    [json.load] and [json.dump] work on Python text: a sequence of Unicode
    code points.  Numbers are the integers; a document with a float literal
    is outside this model and is reported as unreadable. *)

Definition text := list N.

(** The code points of an ASCII literal. *)
Definition u (s : string) : text :=
  map Ascii.N_of_ascii (String.list_ascii_of_string s).

Local Open Scope N_scope.

Abbreviation QUOTE := 34 (only parsing).
Abbreviation BACKSLASH := 92 (only parsing).
Abbreviation SPACE := 32 (only parsing).
Abbreviation NEWLINE := 10 (only parsing).
Abbreviation COMMA := 44 (only parsing).
Abbreviation COLON := 58 (only parsing).
Abbreviation LBRACKET := 91 (only parsing).
Abbreviation RBRACKET := 93 (only parsing).
Abbreviation LBRACE := 123 (only parsing).
Abbreviation RBRACE := 125 (only parsing).
Abbreviation MINUS := 45 (only parsing).
Abbreviation ZERO := 48 (only parsing).

(** A value as [json.load] builds it: [None], [bool], [int], [str], [list]
    and [dict] (keys in insertion order). *)
#[local] Unset Elimination Schemes.
Inductive json :=
| JNull
| JBool (b : bool)
| JInt (n : Z)
| JStr (s : text)
| JArr (values : list json)
| JObj (items : list (text * json)).
#[local] Set Elimination Schemes.

(** *** Encoding: [json.dump(obj, f, indent=2)] *)

(** One lower-case hexadecimal digit. *)
Definition hexdigit (d : N) : N := if d <? 10 then 48 + d else 87 + d.

(** ['{0:04x}'.format(n)], for [n < 0x10000] as at every call below. *)
Definition format_04x (n : N) : text :=
  [ hexdigit (N.land (N.shiftr n 12) 15); hexdigit (N.land (N.shiftr n 8) 15);
    hexdigit (N.land (N.shiftr n 4) 15); hexdigit (N.land n 15) ].

(** [replace] of [py_encode_basestring_ascii]: the text that stands for one
    code point. *)
Definition escape_char (c : N) : text :=
  if c =? BACKSLASH then [BACKSLASH; BACKSLASH]
  else if c =? QUOTE then [BACKSLASH; QUOTE]
  else if (32 <=? c) && (c <=? 126) then [c]
  else if c =? 8 then [BACKSLASH; 98]
  else if c =? 12 then [BACKSLASH; 102]
  else if c =? 10 then [BACKSLASH; 110]
  else if c =? 13 then [BACKSLASH; 114]
  else if c =? 9 then [BACKSLASH; 116]
  else if c <? 0x10000 then BACKSLASH :: 117 :: format_04x c
  else
    let n := c - 0x10000 in
    let s1 := N.lor 0xd800 (N.land (N.shiftr n 10) 0x3ff) in
    let s2 := N.lor 0xdc00 (N.land n 0x3ff) in
    (BACKSLASH :: 117 :: format_04x s1) ++ (BACKSLASH :: 117 :: format_04x s2).

(** [py_encode_basestring_ascii(s)]. *)
Definition encode_basestring_ascii (s : text) : text :=
  QUOTE :: flat_map escape_char s ++ [QUOTE].

(** The decimal digits of a natural number, most significant first; [fuel]
    bounds the number of digits. *)
Fixpoint digits (fuel : nat) (n : N) : text :=
  match fuel with
  | O => []
  | S fuel =>
      if n <? 10 then [48 + n]
      else digits fuel (n / 10) ++ [48 + n mod 10]
  end.

(** [int.__repr__]. *)
Definition intstr (n : Z) : text :=
  let m := Z.abs_N n in
  let d := digits (S (N.to_nat (N.log2 m))) m in
  if (n <? 0)%Z then MINUS :: d else d.

(** ['\n' + _indent * level] with [_indent = ' ' * 2]. *)
Definition newline_indent (level : nat) : text :=
  NEWLINE :: repeat SPACE (2 * level).

(** [sep.join(chunks)]. *)
Fixpoint join (sep : text) (chunks : list text) : text :=
  match chunks with
  | [] => []
  | [c] => c
  | c :: rest => c ++ sep ++ join sep rest
  end.

(** [_iterencode(o, _current_indent_level)] of [_make_iterencode], all
    chunks concatenated; item separator [','], key separator [': ']. *)
Fixpoint iterencode (level : nat) (o : json) : text :=
  match o with
  | JStr s => encode_basestring_ascii s
  | JNull => u "null"
  | JBool true => u "true"
  | JBool false => u "false"
  | JInt n => intstr n
  | JArr [] => u "[]"
  | JArr lst =>
      let separator := COMMA :: newline_indent (S level) in
      [LBRACKET] ++ newline_indent (S level)
        ++ join separator (map (iterencode (S level)) lst)
        ++ newline_indent level ++ [RBRACKET]
  | JObj [] => u "{}"
  | JObj dct =>
      let item_separator := COMMA :: newline_indent (S level) in
      [LBRACE] ++ newline_indent (S level)
        ++ join item_separator
             (map (λ kv, encode_basestring_ascii (fst kv) ++ [COLON; SPACE]
                           ++ iterencode (S level) (snd kv)) dct)
        ++ newline_indent level ++ [RBRACE]
  end.

(** What [json.dump(obj, f, indent=2)] writes to [f]. *)
Definition json_dump (obj : json) : text := iterencode 0 obj.

(** *** Decoding: [json.load(f)] *)

(** [WHITESPACE.match(s, end).end()]: skip [' '], ['\t'], ['\n'], ['\r']. *)
Definition is_ws (c : N) : bool :=
  (c =? 32) || (c =? 9) || (c =? 10) || (c =? 13).

Fixpoint skip_ws (s : text) : text :=
  match s with
  | c :: rest => if is_ws c then skip_ws rest else s
  | [] => []
  end.

(** The value of one hexadecimal digit, either case. *)
Definition unhex (c : N) : option N :=
  if (48 <=? c) && (c <=? 57) then Some (c - 48)
  else if (97 <=? c) && (c <=? 102) then Some (c - 87)
  else if (65 <=? c) && (c <=? 70) then Some (c - 55)
  else None.

(** [_decode_uXXXX]: the four characters after [\u]. *)
Definition decode_uXXXX (a b c d : N) : option N :=
  a ← unhex a; b ← unhex b; c ← unhex c; d ← unhex d;
  Some (N.lor (N.shiftl (N.lor (N.shiftl (N.lor (N.shiftl a 4) b) 4) c) 4) d).

(** The table [BACKSLASH] of the decoder. *)
Definition backslash (esc : N) : option N :=
  if esc =? QUOTE then Some QUOTE
  else if esc =? BACKSLASH then Some BACKSLASH
  else if esc =? 47 then Some 47
  else if esc =? 98 then Some 8
  else if esc =? 102 then Some 12
  else if esc =? 110 then Some 10
  else if esc =? 114 then Some 13
  else if esc =? 116 then Some 9
  else None.

Definition is_high_surrogate (c : N) : bool := (0xd800 <=? c) && (c <=? 0xdbff).
Definition is_low_surrogate (c : N) : bool := (0xdc00 <=? c) && (c <=? 0xdfff).

(** The test [s[end:end + 2]] of [scanstring]: a backslash and [u] come
    next. *)
Definition unicode_escape_ahead (s : text) : bool :=
  match s with
  | bs :: esc :: _ => (bs =? BACKSLASH) && (esc =? 117)
  | _ => false
  end.

(** [scanstring(s, end, strict=True)], from just after the opening quote:
    the string and the text after its closing quote. *)
Fixpoint scanstring (s : text) : option (text * text) :=
  match s with
  | [] => None                                    (* unterminated string *)
  | c :: s1 =>
      if c =? QUOTE then Some ([], s1)
      else if c =? BACKSLASH then
        match s1 with
        | [] => None
        | esc :: s2 =>
            if esc =? 117 then
              match s2 with
              | a :: b :: c :: d :: s3 =>
                  uni ← decode_uXXXX a b c d;
                  let lone :=
                    '(str, rest) ← scanstring s3; Some (uni :: str, rest) in
                  if is_high_surrogate uni && unicode_escape_ahead s3 then
                    match s3 with
                    | _ :: _ :: a2 :: b2 :: c2 :: d2 :: s6 =>
                        uni2 ← decode_uXXXX a2 b2 c2 d2;
                        if is_low_surrogate uni2 then
                          let uni := 0x10000 +
                            N.lor (N.shiftl (uni - 0xd800) 10) (uni2 - 0xdc00) in
                          '(str, rest) ← scanstring s6; Some (uni :: str, rest)
                        else lone
                    | _ => None                            (* invalid \uXXXX *)
                    end
                  else lone
              | _ => None                                  (* invalid \uXXXX *)
              end
            else
              char ← backslash esc;
              '(str, rest) ← scanstring s2; Some (char :: str, rest)
        end
      else if c <? 32 then None                   (* invalid control character *)
      else '(str, rest) ← scanstring s1; Some (c :: str, rest)
  end.

Definition is_digit (c : N) : bool := (48 <=? c) && (c <=? 57).

(** A run of digits, folded to its value. *)
Fixpoint scan_digits (acc : N) (s : text) : N * text :=
  match s with
  | c :: rest => if is_digit c then scan_digits (10 * acc + (c - 48)) rest
                 else (acc, s)
  | [] => (acc, [])
  end.

(** Whether the text goes on with a fraction or an exponent of [NUMBER_RE]:
    the number is then a float. *)
Definition float_follows (s : text) : bool :=
  match s with
  | 46 :: d :: _ => is_digit d
  | e :: s1 =>
      if (e =? 101) || (e =? 69) then
        match s1 with
        | d :: s2 =>
            if (d =? 43) || (d =? 45) then
              match s2 with d2 :: _ => is_digit d2 | [] => false end
            else is_digit d
        | [] => false
        end
      else false
  | [] => false
  end.

(** The integer part of [NUMBER_RE] without its sign: a lone [0], or a
    digit from 1 to 9 and any number of digits. *)
Definition match_natural (s : text) : option (N * text) :=
  match s with
  | c :: rest =>
      if c =? ZERO then Some (0, rest)
      else if is_digit c then Some (scan_digits (c - 48) rest)
      else None
  | [] => None
  end.

(** [match_number] and [parse_int]; [None] also stands for a float. *)
Definition match_number (s : text) : option (Z * text) :=
  '(sign, s1) ← match s with
                | c :: rest => if c =? MINUS then Some ((-1)%Z, rest)
                               else Some (1%Z, s)
                | [] => None
                end;
  '(n, rest) ← match_natural s1;
  if float_follows rest then None else Some ((sign * Z.of_N n)%Z, rest).

(** [dict.__setitem__]: a new key goes last, a known key keeps its place. *)
Fixpoint dict_set (d : list (text * json)) (key : text) (value : json)
    : list (text * json) :=
  match d with
  | [] => [(key, value)]
  | (k, v) :: rest =>
      if decide (k = key) then (k, value) :: rest
      else (k, v) :: dict_set rest key value
  end.

(** [dict(pairs)]. *)
Definition dict (pairs : list (text * json)) : list (text * json) :=
  fold_left (λ d kv, dict_set d (fst kv) (snd kv)) pairs [].

(** Whether [s] starts with the ASCII literal [lit]; the rest if so. *)
Fixpoint strip_prefix (lit s : text) : option text :=
  match lit, s with
  | [], _ => Some s
  | a :: lit, b :: s => if a =? b then strip_prefix lit s else None
  | _ :: _, [] => None
  end.

(** [scan_once], [JSONObject] and [JSONArray].  Every call consumes one
    unit of [fuel]; the loops of the latter two are [object_loop] (from just
    after the opening quote of a key) and [array_loop] (from the first
    character of a value). *)
Fixpoint scan_once (fuel : nat) (s : text) : option (json * text) :=
  match fuel with
  | O => None
  | S fuel =>
      match s with
      | [] => None
      | nextchar :: s1 =>
          if nextchar =? QUOTE then
            '(str, rest) ← scanstring s1; Some (JStr str, rest)
          else if nextchar =? LBRACE then
            match skip_ws s1 with
            | c :: s2 =>
                if c =? RBRACE then Some (JObj [], s2)
                else if c =? QUOTE then object_loop fuel s2 []
                else None
            | [] => None
            end
          else if nextchar =? LBRACKET then
            match skip_ws s1 with
            | c :: s2 =>
                if c =? RBRACKET then Some (JArr [], s2)
                else array_loop fuel (c :: s2) []
            | [] => None
            end
          else
            match strip_prefix (u "null") s with
            | Some rest => Some (JNull, rest)
            | None =>
            match strip_prefix (u "true") s with
            | Some rest => Some (JBool true, rest)
            | None =>
            match strip_prefix (u "false") s with
            | Some rest => Some (JBool false, rest)
            | None => '(n, rest) ← match_number s; Some (JInt n, rest)
            end end end
      end
  end
with object_loop (fuel : nat) (s : text) (pairs : list (text * json))
    : option (json * text) :=
  match fuel with
  | O => None
  | S fuel =>
      '(key, s1) ← scanstring s;
      match skip_ws s1 with
      | c :: s2 =>
          if c =? COLON then
            '(value, s3) ← scan_once fuel (skip_ws s2);
            let pairs := pairs ++ [(key, value)] in
            match skip_ws s3 with
            | nextchar :: s4 =>
                if nextchar =? RBRACE then Some (JObj (dict pairs), s4)
                else if nextchar =? COMMA then
                  match skip_ws s4 with
                  | q :: s5 =>
                      if q =? QUOTE then object_loop fuel s5 pairs else None
                  | [] => None
                  end
                else None
            | [] => None
            end
          else None
      | [] => None
      end
  end
with array_loop (fuel : nat) (s : text) (values : list json)
    : option (json * text) :=
  match fuel with
  | O => None
  | S fuel =>
      '(value, s1) ← scan_once fuel s;
      let values := values ++ [value] in
      match skip_ws s1 with
      | nextchar :: s2 =>
          if nextchar =? RBRACKET then Some (JArr values, s2)
          else if nextchar =? COMMA then array_loop fuel (skip_ws s2) values
          else None
      | [] => None
      end
  end.

(** [JSONDecoder.decode(s)] with the given fuel: white space, a value, white
    space and the end of the text. *)
Definition decode (fuel : nat) (s : text) : option json :=
  '(obj, rest) ← scan_once fuel (skip_ws s);
  match skip_ws rest with
  | [] => Some obj
  | _ :: _ => None                                (* extra data *)
  end.

(** [json.load(f)] on the text read from [f], or [None] when it raises.
    The fuel is enough for every text: see [decode_fuel]. *)
Definition json_load (s : text) : option json := decode (S (length s)) s.

(** *** Well-formed text and values *)



(** A Python string as the decoder builds it: code points up to 0x10FFFF,
    a high surrogate never directly before a low one (the decoder joins
    such a pair). *)
Fixpoint wf_str (s : text) : bool :=
  match s with
  | [] => true
  | c :: rest =>
      (c <? 0x110000)
      && (if is_high_surrogate c
          then match rest with c2 :: _ => negb (is_low_surrogate c2) | [] => true end
          else true)
      && wf_str rest
  end.

(** A value as the decoder builds it: well-formed strings, and the keys of
    a dictionary all different. *)
Fixpoint wf_json (o : json) : bool :=
  match o with
  | JStr s => wf_str s
  | JArr values => forallb wf_json values
  | JObj items =>
      bool_decide (NoDup (map fst items))
      && forallb (λ kv, wf_str (fst kv) && wf_json (snd kv)) items
  | _ => true
  end.

(** Fuel with which [scan_once] reads the encoding of a value. *)
Fixpoint cost (o : json) : nat :=
  match o with
  | JArr values => S (list_sum (map (λ v, S (cost v)) values))
  | JObj items => S (list_sum (map (λ kv, S (cost (snd kv))) items))
  | _ => 1%nat
  end.

(** *** Indentation

                                               backslash or not *)

Definition is_opening (c : N) : bool := (c =? LBRACE) || (c =? LBRACKET).
Definition is_closing (c : N) : bool := (c =? RBRACE) || (c =? RBRACKET).





(** *** The texts of the model

    [json_load] stands for [json.load] on the texts that hold no float (a
    number with a fraction or an exponent, [NaN], [Infinity]), no integer of
    more than 4300 digits ([sys.get_int_max_str_digits()]) and no nesting
    deeper than 100 (inside the recursion limit of the interpreter).  The
    check walks the text outside its strings; [fuel] bounds the walk. *)
Fixpoint modelled (fuel depth : nat) (s : text) : bool :=
  match fuel with
  | O => false
  | S fuel =>
      match s with
      | [] => true
      | c :: s1 =>
          if c =? QUOTE then
            match scanstring s1 with
            | Some (_, rest) => modelled fuel depth rest
            | None => true                        (* json.load raises *)
            end
          else if is_digit c then
            match match_natural s with
            | Some (_, rest) =>
                negb (float_follows rest)
                && bool_decide (length s - length rest ≤ 4300)%nat
                && modelled fuel depth rest
            | None => true
            end
          else if (c =? 78) || (c =? 73) then false   (* NaN, Infinity *)
          else if is_opening c then
            (depth <? 100)%nat && modelled fuel (S depth) s1
          else if is_closing c then modelled fuel (pred depth) s1
          else modelled fuel depth s1
      end
  end.

(** *** Notions of the proofs about the decoder and the encoder *)

(** No escape of a low surrogate comes next. *)
Definition no_low_ahead (t : text) : Prop :=
  unicode_escape_ahead t = false
  ∨ ∃ a2 b2 c2 d2 s6 uni2,
      t = BACKSLASH :: 117 :: a2 :: b2 :: c2 :: d2 :: s6
      ∧ decode_uXXXX a2 b2 c2 d2 = Some uni2 ∧ is_low_surrogate uni2 = false.

(** The shapes of the text that stands for a code point. *)
Inductive escape_spec (c : N) : text → Prop :=
| escape_plain : c ≠ QUOTE → c ≠ BACKSLASH → 32 ≤ c → c ≤ 126 → escape_spec c [c]
| escape_short esc : backslash esc = Some c → escape_spec c [BACKSLASH; esc]
| escape_unicode a b c' d :
    c < 0x10000 → decode_uXXXX a b c' d = Some c →
    escape_spec c [BACKSLASH; 117; a; b; c'; d]
| escape_pair a b c' d a2 b2 c2 d2 s1 s2 :
    decode_uXXXX a b c' d = Some s1 → is_high_surrogate s1 = true →
    decode_uXXXX a2 b2 c2 d2 = Some s2 → is_low_surrogate s2 = true →
    0x10000 + N.lor (N.shiftl (s1 - 0xd800) 10) (s2 - 0xdc00) = c →
    escape_spec c [BACKSLASH; 117; a; b; c'; d; BACKSLASH; 117; a2; b2; c2; d2].

(** A value is followed by the end of the text, a comma or a new line. *)
Definition ends_value (rest : text) : Prop :=
  match rest with
  | [] => True
  | c :: _ => c = COMMA ∨ c = NEWLINE
  end.

(** The characters a value can start with. *)
Definition starts_value (c : N) : Prop :=
  c = QUOTE ∨ c = LBRACE ∨ c = LBRACKET ∨ c = 110 ∨ c = 116 ∨ c = 102
  ∨ c = MINUS ∨ is_digit c = true.

(** What reading back a value means: with enough fuel, before any text that
    ends the value. *)
Definition reads_back (o : json) : Prop :=
  ∀ level fuel rest,
    wf_json o = true → ends_value rest → (cost o ≤ fuel)%nat →
    scan_once fuel (iterencode level o ++ rest) = Some (o, rest).

(** An item of a dictionary that is well formed. *)
Definition item_ok (kv : text * json) : Prop :=
  wf_str kv.1 = true ∧ wf_json kv.2 = true.




(** What a cut does to a value: of the text of [o] with its end missing,
    the decoder reads nothing, or, of an integer, the digits that are
    left. *)
Definition cut_short (o : json) : Prop :=
  ∀ level fuel p q,
    wf_json o = true → q ≠ [] → iterencode level o = p ++ q →
    match scan_once fuel p with
    | None => True
    | Some (_, rest) => rest = [] ∧ ∃ n, o = JInt n
    end.

(** [array_loop] behind the value of an item. *)
Definition array_rest (fuel : nat) (s1 : text) (values : list json)
    : option (json * text) :=
  match skip_ws s1 with
  | nextchar :: s2 =>
      if nextchar =? RBRACKET then Some (JArr values, s2)
      else if nextchar =? COMMA then array_loop fuel (skip_ws s2) values
      else None
  | [] => None
  end.

(** [object_loop] behind the value of an item. *)
Definition object_rest (fuel : nat) (s3 : text) (pairs : list (text * json))
    : option (json * text) :=
  match skip_ws s3 with
  | nextchar :: s4 =>
      if nextchar =? RBRACE then Some (JObj (dict pairs), s4)
      else if nextchar =? COMMA then
        match skip_ws s4 with
        | q :: s5 => if q =? QUOTE then object_loop fuel s5 pairs else None
        | [] => None
        end
      else None
  | [] => None
  end.

(** ** Configuration store *)

(** The configuration dictionary as a JSON value, keys in the order of the
    literal in [load_config]. *)
Definition json_of_hotkey (h : HotkeyEntry) : json :=
  JObj [ (u "name", JStr (u (hk_name h)));
         (u "shortcut", JStr (u (hk_shortcut h)));
         (u "endpoint", JStr (u (hk_endpoint h)));
         (u "action", JStr (u (hk_action h))) ].

Definition json_of_config (c : Configuration) : json :=
  JObj [ (u "shelly_ip", JStr (u (shelly_ip c)));
         (u "autostart", JBool (autostart c));
         (u "minimize_to_tray", JBool (minimize_to_tray c));
         (u "hotkeys", JArr (map json_of_hotkey (hotkeys c))) ].

(** What is found at [self.config_file]. *)
Inductive File :=
| Missing                 (* config_file.exists() is false *)
| Unreadable              (* open() or f.read() raises *)
| Content (t : text).


(** The file is one of the model: see [modelled]. *)
Definition modelled_file (config_file : File) : bool :=
  match config_file with
  | Content t => modelled (S (length t)) 0 t
  | Unreadable | Missing => true
  end.

(** [load_config(self)]: the loaded dictionary is returned as it is. *)
Definition load_config (config_file : File) : json :=
  match config_file with
  | Content t =>
      match json_load t with
      | Some obj => obj
      | None => json_of_config default_config
      end
  | Unreadable | Missing => json_of_config default_config
  end.

(** How the write of [save_config] goes. *)
Inductive WriteOutcome :=
| Written
| OpenRaises (e : string)               (* open(config_file, 'w') raises *)
| WriteRaises (written : nat) (e : string).
    (* the file was truncated, [written] characters reached it, then
       f.write or f.close raised *)

(** [save_config(self)] for [self.config = config]: the file afterwards and
    the dialogs shown. *)
Definition save_config (config : json) (config_file : File) (io : WriteOutcome)
    : File * list Event :=
  match io with
  | Written => (Content (json_dump config), [])
  | OpenRaises e =>
      (config_file,
       [MessageBox Warning "Error" ("Failed to save configuration: " +:+ e)])
  | WriteRaises written e =>
      (Content (take written (json_dump config)),
       [MessageBox Warning "Error" ("Failed to save configuration: " +:+ e)])
  end.

(** [d.get(key)]: the value of the key, if it is there. *)
Fixpoint dict_get (d : list (text * json)) (key : text) : option json :=
  match d with
  | [] => None
  | (k, v) :: rest => if decide (k = key) then Some v else dict_get rest key
  end.

(** What [init_ui] puts in the IP field and the two boxes:
    [config["shelly_ip"]], [config["autostart"]] and
    [config.get("minimize_to_tray", True)].  [None] when a key is missing
    ([KeyError]) or a value is not a string or a truth value, which the
    model leaves out. *)
Definition init_ui_widgets (config : list (text * json))
    : option (text * bool * bool) :=
  match dict_get config (u "shelly_ip"), dict_get config (u "autostart") with
  | Some (JStr ip), Some (JBool autostart) =>
      match dict_get config (u "minimize_to_tray") with
      | None => Some (ip, autostart, true)
      | Some (JBool minimize_to_tray) => Some (ip, autostart, minimize_to_tray)
      | Some _ => None
      end
  | _, _ => None
  end.

Local Close Scope N_scope.
Local Close Scope Z_scope.

(** ** The window and the Qt objects it owns *)

(** What a signal is connected to. *)
Inductive Slot :=
| ToggleDevice (endpoint action : string)
    (* partial(self.toggle_shelly_device, endpoint, action) *)
| ShowHideWindow                          (* self.show_hide_window *)
| Quit.                                   (* QApplication.quit *)

Record QAction := {
  act_text : string;
  act_separator : bool;
  act_triggered : option Slot
}.

Record QSystemTrayIcon := {
  contextMenu : list QAction;
  tray_visible : bool
}.

(** The table widget: the text of the items of each row (four columns),
    and [selectedIndexes()] as (row, column) pairs. *)
Record QTableWidget := {
  rows : list (list string);
  selectedIndexes : list (nat * nat)
}.

Definition item (t : QTableWidget) (row column : nat) : option string :=
  r ← rows t !! row; r !! column.

Section Window.

(** Key sequences, and [QKeySequence(text)]: the key combination a
    portable text stands for. *)
Context {KeySeq : Type} (QKeySequence : string → KeySeq).

Record QShortcut := {
  sc_key : KeySeq;
  sc_activated : Slot;
  sc_enabled : bool
}.

Definition setEnabled (b : bool) (s : QShortcut) : QShortcut :=
  {| sc_key := sc_key s; sc_activated := sc_activated s; sc_enabled := b |}.

(** The attributes of [ShellyController], then the objects created with
    the window as parent, which live as long as the window.  The
    attributes [shortcuts] and [tray_icon] are references (positions)
    into the latter; [self.show_action] is the first action of the menu
    of [self.tray_icon]. *)
Record ShellyController := {
  config : Configuration;
  ip_input : string;                      (* ip_input.text() *)
  autostart_checkbox : bool;              (* isChecked() *)
  minimize_to_tray_checkbox : bool;
  hotkeys_table : QTableWidget;
  shortcuts : list nat;
  tray_icon : option nat;
  visible : bool;                         (* self.isVisible() *)
  child_shortcuts : list QShortcut;
  child_tray_icons : list QSystemTrayIcon
}.

Definition set_config (c : Configuration) (w : ShellyController) :=
  {| config := c; ip_input := ip_input w;
     autostart_checkbox := autostart_checkbox w;
     minimize_to_tray_checkbox := minimize_to_tray_checkbox w;
     hotkeys_table := hotkeys_table w; shortcuts := shortcuts w;
     tray_icon := tray_icon w; visible := visible w;
     child_shortcuts := child_shortcuts w;
     child_tray_icons := child_tray_icons w |}.

Definition set_hotkeys (hs : list HotkeyEntry) (w : ShellyController) :=
  set_config {| shelly_ip := shelly_ip (config w);
                autostart := autostart (config w);
                minimize_to_tray := minimize_to_tray (config w);
                hotkeys := hs |} w.

Definition set_hotkeys_table (t : QTableWidget) (w : ShellyController) :=
  {| config := config w; ip_input := ip_input w;
     autostart_checkbox := autostart_checkbox w;
     minimize_to_tray_checkbox := minimize_to_tray_checkbox w;
     hotkeys_table := t; shortcuts := shortcuts w;
     tray_icon := tray_icon w; visible := visible w;
     child_shortcuts := child_shortcuts w;
     child_tray_icons := child_tray_icons w |}.

Definition set_shortcuts (refs : list nat) (objs : list QShortcut)
    (w : ShellyController) :=
  {| config := config w; ip_input := ip_input w;
     autostart_checkbox := autostart_checkbox w;
     minimize_to_tray_checkbox := minimize_to_tray_checkbox w;
     hotkeys_table := hotkeys_table w; shortcuts := refs;
     tray_icon := tray_icon w; visible := visible w;
     child_shortcuts := objs;
     child_tray_icons := child_tray_icons w |}.

Definition set_tray (ref : option nat) (icons : list QSystemTrayIcon)
    (w : ShellyController) :=
  {| config := config w; ip_input := ip_input w;
     autostart_checkbox := autostart_checkbox w;
     minimize_to_tray_checkbox := minimize_to_tray_checkbox w;
     hotkeys_table := hotkeys_table w; shortcuts := shortcuts w;
     tray_icon := ref; visible := visible w;
     child_shortcuts := child_shortcuts w;
     child_tray_icons := icons |}.

Definition set_visible (b : bool) (w : ShellyController) :=
  {| config := config w; ip_input := ip_input w;
     autostart_checkbox := autostart_checkbox w;
     minimize_to_tray_checkbox := minimize_to_tray_checkbox w;
     hotkeys_table := hotkeys_table w; shortcuts := shortcuts w;
     tray_icon := tray_icon w; visible := b;
     child_shortcuts := child_shortcuts w;
     child_tray_icons := child_tray_icons w |}.

(** [update_hotkeys_table(self)]: [setRowCount(0)] drops the rows and with
    them the selection; one row of four items per hotkey follows.  (The
    [cellChanged] signal is connected on the first call and stays so.) *)
Definition update_hotkeys_table (w : ShellyController) : ShellyController :=
  set_hotkeys_table
    {| rows := map (λ hotkey, [hk_name hotkey; hk_shortcut hotkey;
                               hk_endpoint hotkey; hk_action hotkey])
                   (hotkeys (config w));
       selectedIndexes := [] |} w.

(** [setup_shortcuts(self)]. *)
Definition setup_shortcuts (w : ShellyController) : ShellyController :=
  (* for shortcut in self.shortcuts: shortcut.setEnabled(False) *)
  let objs := foldl (λ objs ref, alter (setEnabled false) ref objs)
                    (child_shortcuts w) (shortcuts w) in
  (* self.shortcuts = []; for hotkey in ...: self.shortcuts.append(...) *)
  let '(refs, objs) :=
    foldl (λ '(refs, objs) hotkey,
             let shortcut :=
               {| sc_key := QKeySequence (hk_shortcut hotkey);
                  sc_activated :=
                    ToggleDevice (hk_endpoint hotkey) (hk_action hotkey);
                  sc_enabled := true |} in
             (refs ++ [length objs], objs ++ [shortcut]))
          ([], objs) (hotkeys (config w)) in
  set_shortcuts refs objs w.

Definition setText (t : string) (a : QAction) : QAction :=
  {| act_text := t; act_separator := act_separator a;
     act_triggered := act_triggered a |}.

(** [update_show_action_text(self)]. *)
Definition update_show_action_text (w : ShellyController) : ShellyController :=
  match tray_icon w with
  | Some ref =>
      let retext (icon : QSystemTrayIcon) :=
        {| contextMenu :=
             alter (setText (if visible w then "Hide" else "Show")) 0
                   (contextMenu icon);
           tray_visible := tray_visible icon |} in
      set_tray (Some ref) (alter retext ref (child_tray_icons w)) w
  | None => w
  end.

Definition separator : QAction :=
  {| act_text := ""; act_separator := true; act_triggered := None |}.

(** [setup_tray(self)]: a new tray icon with a new menu; the icon that
    [self.tray_icon] named before is not touched. *)
Definition setup_tray (w : ShellyController) : ShellyController :=
  let show_action :=
    {| act_text := "Show"; act_separator := false;
       act_triggered := Some ShowHideWindow |} in
  let device_actions :=
    map (λ hotkey,
           {| act_text := hk_name hotkey +:+ " (" +:+ hk_action hotkey +:+ ")";
              act_separator := false;
              act_triggered :=
                Some (ToggleDevice (hk_endpoint hotkey) (hk_action hotkey)) |})
        (hotkeys (config w)) in
  let quit_action :=
    {| act_text := "Quit"; act_separator := false;
       act_triggered := Some Quit |} in
  let tray_menu :=
    [show_action; separator] ++ device_actions ++ [separator; quit_action] in
  let icon := {| contextMenu := tray_menu; tray_visible := true |} in
  update_show_action_text
    (set_tray (Some (length (child_tray_icons w)))
              (child_tray_icons w ++ [icon]) w).

(** [__init__(self)] with [self.config = config], and [window.show()] of
    [main].  The configuration is a record of the four documented keys; for
    the dictionary as it was loaded see [init_ui_widgets]. *)
Definition init (config : Configuration) : ShellyController :=
  let w := {| config := config;
              ip_input := shelly_ip config;
              autostart_checkbox := autostart config;
              minimize_to_tray_checkbox := minimize_to_tray config;
              hotkeys_table := {| rows := []; selectedIndexes := [] |};
              shortcuts := []; tray_icon := None; visible := false;
              child_shortcuts := []; child_tray_icons := [] |} in
  set_visible true (setup_tray (setup_shortcuts (update_hotkeys_table w))).

(** [self.config["hotkeys"][row][fields[column]] = text]. *)
Definition set_field (column : nat) (text : string) (h : HotkeyEntry)
    : HotkeyEntry :=
  match column with
  | 0 => {| hk_name := text; hk_shortcut := hk_shortcut h;
            hk_endpoint := hk_endpoint h; hk_action := hk_action h |}
  | 1 => {| hk_name := hk_name h; hk_shortcut := text;
            hk_endpoint := hk_endpoint h; hk_action := hk_action h |}
  | 2 => {| hk_name := hk_name h; hk_shortcut := hk_shortcut h;
            hk_endpoint := text; hk_action := hk_action h |}
  | 3 => {| hk_name := hk_name h; hk_shortcut := hk_shortcut h;
            hk_endpoint := hk_endpoint h; hk_action := text |}
  | _ => h          (* no fifth column: the table has no such item *)
  end.

(** [hotkey_cell_changed(self, row, column)]. *)
Definition hotkey_cell_changed (row column : nat) (w : ShellyController)
    : ShellyController :=
  if bool_decide (length (hotkeys (config w)) ≤ row) then w
  else
    match item (hotkeys_table w) row column with
    | None => w
    | Some text =>
        let w := set_hotkeys
                   (alter (set_field column text) row (hotkeys (config w))) w in
        setup_tray (setup_shortcuts w)
    end.

(** [add_hotkey(self)]. *)
Definition add_hotkey (w : ShellyController) : ShellyController :=
  let new_hotkey := {| hk_name := "New Hotkey"; hk_shortcut := "Ctrl+Alt+N";
                       hk_endpoint := "relay/0"; hk_action := "toggle" |} in
  let w := set_hotkeys (hotkeys (config w) ++ [new_hotkey]) w in
  setup_tray (setup_shortcuts (update_hotkeys_table w)).

(** [remove_hotkey(self)]. *)
Definition remove_hotkey (w : ShellyController) : ShellyController :=
  match selectedIndexes (hotkeys_table w) with
  | [] => w
  | (row, _) :: _ =>
      if bool_decide (row < length (hotkeys (config w))) then
        let w := set_hotkeys (delete row (hotkeys (config w))) w in
        setup_tray (setup_shortcuts (update_hotkeys_table w))
      else w
  end.

Definition set_ip (t : string) (w : ShellyController) :=
  {| config := {| shelly_ip := t; autostart := autostart (config w);
                  minimize_to_tray := minimize_to_tray (config w);
                  hotkeys := hotkeys (config w) |};
     ip_input := t;
     autostart_checkbox := autostart_checkbox w;
     minimize_to_tray_checkbox := minimize_to_tray_checkbox w;
     hotkeys_table := hotkeys_table w; shortcuts := shortcuts w;
     tray_icon := tray_icon w; visible := visible w;
     child_shortcuts := child_shortcuts w;
     child_tray_icons := child_tray_icons w |}.

(** The user types in the IP field: [ip_input.text()] becomes [t] and the
    slot of [textChanged] runs,
    [self.config.update({"shelly_ip": self.ip_input.text()})]. *)
Definition ip_text_changed (t : string) (w : ShellyController)
    : ShellyController :=
  set_ip t w.

Inductive CheckState := Unchecked | Checked.

Definition is_checked (state : CheckState) : bool :=
  match state with Checked => true | Unchecked => false end.

(** The user clicks the autostart box, and [toggle_autostart(self, state)].
    The comparison [state == Qt.Checked] is read as true for the checked
    state and false for the unchecked one. *)
Definition toggle_autostart (state : CheckState) (w : ShellyController)
    : ShellyController :=
  {| config := {| shelly_ip := shelly_ip (config w);
                  autostart := is_checked state;
                  minimize_to_tray := minimize_to_tray (config w);
                  hotkeys := hotkeys (config w) |};
     ip_input := ip_input w;
     autostart_checkbox := is_checked state;
     minimize_to_tray_checkbox := minimize_to_tray_checkbox w;
     hotkeys_table := hotkeys_table w; shortcuts := shortcuts w;
     tray_icon := tray_icon w; visible := visible w;
     child_shortcuts := child_shortcuts w;
     child_tray_icons := child_tray_icons w |}.

(** The user clicks the tray box, and
    [toggle_minimize_to_tray(self, state)], with the same reading of
    [state == Qt.Checked]. *)
Definition toggle_minimize_to_tray (state : CheckState) (w : ShellyController)
    : ShellyController :=
  {| config := {| shelly_ip := shelly_ip (config w);
                  autostart := autostart (config w);
                  minimize_to_tray := is_checked state;
                  hotkeys := hotkeys (config w) |};
     ip_input := ip_input w;
     autostart_checkbox := autostart_checkbox w;
     minimize_to_tray_checkbox := is_checked state;
     hotkeys_table := hotkeys_table w; shortcuts := shortcuts w;
     tray_icon := tray_icon w; visible := visible w;
     child_shortcuts := child_shortcuts w;
     child_tray_icons := child_tray_icons w |}.

(** [show_hide_window(self)]. *)
Definition show_hide_window (w : ShellyController) : ShellyController :=
  update_show_action_text (set_visible (negb (visible w)) w).

(** The user selects cells of the table. *)
Definition select (indexes : list (nat * nat)) (w : ShellyController)
    : ShellyController :=
  set_hotkeys_table
    {| rows := rows (hotkeys_table w); selectedIndexes := indexes |} w.

(** The user edits the item at (row, column), if there is one: its text
    changes and [cellChanged(row, column)] runs [hotkey_cell_changed]. *)
Definition edit_cell (row column : nat) (text : string) (w : ShellyController)
    : ShellyController :=
  match item (hotkeys_table w) row column with
  | None => w
  | Some _ =>
      let t := {| rows := alter (λ r, <[column := text]> r) row
                                (rows (hotkeys_table w));
                  selectedIndexes := selectedIndexes (hotkeys_table w) |} in
      hotkey_cell_changed row column (set_hotkeys_table t w)
  end.

Inductive Platform := Win32 | Linux | OtherPlatform.

(** [configure_autostart(self)], as far as the window sees it: the dialog
    shown when the registry or the autostart directory raises [raises]. *)
Definition configure_autostart (platform : Platform) (raises : option string)
    : list Event :=
  match platform, raises with
  | (Win32 | Linux), Some e =>
      [MessageBox Warning "Error" ("Failed to configure autostart: " +:+ e)]
  | _, _ => []
  end.

(** [save_settings(self)]: the window, the file and the dialogs after.  The
    configuration is a record of the four documented keys; for the
    dictionary as it was loaded see [save_settings_dict]. *)
Definition save_settings (config_file : File) (io : WriteOutcome)
    (platform : Platform) (autostart_raises : option string)
    (w : ShellyController) : ShellyController * File * list Event :=
  let w := set_config {| shelly_ip := ip_input w;
                         autostart := autostart_checkbox w;
                         minimize_to_tray := minimize_to_tray_checkbox w;
                         hotkeys := hotkeys (config w) |} w in
  let '(config_file, saved) :=
    save_config (json_of_config (config w)) config_file io in
  let configured := configure_autostart platform autostart_raises in
  (w, config_file,
   saved ++ configured ++ [MessageBox Information "Success" "Settings saved!"]).

(** What the user can do to the window. *)
Inductive UiEvent :=
| TypeIp (t : string)
| ClickAutostart (state : CheckState)
| ClickMinimizeToTray (state : CheckState)
| SelectCells (indexes : list (nat * nat))
| EditCell (row column : nat) (text : string)
| ClickAdd
| ClickRemove
| ClickSave (config_file : File) (io : WriteOutcome)
    (platform : Platform) (autostart_raises : option string)
| ClickShowHide.

Definition handle (e : UiEvent) (w : ShellyController) : ShellyController :=
  match e with
  | TypeIp t => ip_text_changed t w
  | ClickAutostart state => toggle_autostart state w
  | ClickMinimizeToTray state => toggle_minimize_to_tray state w
  | SelectCells indexes => select indexes w
  | EditCell row column text => edit_cell row column text w
  | ClickAdd => add_hotkey w
  | ClickRemove => remove_hotkey w
  | ClickSave f io p a => (save_settings f io p a w).1.1
  | ClickShowHide => show_hide_window w
  end.

(** The window after [__init__] and any sequence of user actions. *)
Definition run (config : Configuration) (events : list UiEvent)
    : ShellyController :=
  foldl (λ w e, handle e w) (init config) events.

(** The states the window can be in. *)
Inductive reachable : ShellyController → Prop :=
| reachable_init config : reachable (init config)
| reachable_step w e : reachable w → reachable (handle e w).

(** *** Live bindings *)

(** The bindings of the hotkey registry: what a hotkey entry binds. *)
Definition shortcut_binding (hotkey : HotkeyEntry) : KeySeq * Slot :=
  (QKeySequence (hk_shortcut hotkey),
   ToggleDevice (hk_endpoint hotkey) (hk_action hotkey)).

(** The key bindings that are live: the enabled shortcut objects of the
    window, in creation order. *)
Definition live_shortcuts (w : ShellyController) : list (KeySeq * Slot) :=
  map (λ s, (sc_key s, sc_activated s))
      (filter (λ s, sc_enabled s = true) (child_shortcuts w)).

(** Every enabled shortcut object is one that [self.shortcuts] names. *)
Definition live_shortcuts_referenced (w : ShellyController) : Prop :=
  ∀ ref s, child_shortcuts w !! ref = Some s → sc_enabled s = true →
           ref ∈ shortcuts w.

Definition is_device_action (a : QAction) : bool :=
  match act_triggered a with Some (ToggleDevice _ _) => true | _ => false end.

(** The tray-menu bindings that are live: the device actions in the menus
    of the tray icons that are shown. *)
Definition live_tray_actions (w : ShellyController) : list QAction :=
  filter (λ a, is_device_action a = true)
    (flat_map contextMenu
       (filter (λ icon, tray_visible icon = true) (child_tray_icons w))).

(** The menu entry of a hotkey. *)
Definition tray_binding (hotkey : HotkeyEntry) : QAction :=
  {| act_text := hk_name hotkey +:+ " (" +:+ hk_action hotkey +:+ ")";
     act_separator := false;
     act_triggered :=
       Some (ToggleDevice (hk_endpoint hotkey) (hk_action hotkey)) |}.

End Window.

(** [save_settings(self)] on [self.config] as the dictionary that
    [load_config] returned: the three assignments, [save_config],
    [configure_autostart] and the closing dialog.  The text of the IP field
    and the states of the boxes are arguments. *)
Definition save_settings_dict (config : list (text * json)) (ip_input : text)
    (autostart_checkbox minimize_to_tray_checkbox : bool)
    (config_file : File) (io : WriteOutcome)
    (platform : Platform) (autostart_raises : option string)
    : list (text * json) * File * list Event :=
  let config := dict_set config (u "shelly_ip") (JStr ip_input) in
  let config := dict_set config (u "autostart") (JBool autostart_checkbox) in
  let config :=
    dict_set config (u "minimize_to_tray") (JBool minimize_to_tray_checkbox) in
  let '(config_file, saved) := save_config (JObj config) config_file io in
  let configured := configure_autostart platform autostart_raises in
  (config, config_file,
   saved ++ configured ++ [MessageBox Information "Success" "Settings saved!"]).

(** ** More of the window: closing, the tray icon, activation *)

(** The items of the table row of a hotkey, as [update_hotkeys_table] sets
    them. *)
Definition row_of (hotkey : HotkeyEntry) : list string :=
  [hk_name hotkey; hk_shortcut hotkey; hk_endpoint hotkey; hk_action hotkey].

(** The dictionary literal of [add_hotkey]. *)
Definition new_hotkey : HotkeyEntry :=
  {| hk_name := "New Hotkey"; hk_shortcut := "Ctrl+Alt+N";
     hk_endpoint := "relay/0"; hk_action := "toggle" |}.

(** [QSystemTrayIcon.ActivationReason]. *)
Inductive ActivationReason := Unknown | Context | DoubleClick | Trigger | MiddleClick.

Section WindowEvents.

Context {KeySeq : Type} (QKeySequence : string → KeySeq).

(** The object that [self.tray_icon] names. *)
Definition current_tray_icon (w : @ShellyController KeySeq)
    : option QSystemTrayIcon :=
  ref ← tray_icon w; child_tray_icons w !! ref.

(** [self.show_action.text()]: the text of the first action of the menu of
    the current tray icon. *)
Definition show_action_text (w : @ShellyController KeySeq) : option string :=
  icon ← current_tray_icon w; act_text <$> contextMenu icon !! 0.

(** [self.tray_icon.hide()]. *)
Definition hide_tray_icon (w : @ShellyController KeySeq) : ShellyController :=
  match tray_icon w with
  | Some ref =>
      set_tray (Some ref)
        (alter (λ icon, {| contextMenu := contextMenu icon;
                           tray_visible := false |}) ref (child_tray_icons w))
        w
  | None => w
  end.

(** What [closeEvent] leaves behind: the window, the value of
    [tray_notification_shown] in the settings, the notifications, whether
    the event was accepted and whether [QApplication.quit] was called. *)
Record Closed := {
  closed_window : @ShellyController KeySeq;
  closed_settings : bool;
  closed_trace : list Event;
  closed_accepted : bool;
  closed_quit : bool
}.

(** [closeEvent(self, event)], with the value that
    [self.settings.value("tray_notification_shown", False)] has. *)
Definition closeEvent (tray_notification_shown : bool)
    (w : @ShellyController KeySeq) : Closed :=
  if minimize_to_tray_checkbox w
     && match current_tray_icon w with
        | Some icon => tray_visible icon
        | None => false
        end
  then
    let w := update_show_action_text (set_visible false w) in
    if negb tray_notification_shown then
      {| closed_window := w; closed_settings := true;
         closed_trace :=
           [TrayMessage "Shelly Controller"
              "Application is still running in the system tray."
              Information 3000%Z];
         closed_accepted := false; closed_quit := false |}
    else
      {| closed_window := w; closed_settings := tray_notification_shown;
         closed_trace := []; closed_accepted := false; closed_quit := false |}
  else
    {| closed_window := hide_tray_icon w;
       closed_settings := tray_notification_shown;
       closed_trace := []; closed_accepted := true; closed_quit := true |}.

(** [tray_icon_activated(self, reason)]. *)
Definition tray_icon_activated (reason : ActivationReason)
    (w : @ShellyController KeySeq) : ShellyController :=
  match reason with
  | Trigger => show_hide_window w
  | _ => w
  end.

(** The signal [activated] of the shortcut object at [ref], with the slot
    that [setup_shortcuts] connected: nothing for a disabled object. *)
Definition shortcut_activated (requests_get : string → option Z → Response)
    (w : @ShellyController KeySeq) (ref : nat) : list Event :=
  match child_shortcuts w !! ref with
  | Some shortcut =>
      if sc_enabled shortcut then
        match sc_activated shortcut with
        | ToggleDevice endpoint action =>
            toggle_shelly_device requests_get (config w) endpoint action
        | _ => []
        end
      else []
  | None => []
  end.

(** The states of the window while the application runs: after [__init__],
    any user action, a close that leaves the application running, and any
    activation of the tray icon. *)
Inductive running : @ShellyController KeySeq → Prop :=
| running_init config : running (init QKeySequence config)
| running_handle w e : running w → running (handle QKeySequence e w)
| running_close w tray_notification_shown :
    running w →
    closed_quit (closeEvent tray_notification_shown w) = false →
    running (closed_window (closeEvent tray_notification_shown w))
| running_activated w reason :
    running w → running (tray_icon_activated reason w).

(** The menu that [setup_tray] builds, with [text] on the show action. *)
Definition tray_menu (text : string) (hotkeys : list HotkeyEntry)
    : list QAction :=
  [ {| act_text := text; act_separator := false;
       act_triggered := Some ShowHideWindow |}; separator ]
  ++ map tray_binding hotkeys
  ++ [ separator;
       {| act_text := "Quit"; act_separator := false;
          act_triggered := Some Quit |} ].

End WindowEvents.

(** ** Autostart registration *)

(** The calls of [configure_autostart] that can raise. *)
Inductive AutostartCall :=
| OpenKey | SetValueEx | DeleteValue | CloseKey      (* winreg *)
| Mkdir | OpenFile | WriteFile | Unlink.             (* ~/.config/autostart *)

(** The directory [~/.config/autostart]: missing, or there with or without
    the file [shelly_controller.desktop] and its text. *)
Inductive AutostartDir :=
| NoDir
| Dir (desktop_file : option string).

(** What autostart is registered in: the value [ShellyController] of the
    Run key of the registry, and the autostart directory. *)
Record Startup := {
  run_value : option string;
  autostart_dir : AutostartDir
}.

Definition line_feed : string := String (Ascii.ascii_of_nat 10) EmptyString.

(** The text written to the desktop entry. *)
Definition desktop_entry (app_path : string) : string :=
  "[Desktop Entry]" +:+ line_feed +:+
  "Type=Application" +:+ line_feed +:+
  "Name=Shelly Controller" +:+ line_feed +:+
  "Exec=" +:+ app_path +:+ line_feed +:+
  "Hidden=false" +:+ line_feed +:+
  "NoDisplay=false" +:+ line_feed +:+
  "X-GNOME-Autostart-enabled=true" +:+ line_feed.

(** What a call raises: [FileNotFoundError], which the inner handler of
    [configure_autostart] passes over, or another exception; [str(e)]. *)
Inductive Exception :=
| FileNotFoundError (e : string)
| OtherException (e : string).

Definition str_exception (e : Exception) : string :=
  match e with FileNotFoundError e | OtherException e => e end.

Definition autostart_warning (e : Exception) : list Event :=
  [MessageBox Warning "Error"
     ("Failed to configure autostart: " +:+ str_exception e)].

(** [winreg.CloseKey(key)], the last call on Windows. *)
Definition close_key (raises : AutostartCall → option Exception) (os : Startup)
    : Startup * list Event :=
  match raises CloseKey with
  | Some e => (os, autostart_warning e)
  | None => (os, [])
  end.

(** [configure_autostart(self)] with what it registers in.  [raises] tells
    which calls raise, and what, when they are made; [written] is how much
    of the desktop entry reaches the file when the write raises.  When
    nothing else is raised, [DeleteValue] of a value that is not there
    raises [FileNotFoundError]. *)
Definition configure_autostart_os (platform : Platform) (app_path : string)
    (raises : AutostartCall → option Exception) (written : nat)
    (autostart : bool) (os : Startup) : Startup * list Event :=
  match platform with
  | Win32 =>
      match raises OpenKey with
      | Some e => (os, autostart_warning e)
      | None =>
          if autostart then
            match raises SetValueEx with
            | Some e => (os, autostart_warning e)
            | None =>
                close_key raises {| run_value := Some app_path;
                                    autostart_dir := autostart_dir os |}
            end
          else
            match raises DeleteValue, run_value os with
            | Some (FileNotFoundError _), _ =>
                close_key raises os      (* except FileNotFoundError: pass *)
            | Some (OtherException e), _ =>
                (os, autostart_warning (OtherException e))
            | None, None => close_key raises os     (* FileNotFoundError *)
            | None, Some _ =>
                close_key raises {| run_value := None;
                                    autostart_dir := autostart_dir os |}
            end
      end
  | Linux =>
      if autostart then
        match autostart_dir os, raises Mkdir with
        | NoDir, Some e => (os, autostart_warning e)
        | dir, _ =>
            let file := match dir with NoDir => None | Dir file => file end in
            match raises OpenFile with
            | Some e =>
                ({| run_value := run_value os; autostart_dir := Dir file |},
                 autostart_warning e)
            | None =>
                match raises WriteFile with
                | Some e =>
                    ({| run_value := run_value os;
                        autostart_dir :=
                          Dir (Some (String.substring 0 written
                                       (desktop_entry app_path))) |},
                     autostart_warning e)
                | None =>
                    ({| run_value := run_value os;
                        autostart_dir := Dir (Some (desktop_entry app_path)) |},
                     [])
                end
            end
        end
      else
        match autostart_dir os with
        | Dir (Some _) =>
            match raises Unlink with
            | Some e => (os, autostart_warning e)
            | None =>
                ({| run_value := run_value os; autostart_dir := Dir None |}, [])
            end
        | _ => (os, [])
        end
  | OtherPlatform => (os, [])
  end.

(** Autostart is registered for the program at [app_path]. *)
Definition registered (platform : Platform) (app_path : string) (os : Startup)
    : Prop :=
  match platform with
  | Win32 => run_value os = Some app_path
  | Linux => autostart_dir os = Dir (Some (desktop_entry app_path))
  | OtherPlatform => False
  end.

(** No autostart is registered. *)
Definition unregistered (platform : Platform) (os : Startup) : Prop :=
  match platform with
  | Win32 => run_value os = None
  | Linux => autostart_dir os = NoDir ∨ autostart_dir os = Dir None
  | OtherPlatform => True
  end.

(** ** Reading traces *)

(** The trace reports success to the user: a tray notification with the
    information icon. *)
Definition reports_success (tr : list Event) : bool :=
  existsb (λ e, match e with
                | TrayMessage _ _ Information _ => true
                | _ => false
                end) tr.

(** The trace reports a failure: a tray notification with the warning or
    the critical icon. *)
Definition reports_failure (tr : list Event) : bool :=
  existsb (λ e, match e with
                | TrayMessage _ _ (Warning | Critical) _ => true
                | _ => false
                end) tr.

(** The answer of the connectivity probe: the success dialog was shown. *)
Definition connected (tr : list Event) : bool :=
  existsb (λ e, match e with
                | MessageBox Information _ _ => true
                | _ => false
                end) tr.

(** The response is an HTTP 200. *)
Definition is_200 (r : Response) : bool :=
  match r with Status code => (code =? 200)%Z | Raised _ => false end.

(** The elements of [l] up to and including the first one that satisfies
    [p]; all of [l] if there is none. *)
Fixpoint upto_first {A} (p : A → bool) (l : list A) : list A :=
  match l with
  | [] => []
  | x :: rest => if p x then [x] else x :: upto_first p rest
  end.

(** * Properties *)

(** ** Device client *)

Section DeviceClientProperties.

Variable requests_get : string → option Z → Response.

Lemma append_assoc (a b c : string) : (a +:+ b) +:+ c = a +:+ (b +:+ c).
Proof.
  induction a as [|x a IH]; [done|].
  change (String x ((a +:+ b) +:+ c) = String x (a +:+ (b +:+ c))).
  by rewrite IH.
Qed.

(** The URL a control request goes to. *)
Lemma control_url ip endpoint q :
  ("http://" +:+ ip +:+ "/" +:+ endpoint) +:+ q
  = "http://" +:+ ip +:+ "/" +:+ endpoint +:+ q.
Proof. by rewrite !append_assoc. Qed.

(** C2.  For a known action, [toggle_shelly_device] issues exactly one GET,
    without timeout, to [http://{ip}/{endpoint}?turn={action}]; it then
    shows one notification: success exactly when the status code is 200,
    a failure for every other status code and for every exception. *)
Theorem toggle_shelly_device_known_action config endpoint action :
  action = "toggle" ∨ action = "on" ∨ action = "off" →
  let url := "http://" +:+ shelly_ip config +:+ "/" +:+ endpoint
               +:+ "?turn=" +:+ action in
  let tr := toggle_shelly_device requests_get config endpoint action in
  requests_of tr = [HttpGet url None]
  ∧ (∃ note, tr = [HttpGet url None; note] ∧ is_http_get note = false)
  ∧ (reports_success tr = true ↔ requests_get url None = Status 200%Z)
  ∧ (reports_failure tr = true ↔ requests_get url None ≠ Status 200%Z)
  ∧ (∀ code, requests_get url None = Status code → code ≠ 200%Z →
       tr = [HttpGet url None;
             TrayMessage "Shelly Controller"
               ("Error: Status code " +:+ str_int code) Warning 3000%Z])
  ∧ (∀ e, requests_get url None = Raised e →
       tr = [HttpGet url None;
             TrayMessage "Shelly Controller" ("Failed: " +:+ e)
               Critical 3000%Z]).
Proof.
  intros Hact url tr.
  assert (Htr : tr = HttpGet url None ::
            match requests_get url None with
            | Status code =>
                if (code =? 200)%Z then
                  [TrayMessage "Shelly Controller"
                     ("Successfully toggled: " +:+ endpoint) Information 2000%Z]
                else
                  [TrayMessage "Shelly Controller"
                     ("Error: Status code " +:+ str_int code) Warning 3000%Z]
            | Raised e =>
                [TrayMessage "Shelly Controller" ("Failed: " +:+ e)
                   Critical 3000%Z]
            end).
  { subst tr url. unfold toggle_shelly_device.
    destruct Hact as [-> | [-> | ->]]; simpl; by rewrite !control_url. }
  clearbody tr. subst tr.
  destruct (requests_get url None) as [e | code] eqn:Hres;
    [| destruct (Z.eqb_spec code 200) as [-> | Hne]];
    (split; [done|]); (split; [eauto|]);
    repeat split; simpl; intros; try done; congruence.
Qed.

(** C3.  For an action other than [toggle], [on] and [off],
    [toggle_shelly_device] only shows the unknown-action notification:
    no HTTP request is issued. *)
Theorem toggle_shelly_device_unknown_action config endpoint action :
  action ≠ "toggle" → action ≠ "on" → action ≠ "off" →
  let tr := toggle_shelly_device requests_get config endpoint action in
  tr = [TrayMessage "Shelly Controller" ("Unknown action: " +:+ action)
          Warning 3000%Z]
  ∧ requests_of tr = []
  ∧ reports_success tr = false.
Proof.
  intros H1 H2 H3 tr. subst tr. unfold toggle_shelly_device.
  apply String.eqb_neq in H1, H2, H3. simpl. rewrite H1, H2, H3. simpl.
  done.
Qed.

End DeviceClientProperties.

(** ** Connectivity probe *)

Section ProbeProperties.

Variable requests_get : string → option Z → Response.

Lemma is_200_spec r : is_200 r = true ↔ r = Status 200%Z.
Proof.
  destruct r as [e | code]; simpl; [done|].
  rewrite Z.eqb_eq. split; [by intros -> | by intros [= ->]].
Qed.

Lemma requests_of_app tr1 tr2 :
  requests_of (tr1 ++ tr2) = requests_of tr1 ++ requests_of tr2.
Proof. apply filter_app. Qed.

Lemma requests_of_gets (urls : list string) t :
  requests_of (map (λ url, HttpGet url t) urls) = map (λ url, HttpGet url t) urls.
Proof. induction urls as [|x l IH]; simpl; [done | by rewrite <- IH at 2]. Qed.

Lemma connected_gets (urls : list string) t tr :
  connected (map (λ url, HttpGet url t) urls ++ tr) = connected tr.
Proof. induction urls as [|x l IH]; simpl; done. Qed.

(** The loop asks the endpoints in order, stops behind the first HTTP 200
    and ends with one dialog. *)
Lemma test_connection_loop_trace ip endpoints :
  let url endpoint := "http://" +:+ ip +:+ endpoint in
  let ok url := is_200 (requests_get url (Some 3%Z)) in
  test_connection_loop requests_get ip endpoints
  = map (λ url, HttpGet url (Some 3%Z)) (upto_first ok (map url endpoints))
    ++ [if existsb ok (map url endpoints)
        then MessageBox Information "Success"
               "Successfully connected to Shelly device!"
        else MessageBox Warning "Error"
               "Failed to connect to the Shelly device"].
Proof.
  intros url ok. induction endpoints as [|endpoint rest IH]; [done|].
  simpl. fold (url endpoint). unfold ok at 1 3.
  destruct (requests_get (url endpoint) (Some 3%Z)) as [e | code]; simpl.
  - by rewrite IH.
  - destruct (code =? 200)%Z; simpl; [done | by rewrite IH].
Qed.

(** C5.  [test_connection] asks [/shelly], [/relay/0] and [/] in this
    order, each with a timeout of 3 seconds, and stops behind the first
    answer with status 200; it reports a connection exactly when one of
    the three, asked in turn, answers 200, and a failure when each of them
    raises (a timeout included) or answers another status. *)
Theorem test_connection_probe config :
  let url endpoint := "http://" +:+ shelly_ip config +:+ endpoint in
  let urls := map url ["/shelly"; "/relay/0"; "/"] in
  let ok url := is_200 (requests_get url (Some 3%Z)) in
  let tr := test_connection requests_get config in
  requests_of tr = map (λ url, HttpGet url (Some 3%Z)) (upto_first ok urls)
  ∧ (connected tr = true ↔
       ∃ url, url ∈ urls ∧ requests_get url (Some 3%Z) = Status 200%Z)
  ∧ (ok (url "/shelly") = true →
       tr = [HttpGet (url "/shelly") (Some 3%Z);
             MessageBox Information "Success"
               "Successfully connected to Shelly device!"])
  ∧ (ok (url "/shelly") = false → ok (url "/relay/0") = true →
       tr = [HttpGet (url "/shelly") (Some 3%Z);
             HttpGet (url "/relay/0") (Some 3%Z);
             MessageBox Information "Success"
               "Successfully connected to Shelly device!"])
  ∧ (ok (url "/shelly") = false → ok (url "/relay/0") = false →
     ok (url "/") = true →
       tr = [HttpGet (url "/shelly") (Some 3%Z);
             HttpGet (url "/relay/0") (Some 3%Z);
             HttpGet (url "/") (Some 3%Z);
             MessageBox Information "Success"
               "Successfully connected to Shelly device!"])
  ∧ (ok (url "/shelly") = false → ok (url "/relay/0") = false →
     ok (url "/") = false →
       connected tr = false ∧
       tr = [HttpGet (url "/shelly") (Some 3%Z);
             HttpGet (url "/relay/0") (Some 3%Z);
             HttpGet (url "/") (Some 3%Z);
             MessageBox Warning "Error"
               "Failed to connect to the Shelly device"]).
Proof.
  intros url urls ok tr.
  assert (Htr : tr = map (λ url, HttpGet url (Some 3%Z)) (upto_first ok urls)
                     ++ [if existsb ok urls
                         then MessageBox Information "Success"
                                "Successfully connected to Shelly device!"
                         else MessageBox Warning "Error"
                                "Failed to connect to the Shelly device"]).
  { apply test_connection_loop_trace. }
  clearbody tr. subst tr.
  assert (Hconn : connected
            (map (λ url, HttpGet url (Some 3%Z)) (upto_first ok urls)
             ++ [if existsb ok urls
                 then MessageBox Information "Success"
                        "Successfully connected to Shelly device!"
                 else MessageBox Warning "Error"
                        "Failed to connect to the Shelly device"])
            = existsb ok urls).
  { rewrite connected_gets. by destruct (existsb ok urls). }
  split; [|split].
  - rewrite requests_of_app, requests_of_gets.
    destruct (existsb ok urls); simpl; by rewrite app_nil_r.
  - rewrite Hconn, existsb_exists. split.
    + intros (x & Hin & Hx). exists x. split; [by apply list_elem_of_In|].
      by apply is_200_spec.
    + intros (x & Hin & Hx). exists x. split; [by apply list_elem_of_In|].
      by apply is_200_spec.
  - rewrite Hconn. subst urls. simpl.
    destruct (ok (url "/shelly")), (ok (url "/relay/0")), (ok (url "/"));
      simpl; repeat split; intros; done.
Qed.

End ProbeProperties.

(** ** Hotkey registry *)

Section RegistryProperties.

Context {KeySeq : Type} (QKeySequence : string → KeySeq).

Local Abbreviation Window := (@ShellyController KeySeq).
Local Abbreviation new_shortcut :=
  (λ hotkey : HotkeyEntry,
     {| sc_key := QKeySequence (hk_shortcut hotkey);
        sc_activated := ToggleDevice (hk_endpoint hotkey) (hk_action hotkey);
        sc_enabled := true |}).
Local Abbreviation disable_all :=
  (foldl (λ (objs : list (@QShortcut KeySeq)) (ref : nat),
            alter (setEnabled false) ref objs)).

(** The first loop of [setup_shortcuts] disables the named objects and
    leaves the others alone. *)
Lemma disable_all_lookup (refs : list nat) (objs : list QShortcut) i :
  disable_all objs refs !! i
  = if decide (i ∈ refs) then setEnabled false <$> objs !! i else objs !! i.
Proof.
  revert objs. induction refs as [|r refs IH]; intros objs; simpl.
  - done.
  - rewrite IH. destruct (decide (i = r)) as [-> | Hne].
    + rewrite list_lookup_alter_eq, (decide_True (P := r ∈ r :: refs))
        by apply list_elem_of_here.
      destruct (decide (r ∈ refs)); [|done].
      by destruct (objs !! r).
    + rewrite list_lookup_alter_ne by done.
      destruct (decide (i ∈ refs)) as [Hin | Hnin].
      * by rewrite decide_True by (by apply list_elem_of_further).
      * rewrite decide_False; [done|].
        by intros [-> | ?]%elem_of_cons.
  Qed.

Lemma disable_all_length (refs : list nat) (objs : list QShortcut) :
  length (disable_all objs refs) = length objs.
Proof.
  revert objs. induction refs as [|r refs IH]; intros objs; simpl; [done|].
  by rewrite IH, length_alter.
Qed.

Lemma filter_none {A} (P : A → Prop) `{!∀ x, Decision (P x)} (l : list A) :
  Forall (λ x, ¬ P x) l → filter P l = [].
Proof.
  induction 1 as [|x l Hx _ IH]; [done|]. by rewrite filter_cons_False.
Qed.

(** Once every enabled object is named, none stays enabled. *)
Lemma disable_all_none_live (refs : list nat) (objs : list QShortcut) :
  (∀ ref s, objs !! ref = Some s → sc_enabled s = true → ref ∈ refs) →
  filter (λ s, sc_enabled s = true) (disable_all objs refs) = [].
Proof.
  intros Hinv. apply filter_none, Forall_lookup. intros i s Hs.
  rewrite disable_all_lookup in Hs.
  destruct (decide (i ∈ refs)) as [Hin | Hnin].
  - destruct (objs !! i); simplify_eq/=. done.
  - intros Hen. by apply Hnin, (Hinv i s).
Qed.

(** The second loop creates one object per hotkey, in order. *)
Lemma create_all (hs : list HotkeyEntry) (refs : list nat)
    (objs : list QShortcut) :
  foldl (λ '(refs, objs) hotkey,
           (refs ++ [length objs], objs ++ [new_shortcut hotkey]))
        (refs, objs) hs
  = (refs ++ seq (length objs) (length hs), objs ++ map new_shortcut hs).
Proof.
  revert refs objs. induction hs as [|h hs IH]; intros refs objs; simpl.
  - by rewrite !app_nil_r.
  - rewrite IH, length_app, Nat.add_1_r. by rewrite <- !app_assoc.
Qed.

Lemma setup_shortcuts_eq (w : Window) :
  let objs := disable_all (child_shortcuts w) (shortcuts w) in
  setup_shortcuts QKeySequence w
  = set_shortcuts (seq (length objs) (length (hotkeys (config w))))
                  (objs ++ map new_shortcut (hotkeys (config w))) w.
Proof. intros objs. unfold setup_shortcuts. by rewrite create_all. Qed.

Lemma live_new_shortcuts (hs : list HotkeyEntry) :
  map (λ s : QShortcut, (sc_key s, sc_activated s))
      (filter (λ s, sc_enabled s = true) (map new_shortcut hs))
  = map (shortcut_binding QKeySequence) hs.
Proof.
  induction hs as [|h hs IH]; [done|]. cbn [map].
  rewrite filter_cons_True by done. cbn [map]. by rewrite IH.
Qed.

(** After [setup_shortcuts] the live key bindings are those of the
    current hotkeys, and every enabled object is named. *)
Lemma setup_shortcuts_live (w : Window) :
  live_shortcuts_referenced w →
  live_shortcuts (setup_shortcuts QKeySequence w)
    = map (shortcut_binding QKeySequence) (hotkeys (config w))
  ∧ live_shortcuts_referenced (setup_shortcuts QKeySequence w)
  ∧ config (setup_shortcuts QKeySequence w) = config w.
Proof.
  intros Hinv. rewrite setup_shortcuts_eq.
  set (objs := disable_all (child_shortcuts w) (shortcuts w)).
  assert (Hnone : filter (λ s, sc_enabled s = true) objs = [])
    by by apply disable_all_none_live.
  split; [|split; [|done]].
  - unfold live_shortcuts, set_shortcuts. cbn [child_shortcuts].
    rewrite filter_app, Hnone, app_nil_l. apply live_new_shortcuts.
  - intros ref s. simpl. intros Hs Hen.
    destruct (decide (ref < length objs)) as [Hlt | Hge].
    + rewrite lookup_app_l in Hs by done.
      assert (s ∈ filter (λ s, sc_enabled s = true) objs) as Hin.
      { apply list_elem_of_filter. split; [done|].
        by apply list_elem_of_lookup_2 in Hs. }
      rewrite Hnone in Hin. by apply not_elem_of_nil in Hin.
    + apply lookup_lt_Some in Hs as Hlen.
      rewrite length_app, length_map in Hlen.
      apply elem_of_seq. lia.
Qed.

(** The registry is in sync: the live key bindings are those of the current
    hotkeys, in order, and no other object is enabled. *)
Local Abbreviation in_sync w :=
  (live_shortcuts_referenced w
   ∧ live_shortcuts w
     = map (shortcut_binding QKeySequence) (hotkeys (config w))).

Lemma in_sync_frame (w w' : Window) :
  hotkeys (config w') = hotkeys (config w) →
  shortcuts w' = shortcuts w →
  child_shortcuts w' = child_shortcuts w →
  in_sync w → in_sync w'.
Proof.
  unfold live_shortcuts_referenced, live_shortcuts.
  by intros -> -> ->.
Qed.

Lemma update_show_action_text_frame (w : Window) :
  config (update_show_action_text w) = config w
  ∧ shortcuts (update_show_action_text w) = shortcuts w
  ∧ child_shortcuts (update_show_action_text w) = child_shortcuts w
  ∧ hotkeys_table (update_show_action_text w) = hotkeys_table w
  ∧ ip_input (update_show_action_text w) = ip_input w.
Proof. unfold update_show_action_text. by destruct (tray_icon w). Qed.

Lemma setup_tray_frame (w : Window) :
  config (setup_tray w) = config w
  ∧ shortcuts (setup_tray w) = shortcuts w
  ∧ child_shortcuts (setup_tray w) = child_shortcuts w
  ∧ hotkeys_table (setup_tray w) = hotkeys_table w
  ∧ ip_input (setup_tray w) = ip_input w.
Proof. done. Qed.

(** The two calls that every change of the hotkeys ends with. *)
Lemma rebuild_in_sync (w : Window) :
  live_shortcuts_referenced w →
  in_sync (setup_tray (setup_shortcuts QKeySequence w))
  ∧ config (setup_tray (setup_shortcuts QKeySequence w)) = config w.
Proof.
  intros Hinv.
  destruct (setup_shortcuts_live w Hinv) as (Hlive & Href & Hcfg).
  split; [|done].
  apply (in_sync_frame (setup_shortcuts QKeySequence w)); try done.
  split; [done|]. by rewrite Hlive, Hcfg.
Qed.

Lemma hotkey_cell_changed_in_sync row column (w : Window) :
  in_sync w → in_sync (hotkey_cell_changed QKeySequence row column w).
Proof.
  intros Hw. unfold hotkey_cell_changed.
  case_bool_decide; [done|].
  destruct (item (hotkeys_table w) row column) as [text|]; [|done].
  apply rebuild_in_sync. by destruct Hw.
Qed.

Lemma handle_in_sync e (w : Window) :
  in_sync w → in_sync (handle QKeySequence e w).
Proof.
  intros Hw.
  destruct e as [t | state | state | indexes | row column text | | | f io p a |];
    unfold handle.
  - by apply (in_sync_frame w).
  - by apply (in_sync_frame w).
  - by apply (in_sync_frame w).
  - by apply (in_sync_frame w).
  - unfold edit_cell.
    destruct (item (hotkeys_table w) row column); [|done].
    apply hotkey_cell_changed_in_sync. by apply (in_sync_frame w).
  - apply rebuild_in_sync. by destruct Hw.
  - unfold remove_hotkey.
    destruct (selectedIndexes (hotkeys_table w)) as [|[row col] rest]; [done|].
    case_bool_decide; [|done].
    apply rebuild_in_sync. by destruct Hw.
  - unfold save_settings.
    destruct (save_config _ f io) as [f' saved].
    by apply (in_sync_frame w).
  - unfold show_hide_window.
    destruct (update_show_action_text_frame (set_visible (negb (visible w)) w))
      as (Hc & Hs & Ho & _).
    apply (in_sync_frame w); [by rewrite Hc | by rewrite Hs | by rewrite Ho | done].
Qed.

(** In every state the window can be in, the live key bindings are exactly
    those of the current hotkeys, in order. *)
Lemma reachable_in_sync (w : Window) :
  reachable QKeySequence w → in_sync w.
Proof.
  induction 1 as [config | w e _ IH]; [|by apply handle_in_sync].
  unfold init.
  match goal with
  | |- context [setup_tray (setup_shortcuts _ ?w1)] =>
      destruct (rebuild_in_sync w1) as [Hsync _];
      [ by intros ref s Hs; cbn in Hs; rewrite lookup_nil in Hs |
        by apply (in_sync_frame (setup_tray (setup_shortcuts QKeySequence w1))) ]
  end.
Qed.

(** C6.  With the hotkey at [row] selected, [remove_hotkey] leaves a list
    that is one shorter, the other entries in their order; after the rebuild
    it ends with, the live key bindings are those of the entries that
    remain, so none is for the key sequence of the removed entry unless an
    entry that remains has that key sequence. *)
Theorem remove_hotkey_selected (w : Window) row column rest removed :
  reachable QKeySequence w →
  selectedIndexes (hotkeys_table w) = (row, column) :: rest →
  hotkeys (config w) !! row = Some removed →
  let hs := hotkeys (config w) in
  let w' := remove_hotkey QKeySequence w in
  let hs' := hotkeys (config w') in
  length hs' = length hs - 1
  ∧ hs' = take row hs ++ drop (S row) hs
  ∧ (∀ j, hs' !! j = if decide (j < row) then hs !! j else hs !! S j)
  ∧ live_shortcuts w' = map (shortcut_binding QKeySequence) hs'
  ∧ ((∀ hotkey, hotkey ∈ hs' →
        QKeySequence (hk_shortcut hotkey) ≠ QKeySequence (hk_shortcut removed)) →
     ∀ binding, binding ∈ live_shortcuts w' →
        binding.1 ≠ QKeySequence (hk_shortcut removed)).
Proof.
  intros Hreach Hsel Hrow hs w' hs'.
  apply reachable_in_sync in Hreach as [Href _].
  assert (Hlt : row < length hs) by by eapply lookup_lt_Some.
  set (w1 := update_hotkeys_table (set_hotkeys (delete row hs) w)).
  assert (Hw' : w' = setup_tray (setup_shortcuts QKeySequence w1)).
  { subst w'. unfold remove_hotkey. rewrite Hsel.
    by rewrite bool_decide_eq_true_2. }
  destruct (rebuild_in_sync w1) as [[_ Hlive] Hcfg]; [done|].
  rewrite <- Hw' in Hlive, Hcfg.
  assert (Hhs' : hs' = delete row hs) by (subst hs'; by rewrite Hcfg).
  fold hs' in Hlive. clearbody hs' w'.
  split; [|split; [|split; [|split]]].
  - rewrite Hhs', length_delete; [done | by eexists].
  - by rewrite Hhs', delete_take_drop.
  - intros j. rewrite Hhs'. case_decide.
    + by apply list_lookup_delete_lt.
    + apply list_lookup_delete_ge. lia.
  - done.
  - intros Hother binding. rewrite Hlive.
    intros Hin%list_elem_of_In. apply in_map_iff in Hin as (hotkey & <- & Hin).
    apply Hother. by apply list_elem_of_In.
Qed.

(** C10.  Without a selected cell, [remove_hotkey] returns at once: the
    window, and with it the hotkeys, the live key bindings and the tray
    menus, is as before. *)
Theorem remove_hotkey_no_selection (w : Window) :
  selectedIndexes (hotkeys_table w) = [] →
  let w' := remove_hotkey QKeySequence w in
  w' = w
  ∧ hotkeys (config w') = hotkeys (config w)
  ∧ live_shortcuts w' = live_shortcuts w
  ∧ live_tray_actions w' = live_tray_actions w
  ∧ child_tray_icons w' = child_tray_icons w.
Proof.
  intros Hsel w'. subst w'. unfold remove_hotkey. by rewrite Hsel.
Qed.

(** A rebuild adds a tray icon with the menu of the current hotkeys and
    leaves the icons of earlier rebuilds, and their menus, as they are. *)
Lemma setup_tray_keeps_menus (w : Window) :
  live_tray_actions (setup_tray w)
  = live_tray_actions w ++ map tray_binding (hotkeys (config w)).
Proof.
  unfold live_tray_actions, setup_tray, update_show_action_text, set_tray.
  cbn [tray_icon child_tray_icons visible config].
  set (icons := child_tray_icons w).
  rewrite alter_app_r_alt by done. rewrite Nat.sub_diag. cbn [alter list_alter].
  rewrite filter_app, filter_cons_True, filter_nil by done.
  rewrite flat_map_app, filter_app. f_equal.
  cbn [flat_map contextMenu app alter list_alter]. rewrite app_nil_r.
  rewrite filter_cons_False by (by destruct (visible w)).
  rewrite filter_cons_False by done.
  rewrite filter_app.
  rewrite (filter_cons_False _ separator) by done.
  rewrite filter_cons_False, filter_nil, app_nil_r by done.
  induction (hotkeys (config w)) as [|h hs IH]; [done|].
  cbn [map]. rewrite filter_cons_True by done. by rewrite IH.
Qed.

(** The key bindings are rebuilt as the registry promises: in every state the
    window can be in, so after every rebuild, the live key bindings are those
    of the current hotkeys, and the objects of earlier rebuilds are
    disabled. *)
Lemma rebuild_replaces_shortcuts (w : Window) :
  reachable QKeySequence w →
  live_shortcuts w = map (shortcut_binding QKeySequence) (hotkeys (config w)).
Proof. by intros [_ ?]%reachable_in_sync. Qed.

(** C1.  The tray menus are not rebuilt that way.  At the default
    configuration with its one hotkey removed, no hotkey and no key binding
    is left, yet the menu entry of the removed hotkey is still live, in the
    menu of the icon that [__init__] made: the live tray bindings are not
    those of the current hotkeys. *)
Theorem stale_tray_binding_after_rebuild :
  let hotkey := {| hk_name := "Toggle Light"; hk_shortcut := "Ctrl+Alt+L";
                   hk_endpoint := "relay/0"; hk_action := "toggle" |} in
  let w := run QKeySequence default_config [SelectCells [(0, 0)]; ClickRemove] in
  hotkeys (config w) = []
  ∧ live_shortcuts w = []
  ∧ live_tray_actions w = [tray_binding hotkey]
  ∧ live_tray_actions w ≠ map tray_binding (hotkeys (config w)).
Proof. vm_compute. repeat split; done. Qed.

Lemma rebuild_frame (w : Window) :
  config (setup_tray (setup_shortcuts QKeySequence w)) = config w
  ∧ ip_input (setup_tray (setup_shortcuts QKeySequence w)) = ip_input w.
Proof. by rewrite setup_shortcuts_eq. Qed.

Lemma init_fields (c : Configuration) :
  config (init QKeySequence c) = c ∧ ip_input (init QKeySequence c) = shelly_ip c.
Proof. unfold init. rewrite setup_shortcuts_eq. by destruct c. Qed.

(** C8, as amended.  In every state the window can be in, the address in the
    configuration is the text of the IP field, whatever it is: [__init__]
    takes it from the loaded configuration, typing replaces it, and no
    default stands in for an empty text.  The default configuration has
    the address 192.168.1.100. *)
Theorem device_address_is_ip_field (w : Window) :
  reachable QKeySequence w →
  shelly_ip (config w) = ip_input w
  ∧ (∀ t, shelly_ip (config (handle QKeySequence (TypeIp t) w)) = t)
  ∧ (∀ c, shelly_ip (config (init QKeySequence c)) = shelly_ip c)
  ∧ shelly_ip default_config = "192.168.1.100".
Proof.
  intros Hreach.
  split; [|split; [done | split; [|done]]];
    [|by intros c; destruct (init_fields c) as [-> _]].
  induction Hreach as [c | w e _ IH];
    [by destruct (init_fields c) as [-> ->]|].
  destruct e as [t | state | state | indexes | row column text | | | f io p a |];
    unfold handle; try done.
  - unfold edit_cell.
    destruct (item (hotkeys_table w) row column); [|done].
    unfold hotkey_cell_changed. case_bool_decide; [done|].
    destruct (item _ row column); [|done].
    match goal with
    | |- context [setup_tray (setup_shortcuts _ ?w1)] =>
        by destruct (rebuild_frame w1) as [-> ->]
    end.
  - unfold add_hotkey.
    match goal with
    | |- context [setup_tray (setup_shortcuts _ ?w1)] =>
        by destruct (rebuild_frame w1) as [-> ->]
    end.
  - unfold remove_hotkey.
    destruct (selectedIndexes (hotkeys_table w)) as [|[row col] rest]; [done|].
    case_bool_decide; [|done].
    match goal with
    | |- context [setup_tray (setup_shortcuts _ ?w1)] =>
        by destruct (rebuild_frame w1) as [-> ->]
    end.
  - unfold save_settings. by destruct (save_config _ f io).
  - unfold show_hide_window.
    destruct (update_show_action_text_frame (set_visible (negb (visible w)) w))
      as (-> & _ & _ & _ & ->). done.
Qed.

(** C9.  When the write of [save_config] raises, [save_settings] shows the
    warning with the error, leaves the window, and with it the
    configuration, as a successful save does, and goes on: the autostart
    step runs, the closing dialog is shown and the window is in a state
    from which every later action is handled. *)
Theorem save_failure_is_reported (w : Window) f io p a :
  io ≠ Written →
  let cfg := {| shelly_ip := ip_input w;
                autostart := autostart_checkbox w;
                minimize_to_tray := minimize_to_tray_checkbox w;
                hotkeys := hotkeys (config w) |} in
  let r := save_settings f io p a w in
  (∃ e, (save_config (json_of_config cfg) f io).2
          = [MessageBox Warning "Error" ("Failed to save configuration: " +:+ e)]
        ∧ r.2 = MessageBox Warning "Error" ("Failed to save configuration: " +:+ e)
                  :: configure_autostart p a
                  ++ [MessageBox Information "Success" "Settings saved!"])
  ∧ r.1.1 = (save_settings f Written p a w).1.1
  ∧ config r.1.1 = cfg
  ∧ r.1.1 = handle QKeySequence (ClickSave f io p a) w
  ∧ (reachable QKeySequence w → reachable QKeySequence r.1.1).
Proof.
  intros Hio cfg r. subst r cfg.
  assert (Hh : (save_settings f io p a w).1.1
               = handle QKeySequence (ClickSave f io p a) w) by done.
  split; [destruct io as [| e | n e]; [done | by exists e | by exists e]|].
  split; [by destruct io|]. split; [by destruct io|]. split; [done|].
  intros Hreach. rewrite Hh. by constructor.
Qed.

End RegistryProperties.

(** ** The window while the application runs *)

Section WindowEventProperties.
Context {KeySeq : Type} (QKeySequence : string → KeySeq).
Local Abbreviation Window := (@ShellyController KeySeq).

Local Abbreviation table_in_sync w :=
  (rows (hotkeys_table w) = map row_of (hotkeys (config w))).

Lemma row_of_set_field column text h :
  column < 4 → row_of (set_field column text h) = <[column := text]> (row_of h).
Proof.
  intros Hc. destruct column as [|[|[|[|n]]]]; try done.
Qed.

Lemma rows_alter column text row (hs : list HotkeyEntry) :
  column < 4 →
  alter (λ r, <[column := text]> r) row (map row_of hs)
  = map row_of (alter (set_field column text) row hs).
Proof.
  intros Hc. revert row. induction hs as [|h hs IH]; intros [|row]; try done.
  - cbn. by rewrite row_of_set_field.
  - cbn. f_equal. apply IH.
Qed.

Lemma lookup_map_list {A B} (f : A → B) (l : list A) i :
  map f l !! i = f <$> l !! i.
Proof. revert i. induction l as [|x l IH]; intros [|i]; try done. apply IH. Qed.

Lemma item_row_of (hs : list HotkeyEntry) row column text :
  item {| rows := map row_of hs; selectedIndexes := [] |} row column = Some text →
  row < length hs ∧ column < 4.
Proof.
  unfold item. cbn. rewrite lookup_map_list.
  destruct (hs !! row) as [h|] eqn:Hh; [|done]. cbn.
  intros Hc. split; [by eapply lookup_lt_Some|].
  apply lookup_lt_Some in Hc. done.
Qed.


Local Abbreviation new_shortcut :=
  (λ hotkey : HotkeyEntry,
     {| sc_key := QKeySequence (hk_shortcut hotkey);
        sc_activated := ToggleDevice (hk_endpoint hotkey) (hk_action hotkey);
        sc_enabled := true |}).

(** The shortcut objects are laid out for the hotkeys [hs]: the objects
    that [self.shortcuts] names are the last ones created, one per hotkey
    in order, and every older object is disabled. *)
Local Abbreviation laid_out hs w :=
  (∃ old : list (@QShortcut KeySeq),
     child_shortcuts w = old ++ map new_shortcut hs
     ∧ shortcuts w = seq (length old) (length hs)
     ∧ Forall (λ s, sc_enabled s = false) old).

Local Abbreviation tray_shows text w :=
  (current_tray_icon w
   = Some {| contextMenu := tray_menu text (hotkeys (config w));
             tray_visible := true |}).

Local Abbreviation window_ok w :=
  (table_in_sync w ∧ laid_out (hotkeys (config w)) w
   ∧ ∃ shown : bool, tray_shows (if shown then "Hide" else "Show") w).

Lemma setup_shortcuts_laid_out hs (w : Window) :
  laid_out hs w → laid_out (hotkeys (config w)) (setup_shortcuts QKeySequence w).
Proof.
  intros (old & Hobjs & Hrefs & Hold). rewrite setup_shortcuts_eq.
  eexists. cbn [child_shortcuts shortcuts set_shortcuts config].
  split; [done|]. split; [done|].
  apply Forall_lookup. intros i s. rewrite disable_all_lookup, Hrefs, Hobjs.
  destruct (decide (i ∈ seq (length old) (length hs))) as [Hin | Hnin].
  - destruct ((old ++ map new_shortcut hs) !! i); [|done]. by intros [= <-].
  - intros Hs. apply lookup_lt_Some in Hs as Hlt.
    rewrite length_app, length_map in Hlt.
    rewrite lookup_app_l in Hs
      by (destruct (decide (i < length old)); [done|];
          exfalso; apply Hnin, elem_of_seq; lia).
    by apply (Forall_lookup_1 _ _ _ _ Hold Hs).
Qed.

Lemma setup_tray_shows (w : Window) :
  tray_shows (if visible w then "Hide" else "Show") (setup_tray w)
  ∧ tray_icon (setup_tray w) = Some (length (child_tray_icons w))
  ∧ length (child_tray_icons (setup_tray w)) = S (length (child_tray_icons w)).
Proof.
  unfold setup_tray, update_show_action_text, current_tray_icon.
  cbn [tray_icon set_tray child_tray_icons config visible mbind option_bind].
  rewrite length_alter, length_app, Nat.add_1_r. split; [|done].
  rewrite list_lookup_alter_eq, lookup_app_r, Nat.sub_diag by done.
  done.
Qed.

Lemma update_show_action_text_shows text (w : Window) :
  tray_shows text w →
  tray_shows (if visible w then "Hide" else "Show") (update_show_action_text w).
Proof.
  unfold current_tray_icon, update_show_action_text.
  destruct (tray_icon w) as [ref|]; [|done]. cbn.
  rewrite list_lookup_alter_eq. by intros ->.
Qed.


Lemma rebuild_keeps (w : Window) :
  let w' := setup_tray (setup_shortcuts QKeySequence w) in
  config w' = config w ∧ hotkeys_table w' = hotkeys_table w
  ∧ visible w' = visible w ∧ ip_input w' = ip_input w
  ∧ autostart_checkbox w' = autostart_checkbox w
  ∧ minimize_to_tray_checkbox w' = minimize_to_tray_checkbox w.
Proof. cbn zeta. by rewrite setup_shortcuts_eq. Qed.

Lemma update_show_action_text_keeps (w : Window) :
  let w' := update_show_action_text w in
  config w' = config w ∧ hotkeys_table w' = hotkeys_table w
  ∧ visible w' = visible w ∧ ip_input w' = ip_input w
  ∧ autostart_checkbox w' = autostart_checkbox w
  ∧ minimize_to_tray_checkbox w' = minimize_to_tray_checkbox w
  ∧ shortcuts w' = shortcuts w ∧ child_shortcuts w' = child_shortcuts w
  ∧ tray_icon w' = tray_icon w
  ∧ length (child_tray_icons w') = length (child_tray_icons w).
Proof.
  cbn zeta. unfold update_show_action_text.
  destruct (tray_icon w) as [ref|] eqn:Href; [|done]. cbn.
  by rewrite length_alter.
Qed.

Lemma window_ok_frame (w w' : Window) :
  hotkeys (config w') = hotkeys (config w) →
  rows (hotkeys_table w') = rows (hotkeys_table w) →
  shortcuts w' = shortcuts w →
  child_shortcuts w' = child_shortcuts w →
  tray_icon w' = tray_icon w →
  child_tray_icons w' = child_tray_icons w →
  window_ok w → window_ok w'.
Proof.
  unfold current_tray_icon. by intros -> -> -> -> -> ->.
Qed.

Lemma rebuild_ok hs (w : Window) :
  table_in_sync w → laid_out hs w →
  window_ok (setup_tray (setup_shortcuts QKeySequence w)).
Proof.
  intros Htable Hlaid.
  destruct (rebuild_keeps w) as (Hc & Ht & _).
  split; [by rewrite Hc, Ht|]. split.
  - rewrite Hc. destruct (setup_shortcuts_laid_out hs w Hlaid) as (old & ? & ? & ?).
    by exists old.
  - exists (visible (setup_shortcuts QKeySequence w)). apply setup_tray_shows.
Qed.

Lemma retext_ok (w : Window) :
  window_ok w → window_ok (update_show_action_text w).
Proof.
  intros (Htable & Hlaid & shown & Htray).
  destruct (update_show_action_text_keeps w)
    as (Hc & Ht & _ & _ & _ & _ & Hs & Ho & _).
  split; [by rewrite Hc, Ht|]. split; [by rewrite Hc, Hs, Ho|].
  exists (visible w). by eapply update_show_action_text_shows.
Qed.

Lemma show_hide_window_ok (w : Window) :
  window_ok w → window_ok (show_hide_window w).
Proof.
  intros Hw. apply retext_ok. by apply (window_ok_frame w).
Qed.

Lemma item_in_sync (w : Window) row column text :
  table_in_sync w → item (hotkeys_table w) row column = Some text →
  row < length (hotkeys (config w)) ∧ column < 4.
Proof.
  intros Htable. unfold item. rewrite Htable, lookup_map_list.
  destruct (hotkeys (config w) !! row) as [h|] eqn:Hh; [|done]. cbn.
  intros Hc. split; [by eapply lookup_lt_Some|].
  by apply lookup_lt_Some in Hc.
Qed.

Lemma edit_cell_eq (w : Window) row column old text :
  table_in_sync w → item (hotkeys_table w) row column = Some old →
  edit_cell QKeySequence row column text w
  = setup_tray (setup_shortcuts QKeySequence
      (set_hotkeys (alter (set_field column text) row (hotkeys (config w)))
         (set_hotkeys_table
            {| rows := map row_of
                         (alter (set_field column text) row (hotkeys (config w)));
               selectedIndexes := selectedIndexes (hotkeys_table w) |} w))).
Proof.
  intros Htable Hitem.
  destruct (item_in_sync w row column old Htable Hitem) as [Hrow Hcol].
  unfold edit_cell. rewrite Hitem. unfold hotkey_cell_changed.
  cbn [config set_hotkeys_table hotkeys_table].
  rewrite bool_decide_eq_false_2 by lia.
  rewrite Htable, rows_alter by done.
  assert (item {| rows := map row_of
                     (alter (set_field column text) row (hotkeys (config w)));
                  selectedIndexes := selectedIndexes (hotkeys_table w) |}
               row column = Some text) as ->; [|done].
  unfold item. cbn [rows]. rewrite lookup_map_list, list_lookup_alter_eq.
  destruct (lookup_lt_is_Some_2 _ _ Hrow) as [h ->]. cbn.
  rewrite row_of_set_field by done.
  apply list_lookup_insert_eq. done.
Qed.

Lemma handle_ok e (w : Window) :
  window_ok w → window_ok (handle QKeySequence e w).
Proof.
  intros Hw. pose proof Hw as (Htable & Hlaid & _).
  destruct e as [t | state | state | indexes | row column text | | | f io p a |];
    unfold handle.
  - by apply (window_ok_frame w).
  - by apply (window_ok_frame w).
  - by apply (window_ok_frame w).
  - by apply (window_ok_frame w).
  - destruct (item (hotkeys_table w) row column) as [old|] eqn:Hitem;
      [|by unfold edit_cell; rewrite Hitem].
    rewrite (edit_cell_eq w row column old) by done.
    by apply (rebuild_ok (hotkeys (config w))).
  - by apply (rebuild_ok (hotkeys (config w))).
  - unfold remove_hotkey.
    destruct (selectedIndexes (hotkeys_table w)) as [|[row col] rest]; [done|].
    case_bool_decide; [|done].
    by apply (rebuild_ok (hotkeys (config w))).
  - unfold save_settings.
    destruct (save_config _ f io) as [f' saved].
    by apply (window_ok_frame w).
  - by apply show_hide_window_ok.
Qed.

Lemma running_ok (w : Window) : running QKeySequence w → window_ok w.
Proof.
  induction 1 as [c | w e _ IH | w shown _ IH Hquit | w reason _ IH].
  - unfold init.
    match goal with
    | |- context [setup_tray (setup_shortcuts _ ?w1)] =>
        pose proof (rebuild_ok [] w1) as Hok
    end.
    eapply window_ok_frame; [..|apply Hok]; try done.
    by exists [].
  - by apply handle_ok.
  - revert Hquit. unfold closeEvent.
    destruct (minimize_to_tray_checkbox w && _); [|done].
    intros _.
    assert (window_ok (update_show_action_text (set_visible false w))).
    { apply retext_ok. by apply (window_ok_frame w). }
    by destruct (negb shown).
  - destruct reason; try done. by apply show_hide_window_ok.
Qed.


Lemma laid_out_live hs (w : Window) :
  laid_out hs w → live_shortcuts w = map (shortcut_binding QKeySequence) hs.
Proof.
  intros (old & Hobjs & _ & Hold). unfold live_shortcuts.
  rewrite Hobjs, filter_app, filter_none, app_nil_l.
  - apply live_new_shortcuts.
  - eapply Forall_impl; [apply Hold|]. intros s Hs. by rewrite Hs.
Qed.

(** X1.  While the application runs, the hotkey table shows the
    configuration: row [i] holds the name, shortcut, endpoint and action of
    hotkey [i], also after cells were edited and hotkeys added or
    removed. *)
Theorem hotkeys_table_shows_config (w : Window) :
  running QKeySequence w →
  rows (hotkeys_table w) = map row_of (hotkeys (config w)).
Proof. intros Hrun. by destruct (running_ok w Hrun) as (Htable & _). Qed.

(** X2.  While the application runs, the tray icon that the window names
    is shown, and its menu is the one [setup_tray] builds for the current
    hotkeys: the show action reading Show or Hide, a separator, one entry
    per hotkey in order, a separator and Quit. *)
Theorem tray_menu_shows_config (w : Window) :
  running QKeySequence w →
  ∃ shown : bool,
    current_tray_icon w
    = Some {| contextMenu :=
                tray_menu (if shown then "Hide" else "Show")
                          (hotkeys (config w));
              tray_visible := true |}.
Proof. intros Hrun. by destruct (running_ok w Hrun) as (_ & _ & Htray). Qed.

(** X3.  While the application runs, hotkey [i] has its shortcut object
    at [self.shortcuts[i]]: it is for the key sequence of the hotkey, and
    when it is activated [toggle_shelly_device] runs with the endpoint and
    the action of the hotkey, on the configuration as it is then.  A
    shortcut object that [self.shortcuts] does not name does nothing when
    activated. *)
Theorem shortcut_activation requests_get (w : Window) :
  running QKeySequence w →
  (∀ i hotkey, hotkeys (config w) !! i = Some hotkey →
     ∃ ref shortcut,
       shortcuts w !! i = Some ref
       ∧ child_shortcuts w !! ref = Some shortcut
       ∧ sc_key shortcut = QKeySequence (hk_shortcut hotkey)
       ∧ shortcut_activated requests_get w ref
         = toggle_shelly_device requests_get (config w)
             (hk_endpoint hotkey) (hk_action hotkey))
  ∧ (∀ ref, ref ∉ shortcuts w → shortcut_activated requests_get w ref = []).
Proof.
  intros Hrun. destruct (running_ok w Hrun) as (_ & (old & Hobjs & Hrefs & Hold) & _).
  split.
  - intros i hotkey Hi. apply lookup_lt_Some in Hi as Hlt.
    exists (length old + i), (new_shortcut hotkey).
    assert (child_shortcuts w !! (length old + i) = Some (new_shortcut hotkey))
      as Hobj.
    { rewrite Hobjs, lookup_app_r by lia.
      replace (length old + i - length old) with i by lia.
      by rewrite lookup_map_list, Hi. }
    split; [by rewrite Hrefs; apply lookup_seq_lt|].
    split; [done|]. split; [done|].
    unfold shortcut_activated. by rewrite Hobj.
  - intros ref Hnin. unfold shortcut_activated.
    destruct (child_shortcuts w !! ref) as [s|] eqn:Hs; [|done].
    destruct (sc_enabled s) eqn:Hen; [|done]. exfalso. apply Hnin.
    rewrite Hrefs. apply elem_of_seq. rewrite Hobjs in Hs.
    apply lookup_lt_Some in Hs as Hlt. rewrite length_app, length_map in Hlt.
    destruct (decide (ref < length old)) as [Hold'|]; [|lia].
    rewrite lookup_app_l in Hs by done.
    pose proof (Forall_lookup_1 _ _ _ _ Hold Hs) as Hoff. cbn in Hoff. congruence.
Qed.

Lemma add_hotkey_config (w : Window) :
  config (add_hotkey QKeySequence w)
  = config (set_hotkeys (hotkeys (config w) ++ [new_hotkey]) w)
  ∧ hotkeys_table (add_hotkey QKeySequence w)
    = {| rows := map row_of (hotkeys (config w) ++ [new_hotkey]);
         selectedIndexes := [] |}.
Proof.
  unfold add_hotkey.
  match goal with
  | |- context [setup_tray (setup_shortcuts _ ?w1)] =>
      by destruct (rebuild_keeps w1) as (-> & -> & _)
  end.
Qed.

Lemma add_hotkey_enabled (w : Window) :
  running QKeySequence w →
  live_shortcuts (add_hotkey QKeySequence w)
  = live_shortcuts w ++ [shortcut_binding QKeySequence new_hotkey].
Proof.
  intros Hrun.
  destruct (running_ok w Hrun) as (_ & Hlaid & _).
  pose proof (running_ok _ (running_handle QKeySequence w ClickAdd Hrun))
    as (_ & Hlaid' & _).
  change (handle QKeySequence ClickAdd w) with (add_hotkey QKeySequence w)
    in Hlaid'.
  rewrite (laid_out_live _ _ Hlaid'), (laid_out_live _ w Hlaid).
  destruct (add_hotkey_config w) as [-> _]. cbn [config set_hotkeys set_config hotkeys].
  by rewrite map_app.
Qed.

(** X4.  [add_hotkey] appends the entry New Hotkey (Ctrl+Alt+N, relay/0,
    toggle) to the hotkeys: the entries before keep their places; the
    enabled shortcut objects are afterwards those of before, in order, and
    one for the new entry; the table gets one more row and loses its
    selection; the rest of the configuration is untouched.  It does not look
    for an entry with the same key sequence: after a second call two enabled
    shortcut objects are for Ctrl+Alt+N.  (This is about the objects; which
    of several enabled objects with one key sequence Qt activates on a key
    press is not part of it.) *)
Theorem add_hotkey_appends (w : Window) :
  running QKeySequence w →
  let w' := add_hotkey QKeySequence w in
  let w'' := add_hotkey QKeySequence w' in
  hotkeys (config w') = hotkeys (config w) ++ [new_hotkey]
  ∧ live_shortcuts w'
    = live_shortcuts w ++ [shortcut_binding QKeySequence new_hotkey]
  ∧ rows (hotkeys_table w') = rows (hotkeys_table w) ++ [row_of new_hotkey]
  ∧ selectedIndexes (hotkeys_table w') = []
  ∧ shelly_ip (config w') = shelly_ip (config w)
  ∧ autostart (config w') = autostart (config w)
  ∧ minimize_to_tray (config w') = minimize_to_tray (config w)
  ∧ live_shortcuts w''
    = live_shortcuts w ++ [(QKeySequence "Ctrl+Alt+N", ToggleDevice "relay/0" "toggle");
                           (QKeySequence "Ctrl+Alt+N", ToggleDevice "relay/0" "toggle")].
Proof.
  intros Hrun w' w''.
  destruct (running_ok w Hrun) as (Htable & _).
  destruct (add_hotkey_config w) as [Hc Ht]. fold w' in Hc, Ht.
  rewrite Hc, Ht. cbn [config set_hotkeys set_config hotkeys shelly_ip autostart
                         minimize_to_tray rows selectedIndexes].
  split; [done|]. split; [by apply add_hotkey_enabled|].
  split; [by rewrite map_app, Htable|]. do 4 (split; [done|]).
  subst w''. rewrite add_hotkey_enabled
    by (by apply (running_handle QKeySequence w ClickAdd)).
  fold w'. subst w'. rewrite add_hotkey_enabled by done.
  by rewrite <- app_assoc.
Qed.

(** X5.  Editing the cell at ([row], [column]) of the table sets exactly
    the field of that column in hotkey [row]: the other fields of the entry,
    the other entries and the number of entries stay, and so does the
    selection of the table. *)
Theorem edit_cell_sets_field (w : Window) row column text hotkey :
  running QKeySequence w →
  hotkeys (config w) !! row = Some hotkey →
  column < 4 →
  let w' := edit_cell QKeySequence row column text w in
  hotkeys (config w') !! row = Some (set_field column text hotkey)
  ∧ row_of (set_field column text hotkey) !! column = Some text
  ∧ (∀ i, i ≠ column →
       row_of (set_field column text hotkey) !! i = row_of hotkey !! i)
  ∧ (∀ i, i ≠ row → hotkeys (config w') !! i = hotkeys (config w) !! i)
  ∧ length (hotkeys (config w')) = length (hotkeys (config w))
  ∧ selectedIndexes (hotkeys_table w') = selectedIndexes (hotkeys_table w).
Proof.
  intros Hrun Hrow Hcol w'.
  destruct (running_ok w Hrun) as (Htable & _).
  assert (∃ old, item (hotkeys_table w) row column = Some old) as [old Hitem].
  { unfold item. rewrite Htable, lookup_map_list, Hrow. cbn.
    apply lookup_lt_is_Some_2. done. }
  subst w'. rewrite (edit_cell_eq w row column old) by done.
  match goal with
  | |- context [setup_tray (setup_shortcuts _ ?w1)] =>
      destruct (rebuild_keeps w1) as (-> & -> & _)
  end.
  cbn [config set_hotkeys set_config hotkeys hotkeys_table set_hotkeys_table
       selectedIndexes].
  rewrite list_lookup_alter_eq, Hrow, length_alter, row_of_set_field by done.
  split; [done|]. split; [by apply list_lookup_insert_eq|].
  split; [by intros i Hi; apply list_lookup_insert_ne|].
  split; [|done]. intros i Hi. by apply list_lookup_alter_ne.
Qed.

(** X6.  [remove_hotkey] a second time removes nothing more: the rebuild
    of the table after a removal has dropped the selection. *)
Theorem remove_hotkey_idempotent (w : Window) :
  remove_hotkey QKeySequence (remove_hotkey QKeySequence w)
  = remove_hotkey QKeySequence w.
Proof.
  destruct (selectedIndexes (hotkeys_table w)) as [|[row col] rest] eqn:Hsel;
    [|destruct (decide (row < length (hotkeys (config w)))) as [Hrow | Hrow]].
  - assert (remove_hotkey QKeySequence w = w) as Hsame
      by (by unfold remove_hotkey; rewrite Hsel).
    by rewrite !Hsame.
  - assert (remove_hotkey QKeySequence w
            = setup_tray (setup_shortcuts QKeySequence
                (update_hotkeys_table
                   (set_hotkeys (delete row (hotkeys (config w))) w)))) as ->
      by (by unfold remove_hotkey; rewrite Hsel, bool_decide_eq_true_2).
    match goal with
    | |- remove_hotkey _ (setup_tray (setup_shortcuts _ ?w1)) = _ =>
        pose proof (rebuild_keeps w1) as (_ & Htable & _);
        set (w' := setup_tray (setup_shortcuts QKeySequence w1)) in *
    end.
    unfold remove_hotkey. by rewrite Htable.
  - assert (remove_hotkey QKeySequence w = w) as Hsame
      by (by unfold remove_hotkey; rewrite Hsel, bool_decide_eq_false_2).
    by rewrite !Hsame.
Qed.


Lemma tray_shows_text text (w : Window) :
  tray_shows text w → show_action_text w = Some text.
Proof. unfold show_action_text. by intros ->. Qed.

Lemma hidden_or_shown_text (w : Window) :
  window_ok w →
  show_action_text (update_show_action_text w)
  = Some (if visible w then "Hide" else "Show").
Proof.
  intros (_ & _ & shown & Htray).
  by apply tray_shows_text, (update_show_action_text_shows _ w Htray).
Qed.

Lemma show_hide_window_shows (w : Window) :
  window_ok w →
  let w' := show_hide_window w in
  visible w' = negb (visible w)
  ∧ show_action_text w' = Some (if visible w' then "Hide" else "Show")
  ∧ config w' = config w
  ∧ hotkeys_table w' = hotkeys_table w.
Proof.
  intros Hok w'. subst w'. unfold show_hide_window.
  destruct (update_show_action_text_keeps (set_visible (negb (visible w)) w))
    as (-> & -> & -> & _).
  split; [done|]. split; [|done].
  by apply hidden_or_shown_text, (window_ok_frame w).
Qed.

(** X7.  [show_hide_window] flips the visibility of the window, and
    afterwards the show action of the tray menu reads Hide when the window
    is visible and Show when it is not; the configuration and the table
    stay. *)
Theorem show_hide_window_text (w : Window) :
  running QKeySequence w →
  let w' := show_hide_window w in
  visible w' = negb (visible w)
  ∧ show_action_text w' = Some (if visible w' then "Hide" else "Show")
  ∧ config w' = config w
  ∧ hotkeys_table w' = hotkeys_table w.
Proof. intros Hrun. by apply show_hide_window_shows, running_ok. Qed.

(** X8.  After start-up the window is visible and the show action of the
    tray menu reads Show: [setup_tray] set the text in [__init__], before
    [main] showed the window.  The first use of the action hides the
    window, and the text still reads Show. *)
Theorem show_action_text_at_start (c : Configuration) :
  let w := init QKeySequence c in
  visible w = true
  ∧ show_action_text w = Some "Show"
  ∧ visible (show_hide_window w) = false
  ∧ show_action_text (show_hide_window w) = Some "Show".
Proof.
  intros w.
  assert (Hvisible : visible w = true) by done.
  assert (Htext : show_action_text w = Some "Show").
  { subst w. unfold init.
    match goal with
    | |- context [setup_tray ?w1] =>
        pose proof (setup_tray_shows w1) as (Htray & _);
        apply tray_shows_text in Htray;
        replace (visible w1) with false in Htray
          by (by rewrite setup_shortcuts_eq)
    end.
    exact Htray. }
  destruct (show_hide_window_shows w
              (running_ok w (running_init QKeySequence c))) as (Hv & Ht & _).
  rewrite Hvisible in Hv. change (negb true) with false in Hv.
  rewrite Hv in Ht. done.
Qed.

(** X9.  With the tray box checked, closing the window keeps the
    application: the event is ignored, nothing quits, the window is hidden
    and the show action reads Show; the configuration stays.  The
    notification is shown only if [tray_notification_shown] was not set;
    it is set afterwards, so that the next close shows none. *)
Theorem closeEvent_minimizes (w : Window) (tray_notification_shown : bool) :
  running QKeySequence w →
  minimize_to_tray_checkbox w = true →
  let closed := closeEvent tray_notification_shown w in
  closed_accepted closed = false
  ∧ closed_quit closed = false
  ∧ visible (closed_window closed) = false
  ∧ show_action_text (closed_window closed) = Some "Show"
  ∧ config (closed_window closed) = config w
  ∧ closed_settings closed = true
  ∧ closed_trace closed
    = (if tray_notification_shown then []
       else [TrayMessage "Shelly Controller"
               "Application is still running in the system tray."
               Information 3000%Z])
  ∧ closed_trace (closeEvent (closed_settings closed) (closed_window closed))
    = [].
Proof.
  intros Hrun Hbox closed.
  pose proof (running_ok w Hrun) as Hok.
  pose proof Hok as (_ & _ & shown & Htray).
  set (w' := update_show_action_text (set_visible false w)).
  destruct (update_show_action_text_keeps (set_visible false w))
    as (Hc & _ & Hv & _ & _ & Hb & _).
  fold w' in Hc, Hv, Hb.
  assert (Hok' : window_ok w').
  { apply retext_ok. by apply (window_ok_frame w). }
  assert (Hclosed : closed
            = {| closed_window := w'; closed_settings := true;
                 closed_trace :=
                   if tray_notification_shown then []
                   else [TrayMessage "Shelly Controller"
                           "Application is still running in the system tray."
                           Information 3000%Z];
                 closed_accepted := false; closed_quit := false |}).
  { subst closed. unfold closeEvent. rewrite Hbox, Htray.
    by destruct tray_notification_shown. }
  rewrite Hclosed. cbn [closed_window closed_settings closed_trace
                          closed_accepted closed_quit].
  split; [done|]. split; [done|]. split; [by rewrite Hv|].
  split; [by apply (hidden_or_shown_text (set_visible false w)),
             (window_ok_frame w)|].
  split; [by rewrite Hc|]. split; [done|]. split; [done|].
  destruct Hok' as (_ & _ & shown' & Htray').
  unfold closeEvent. rewrite Hb, Htray'. cbn.
  by rewrite Hbox.
Qed.

(** X10.  With the tray box unchecked, closing the window quits: the event
    is accepted, [QApplication.quit] is called, the tray icon that the
    window names is hidden, and no notification is shown. *)
Theorem closeEvent_quits (w : Window) (tray_notification_shown : bool) :
  running QKeySequence w →
  minimize_to_tray_checkbox w = false →
  let closed := closeEvent tray_notification_shown w in
  closed_accepted closed = true
  ∧ closed_quit closed = true
  ∧ closed_trace closed = []
  ∧ closed_settings closed = tray_notification_shown
  ∧ tray_visible <$> current_tray_icon (closed_window closed) = Some false
  ∧ config (closed_window closed) = config w.
Proof.
  intros Hrun Hbox closed.
  destruct (running_ok w Hrun) as (_ & _ & shown & Htray).
  subst closed. unfold closeEvent. rewrite Hbox. cbn.
  do 4 (split; [done|]).
  revert Htray. unfold current_tray_icon, hide_tray_icon.
  destruct (tray_icon w) as [ref|]; [|done]. cbn.
  rewrite list_lookup_alter_eq. by intros ->.
Qed.

(** X11.  After a close that left the application in the tray, a click on
    the tray icon (reason [Trigger]) shows the window again, and the show
    action reads Hide; the configuration is the one before the close.  Any
    other activation reason changes nothing. *)
Theorem tray_icon_activated_restores (w : Window) (tray_notification_shown : bool) :
  running QKeySequence w →
  minimize_to_tray_checkbox w = true →
  let hidden := closed_window (closeEvent tray_notification_shown w) in
  visible (tray_icon_activated Trigger hidden) = true
  ∧ show_action_text (tray_icon_activated Trigger hidden) = Some "Hide"
  ∧ config (tray_icon_activated Trigger hidden) = config w
  ∧ (∀ reason, reason ≠ Trigger → tray_icon_activated reason hidden = hidden).
Proof.
  intros Hrun Hbox hidden.
  assert (Hquit : closed_quit (closeEvent tray_notification_shown w) = false).
  { destruct (running_ok w Hrun) as (_ & _ & shown & Htray).
    unfold closeEvent. rewrite Hbox, Htray. by destruct tray_notification_shown. }
  pose proof (running_close QKeySequence w tray_notification_shown Hrun Hquit)
    as Hrun'. fold hidden in Hrun'.
  assert (Hhidden : visible hidden = false ∧ config hidden = config w).
  { subst hidden. unfold closeEvent.
    destruct (running_ok w Hrun) as (_ & _ & shown & Htray).
    rewrite Hbox, Htray. cbn [andb tray_visible].
    destruct (update_show_action_text_keeps (set_visible false w))
      as (Hc & _ & Hv & _).
    by destruct tray_notification_shown. }
  destruct Hhidden as [Hv Hc].
  cbn [tray_icon_activated].
  destruct (show_hide_window_shows hidden (running_ok hidden Hrun'))
    as (Hv' & Ht' & Hc' & _).
  rewrite Hv in Hv'. change (negb false) with true in Hv'. rewrite Hv' in Ht'.
  split; [done|]. split; [done|]. split; [by rewrite Hc'|].
  by intros [].
Qed.

End WindowEventProperties.

(** ** Autostart registration: what it leaves behind *)

(** X12.  On Windows and on Linux, when no call raises,
    [configure_autostart] shows no dialog and leaves autostart registered
    for the program exactly when the flag is set: the Run value (the desktop
    entry) is there with the path of the program, or it is not there.
    Doing it again changes nothing, and each platform leaves the store of
    the other alone. *)
Theorem configure_autostart_follows_flag platform app_path written autostart os :
  platform ≠ OtherPlatform →
  let configure := configure_autostart_os platform app_path (λ _, None) written in
  let os' := (configure autostart os).1 in
  (configure autostart os).2 = []
  ∧ (if autostart then registered platform app_path os'
     else unregistered platform os')
  ∧ configure autostart os' = (os', [])
  ∧ (platform = Win32 → autostart_dir os' = autostart_dir os)
  ∧ (platform = Linux → run_value os' = run_value os).
Proof.
  intros Hplatform. destruct platform; [| |done].
  - destruct autostart, os as [[value|] dir]; by cbn.
  - destruct autostart, os as [value [|[file|]]]; cbn; try done;
      repeat split; try done; by (left + right).
Qed.

(** X13.  Whatever raises, [configure_autostart] shows nothing or the one
    warning [Failed to configure autostart].  When it shows nothing, the
    registration follows the flag, provided [DeleteValue] raises
    [FileNotFoundError] only for a value that is not there.  On Windows,
    when the Run key cannot be opened the registry is as before and the
    warning is shown; and with the key opened and closed without exception,
    turning autostart off is silent exactly when [DeleteValue] raises
    nothing or [FileNotFoundError], which is passed over.  On other
    platforms nothing happens. *)
Theorem configure_autostart_silent_or_warns
    platform app_path raises written autostart os :
  let os' := (configure_autostart_os platform app_path raises written autostart os).1 in
  let shown := (configure_autostart_os platform app_path raises written autostart os).2 in
  (∃ raised, shown = configure_autostart platform raised)
  ∧ (shown = [] → platform ≠ OtherPlatform →
     (∀ e, raises DeleteValue = Some (FileNotFoundError e) → run_value os = None) →
     if autostart then registered platform app_path os'
     else unregistered platform os')
  ∧ (platform = Win32 → raises OpenKey ≠ None → os' = os ∧ shown ≠ [])
  ∧ (platform = Win32 → autostart = false →
     raises OpenKey = None → raises CloseKey = None →
     (shown = [] ↔ ∀ e, raises DeleteValue ≠ Some (OtherException e)))
  ∧ (platform = OtherPlatform → os' = os ∧ shown = []).
Proof.
  cbn zeta. split; [|split; [|split; [|split]]].
  - assert (Hclose : ∀ os0, ∃ raised,
              (close_key raises os0).2 = configure_autostart Win32 raised).
    { intros os0. unfold close_key.
      destruct (raises CloseKey) as [e|];
        [by exists (Some (str_exception e)) | by exists None]. }
    destruct platform; [| |by exists None].
    + cbn. destruct (raises OpenKey) as [e|];
        [by exists (Some (str_exception e))|].
      destruct autostart.
      * destruct (raises SetValueEx) as [e|];
          [by exists (Some (str_exception e)) | apply Hclose].
      * destruct (raises DeleteValue) as [[e|e]|], (run_value os);
          first [apply Hclose | by exists (Some e)].
    + cbn. destruct autostart.
      * destruct (autostart_dir os) as [|file], (raises Mkdir) as [e|];
          try (by exists (Some (str_exception e)));
          destruct (raises OpenFile) as [e'|];
          try (by exists (Some (str_exception e')));
          destruct (raises WriteFile) as [e''|];
          (by exists (Some (str_exception e''))) || (by exists None).
      * destruct (autostart_dir os) as [|[file|]]; try (by exists None).
        destruct (raises Unlink) as [e|];
          [by exists (Some (str_exception e)) | by exists None].
  - intros Hshown Hplatform Hnotfound. destruct platform; [| |done].
    + revert Hshown. cbn. unfold close_key.
      destruct (raises OpenKey) as [e|]; [done|].
      destruct autostart.
      * destruct (raises SetValueEx) as [e|]; [done|].
        by destruct (raises CloseKey) as [e|].
      * destruct (raises DeleteValue) as [[e|e]|] eqn:Hdel; [|done|].
        -- pose proof (Hnotfound e eq_refl) as Hnone.
           by destruct (raises CloseKey).
        -- by destruct (run_value os) eqn:Hvalue, (raises CloseKey).
    + revert Hshown. cbn. destruct autostart.
      * by destruct (autostart_dir os) as [|file], (raises Mkdir) as [e|];
          destruct (raises OpenFile) as [e'|];
          destruct (raises WriteFile) as [e''|].
      * destruct (autostart_dir os) as [|[file|]] eqn:Hdir; cbn;
          [by left | | by right].
        destruct (raises Unlink) as [e|]; [done|]. by right.
  - intros -> Hopen. cbn. by destruct (raises OpenKey) as [e|].
  - intros -> -> Hopen Hclose. cbn. unfold close_key. rewrite Hopen, Hclose.
    destruct (raises DeleteValue) as [[e|e]|], (run_value os); cbn;
      (split; [done|]); try done; intros Hother; by destruct (Hother e).
  - by intros ->.
Qed.

(** ** JSON: reading back what was written *)

Local Open Scope N_scope.

Lemma unhex_hexdigit d : d < 16 → unhex (hexdigit d) = Some d.
Proof.
  intros Hd. unfold unhex, hexdigit.
  destruct (N.ltb_spec d 10).
  - replace ((48 <=? 48 + d) && (48 + d <=? 57)) with true.
    + f_equal. lia.
    + symmetry. apply andb_true_iff. split; apply N.leb_le; lia.
  - replace ((48 <=? 87 + d) && (87 + d <=? 57)) with false.
    + replace ((97 <=? 87 + d) && (87 + d <=? 102)) with true.
      * f_equal. lia.
      * symmetry. apply andb_true_iff. split; apply N.leb_le; lia.
    + symmetry. apply andb_false_iff. right. apply N.leb_gt. lia.
Qed.

Lemma lor_shiftl_add a b k : b < 2 ^ k → N.lor (N.shiftl a k) b = N.shiftl a k + b.
Proof.
  intros Hb.
  assert (Hland : N.land (N.shiftl a k) b = 0).
  { apply N.bits_inj. intros i. rewrite N.land_spec, N.bits_0.
    destruct (N.lt_ge_cases i k) as [Hlt | Hge].
    - by rewrite N.shiftl_spec_low.
    - assert (N.testbit b i = false) as ->; [|by rewrite andb_false_r].
      rewrite <- (N.mod_small b (2 ^ k)) by done. by apply N.mod_pow2_bits_high. }
  rewrite <- N.lxor_lor by done. symmetry. by apply N.add_nocarry_lxor.
Qed.

Ltac n_arith := zify; Z.to_euclidean_division_equations; lia.

Lemma land_15 n : N.land n 15 = n mod 16.
Proof. change 15 with (N.ones 4). by rewrite N.land_ones. Qed.

Lemma land_3ff n : N.land n 0x3ff = n mod 1024.
Proof. change 0x3ff with (N.ones 10). by rewrite N.land_ones. Qed.

Lemma decode_format n :
  n < 0x10000 →
  decode_uXXXX (hexdigit (N.land (N.shiftr n 12) 15))
               (hexdigit (N.land (N.shiftr n 8) 15))
               (hexdigit (N.land (N.shiftr n 4) 15))
               (hexdigit (N.land n 15)) = Some n.
Proof.
  intros Hn. unfold decode_uXXXX.
  rewrite !land_15, !N.shiftr_div_pow2.
  rewrite !unhex_hexdigit by (apply N.mod_lt; done). simpl.
  f_equal.
  rewrite !lor_shiftl_add by (apply N.mod_lt; done).
  rewrite !N.shiftl_mul_pow2.
  change (2 ^ 4) with 16. change (2 ^ 8) with 256. change (2 ^ 12) with 4096.
  n_arith.
Qed.


Lemma surrogate_pair c :
  0x10000 ≤ c → c < 0x110000 →
  let n := c - 0x10000 in
  let s1 := N.lor 0xd800 (N.land (N.shiftr n 10) 0x3ff) in
  let s2 := N.lor 0xdc00 (N.land n 0x3ff) in
  s1 < 0x10000 ∧ s2 < 0x10000
  ∧ is_high_surrogate s1 = true ∧ is_low_surrogate s2 = true
  ∧ 0x10000 + N.lor (N.shiftl (s1 - 0xd800) 10) (s2 - 0xdc00) = c.
Proof.
  intros Hlo Hhi n s1 s2.
  assert (Hnc : n = c - 0x10000) by done.
  assert (Hn : n / 1024 < 1024).
  { apply N.Div0.div_lt_upper_bound. lia. }
  assert (Hs1 : s1 = 0xd800 + n / 1024).
  { subst s1. rewrite land_3ff, N.shiftr_div_pow2.
    change 0xd800 with (N.shiftl 54 10).
    rewrite lor_shiftl_add by (by apply N.mod_lt).
    change (N.shiftl 54 10) with 55296.
    change (2 ^ 10) with 1024. by rewrite (N.mod_small (n / 1024)). }
  assert (Hs2 : s2 = 0xdc00 + n mod 1024).
  { subst s2. rewrite land_3ff.
    change 0xdc00 with (N.shiftl 55 10).
    rewrite lor_shiftl_add by (by apply N.mod_lt). done. }
  assert (n mod 1024 < 1024) by (by apply N.mod_lt).
  clearbody s1 s2 n. subst s1 s2.
  split; [n_arith|]. split; [n_arith|].
  split; [apply andb_true_iff; split; apply N.leb_le; n_arith|].
  split; [apply andb_true_iff; split; apply N.leb_le; n_arith|].
  replace (0xd800 + n / 1024 - 0xd800) with (n / 1024) by n_arith.
  replace (0xdc00 + n mod 1024 - 0xdc00) with (n mod 1024) by n_arith.
  rewrite lor_shiftl_add by done. rewrite N.shiftl_mul_pow2.
  change (2 ^ 10) with 1024.
  n_arith.
Qed.

(** One step of [scanstring], by the shape of the text. *)
Lemma scanstring_plain c s1 :
  c ≠ QUOTE → c ≠ BACKSLASH → 32 ≤ c →
  scanstring (c :: s1) = '(str, rest) ← scanstring s1; Some (c :: str, rest).
Proof.
  intros H1%N.eqb_neq H2%N.eqb_neq H3%N.ltb_ge. cbn [scanstring].
  by rewrite H1, H2, H3.
Qed.

Lemma scanstring_backslash esc char s2 :
  backslash esc = Some char →
  scanstring (BACKSLASH :: esc :: s2)
  = '(str, rest) ← scanstring s2; Some (char :: str, rest).
Proof.
  intros Hesc. cbn [scanstring]. 
  assert ((esc =? 117) = false) as ->.
  { apply N.eqb_neq. intros ->. done. }
  by rewrite Hesc.
Qed.

Lemma scanstring_unicode a b c d uni s3 :
  decode_uXXXX a b c d = Some uni →
  is_high_surrogate uni && unicode_escape_ahead s3 = false →
  scanstring (BACKSLASH :: 117 :: a :: b :: c :: d :: s3)
  = '(str, rest) ← scanstring s3; Some (uni :: str, rest).
Proof. intros Hd Hlone. cbn [scanstring]. simpl (_ =? _). cbn match. rewrite Hd. cbn [mbind option_bind]. by rewrite Hlone. Qed.

Lemma scanstring_unicode_pair a b c d a2 b2 c2 d2 uni uni2 s6 :
  decode_uXXXX a b c d = Some uni → is_high_surrogate uni = true →
  decode_uXXXX a2 b2 c2 d2 = Some uni2 → is_low_surrogate uni2 = true →
  scanstring (BACKSLASH :: 117 :: a :: b :: c :: d
              :: BACKSLASH :: 117 :: a2 :: b2 :: c2 :: d2 :: s6)
  = '(str, rest) ← scanstring s6;
    Some (0x10000 + N.lor (N.shiftl (uni - 0xd800) 10) (uni2 - 0xdc00) :: str,
          rest).
Proof.
  intros Hd Hhigh Hd2 Hlow. cbn [scanstring]. simpl (_ =? _). cbn match.
  rewrite Hd. cbn [mbind option_bind]. rewrite Hhigh. simpl (_ && _).
  rewrite Hd2. cbn [mbind option_bind]. by rewrite Hlow.
Qed.

Lemma scanstring_unicode_not_pair a b c d a2 b2 c2 d2 uni uni2 s6 :
  decode_uXXXX a b c d = Some uni →
  decode_uXXXX a2 b2 c2 d2 = Some uni2 → is_low_surrogate uni2 = false →
  scanstring (BACKSLASH :: 117 :: a :: b :: c :: d
              :: BACKSLASH :: 117 :: a2 :: b2 :: c2 :: d2 :: s6)
  = '(str, rest) ← scanstring (BACKSLASH :: 117 :: a2 :: b2 :: c2 :: d2 :: s6);
    Some (uni :: str, rest).
Proof.
  intros Hd Hd2 Hlow.
  change (scanstring (BACKSLASH :: 117 :: a :: b :: c :: d
              :: BACKSLASH :: 117 :: a2 :: b2 :: c2 :: d2 :: s6))
    with (uni ← decode_uXXXX a b c d;
          let lone := '(str, rest) ← scanstring
                         (BACKSLASH :: 117 :: a2 :: b2 :: c2 :: d2 :: s6);
                      Some (uni :: str, rest) in
          if is_high_surrogate uni && true then
            uni2 ← decode_uXXXX a2 b2 c2 d2;
            if is_low_surrogate uni2 then
              '(str, rest) ← scanstring s6;
              Some (0x10000 + N.lor (N.shiftl (uni - 0xd800) 10) (uni2 - 0xdc00)
                      :: str, rest)
            else lone
          else lone).
  rewrite Hd. cbn [mbind option_bind]. rewrite Hd2. cbn [mbind option_bind].
  rewrite Hlow. by destruct (is_high_surrogate uni).
Qed.

Lemma scanstring_unicode_lone a b c d uni t :
  decode_uXXXX a b c d = Some uni →
  is_high_surrogate uni = false ∨ no_low_ahead t →
  scanstring (BACKSLASH :: 117 :: a :: b :: c :: d :: t)
  = '(str, rest) ← scanstring t; Some (uni :: str, rest).
Proof.
  intros Hd [Hhigh | [Hno | (a2 & b2 & c2 & d2 & s6 & uni2 & -> & Hd2 & Hlow)]].
  - apply scanstring_unicode; [done | by rewrite Hhigh].
  - apply scanstring_unicode; [done | by rewrite Hno, andb_false_r].
  - by eapply scanstring_unicode_not_pair.
Qed.

Lemma escape_char_spec c : c < 0x110000 → escape_spec c (escape_char c).
Proof.
  intros Hc. unfold escape_char.
  destruct (N.eqb_spec c BACKSLASH) as [-> | ?]; [by apply escape_short|].
  destruct (N.eqb_spec c QUOTE) as [-> | ?]; [by apply escape_short|].
  destruct ((32 <=? c) && (c <=? 126)) eqn:Hp.
  { apply andb_true_iff in Hp as [?%N.leb_le ?%N.leb_le]. by apply escape_plain. }
  destruct (N.eqb_spec c 8) as [-> | ?]; [by apply escape_short|].
  destruct (N.eqb_spec c 12) as [-> | ?]; [by apply escape_short|].
  destruct (N.eqb_spec c 10) as [-> | ?]; [by apply escape_short|].
  destruct (N.eqb_spec c 13) as [-> | ?]; [by apply escape_short|].
  destruct (N.eqb_spec c 9) as [-> | ?]; [by apply escape_short|].
  destruct (N.ltb_spec c 0x10000) as [Hlt | Hge].
  - apply escape_unicode; [done | by apply decode_format].
  - destruct (surrogate_pair c Hge Hc) as (H1 & H2 & Hh & Hl & Hj).
    eapply escape_pair; eauto using decode_format.
Qed.

Lemma escape_not_low_ahead c e t :
  escape_spec c e → is_low_surrogate c = false → no_low_ahead (e ++ t).
Proof.
  intros He Hlow. destruct He as [? ? ? ?| esc Hesc | | ].
  - left. simpl. rewrite (proj2 (N.eqb_neq c BACKSLASH)) by done. by destruct t.
  - left. simpl. assert ((esc =? 117) = false) as ->; [|done].
    apply N.eqb_neq. by intros ->.
  - right. by repeat eexists.
  - right. repeat eexists; [done|].
    unfold is_high_surrogate, is_low_surrogate in *.
    apply andb_true_iff in H0 as [?%N.leb_le ?%N.leb_le].
    apply andb_false_iff. left. apply N.leb_gt. lia.
Qed.

Lemma scanstring_escape c e t :
  escape_spec c e →
  is_high_surrogate c = false ∨ no_low_ahead t →
  scanstring (e ++ t) = '(str, rest) ← scanstring t; Some (c :: str, rest).
Proof.
  intros He Hahead. destruct He as [? ? ? ?| esc Hesc | | ]; simpl app.
  - by apply scanstring_plain.
  - by apply scanstring_backslash.
  - by apply scanstring_unicode_lone.
  - subst c. by apply scanstring_unicode_pair.
Qed.

Lemma wf_str_cons c s :
  wf_str (c :: s) = true →
  c < 0x110000 ∧ wf_str s = true
  ∧ (is_high_surrogate c = false
     ∨ match s with c2 :: _ => is_low_surrogate c2 = false | [] => True end).
Proof.
  cbn [wf_str]. intros [[Hc%N.ltb_lt Hadj]%andb_true_iff Hs]%andb_true_iff.
  split; [done|]. split; [done|].
  destruct (is_high_surrogate c); [right | by left].
  destruct s; [done|]. by apply negb_true_iff.
Qed.

(** Reading back an encoded string. *)
Lemma scanstring_encoded s rest :
  wf_str s = true →
  scanstring (flat_map escape_char s ++ QUOTE :: rest) = Some (s, rest).
Proof.
  induction s as [|c s IH]; intros Hwf; [done|].
  apply wf_str_cons in Hwf as (Hc & Hs & Hadj).
  cbn [flat_map]. rewrite <- app_assoc.
  assert (Hahead : is_high_surrogate c = false
                   ∨ no_low_ahead (flat_map escape_char s ++ QUOTE :: rest)).
  { destruct Hadj as [? | Hadj]; [by left | right].
    destruct s as [|c2 s]; [left; simpl; by destruct rest|].
    pose proof (wf_str_cons _ _ Hs) as (Hc2 & _ & _).
    cbn [flat_map]. rewrite <- app_assoc.
    apply (escape_not_low_ahead c2); [by apply escape_char_spec | done]. }
  rewrite (scanstring_escape c _ _ (escape_char_spec c Hc) Hahead).
  by rewrite IH.
Qed.

(** *** Numbers *)
Lemma is_digit_spec c : is_digit c = true ↔ 48 ≤ c ≤ 57.
Proof. unfold is_digit. rewrite andb_true_iff, !N.leb_le. done. Qed.

Lemma scan_digits_digit acc c rest :
  is_digit c = true →
  scan_digits acc (c :: rest) = scan_digits (10 * acc + (c - 48)) rest.
Proof. intros Hc. cbn [scan_digits]. by rewrite Hc. Qed.

Lemma scan_digits_stop acc rest :
  ends_value rest → scan_digits acc rest = (acc, rest).
Proof. destruct rest as [|c rest]; [done|]. by intros [-> | ->]. Qed.

Lemma float_follows_stop rest : ends_value rest → float_follows rest = false.
Proof. destruct rest as [|c rest]; [done|]. by intros [-> | ->]. Qed.

Lemma digits_fuel f n :
  10 ≤ n → n < 2 ^ N.of_nat (S f) → f ≠ 0%nat ∧ n / 10 < 2 ^ N.of_nat f.
Proof.
  intros Hn Hlt. rewrite Nat2N.inj_succ, N.pow_succ_r' in Hlt.
  split.
  - intros ->. simpl in Hlt. lia.
  - n_arith.
Qed.

Lemma scan_digits_digits f n rest :
  f ≠ 0%nat → n < 2 ^ N.of_nat f →
  scan_digits 0 (digits f n ++ rest) = scan_digits n rest.
Proof.
  revert n rest. induction f as [|f IH]; intros n rest Hf Hn; [done|].
  cbn [digits]. destruct (N.ltb_spec n 10) as [Hlt | Hge].
  - cbn [app]. rewrite scan_digits_digit by (apply is_digit_spec; lia).
    f_equal. lia.
  - destruct (digits_fuel f n Hge Hn) as [Hf' Hn'].
    rewrite <- app_assoc. cbn [app]. rewrite IH by done.
    rewrite scan_digits_digit by (apply is_digit_spec; n_arith).
    f_equal. n_arith.
Qed.

Lemma digits_head f n :
  f ≠ 0%nat → n < 2 ^ N.of_nat f → 0 < n →
  ∃ d tl, digits f n = d :: tl ∧ is_digit d = true ∧ d ≠ ZERO.
Proof.
  revert n. induction f as [|f IH]; intros n Hf Hn Hpos; [done|].
  cbn [digits]. destruct (N.ltb_spec n 10) as [Hlt | Hge].
  - exists (48 + n), []. split; [done|]. split; [apply is_digit_spec|]; lia.
  - destruct (digits_fuel f n Hge Hn) as [Hf' Hn'].
    destruct (IH (n / 10)) as (d & tl & -> & Hd & Hd0); [done | done | n_arith |].
    by exists d, (tl ++ [48 + n mod 10]).
Qed.

Lemma log2_fuel m : m < 2 ^ N.of_nat (S (N.to_nat (N.log2 m))).
Proof.
  rewrite Nat2N.inj_succ, N2Nat.id.
  destruct (N.eq_dec m 0) as [-> | Hm]; [done|].
  apply N.log2_spec. lia.
Qed.

Lemma match_natural_digits m rest :
  ends_value rest →
  match_natural (digits (S (N.to_nat (N.log2 m))) m ++ rest) = Some (m, rest).
Proof.
  intros Hrest. pose proof (log2_fuel m) as Hfuel.
  destruct (N.eq_dec m 0) as [-> | Hm]; [done|].
  pose proof (scan_digits_digits _ m rest (Nat.neq_succ_0 _) Hfuel) as Hscan.
  destruct (digits_head _ m (Nat.neq_succ_0 _) Hfuel) as (d & tl & Hd & Hdig & Hd0);
    [lia|].
  rewrite Hd in Hscan |- *. cbn [app] in Hscan |- *.
  unfold match_natural. rewrite (proj2 (N.eqb_neq d ZERO)), Hdig by done.
  rewrite scan_digits_digit in Hscan by done.
  change (10 * 0 + (d - 48)) with (d - 48) in Hscan.
  by rewrite Hscan, scan_digits_stop.
Qed.

(** The first character of an integer literal. *)
Lemma intstr_head n :
  ∃ c tl, intstr n = c :: tl ∧ (c = MINUS ∨ is_digit c = true).
Proof.
  unfold intstr. destruct (n <? 0)%Z; [by eauto|].
  set (m := Z.abs_N n). pose proof (log2_fuel m) as Hfuel.
  destruct (N.eq_dec m 0) as [-> | Hm]; [by eexists _, _; eauto|].
  destruct (digits_head _ m (Nat.neq_succ_0 _) Hfuel) as (d & tl & -> & Hdig & _);
    [lia | by eauto].
Qed.

(** Reading back an integer. *)
Lemma match_number_intstr n rest :
  ends_value rest → match_number (intstr n ++ rest) = Some (n, rest).
Proof.
  intros Hrest. unfold intstr, match_number.
  destruct (Z.ltb_spec n 0) as [Hneg | Hpos].
  - cbn [app]. simpl (MINUS =? MINUS). cbn [mbind option_bind].
    rewrite match_natural_digits by done. cbn [mbind option_bind].
    rewrite float_follows_stop by done. f_equal. f_equal. lia.
  - set (m := Z.abs_N n).
    pose proof (match_natural_digits m rest Hrest) as Hnat.
    destruct (intstr_head n) as (c & tl & Hc & Hhead).
    unfold intstr in Hc. rewrite (proj2 (Z.ltb_ge n 0)) in Hc by done.
    fold m in Hc. rewrite Hc in Hnat |- *. cbn [app] in Hnat |- *.
    assert ((c =? MINUS) = false) as ->.
    { apply N.eqb_neq. intros ->.
      unfold match_natural in Hnat. done. }
    cbn [mbind option_bind]. rewrite Hnat. cbn [mbind option_bind].
    rewrite float_follows_stop by done. f_equal. f_equal. lia.
Qed.

(** *** Values *)
Lemma json_ind' (P : json → Prop) :
  P JNull → (∀ b, P (JBool b)) → (∀ n, P (JInt n)) → (∀ s, P (JStr s)) →
  (∀ values, Forall P values → P (JArr values)) →
  (∀ items, Forall (λ kv, P kv.2) items → P (JObj items)) →
  ∀ o, P o.
Proof.
  intros Hnull Hbool Hint Hstr Harr Hobj.
  fix IH 1. intros [| b | n | s | values | items]; [done.. | |].
  - apply Harr. induction values as [|v values IHv]; constructor; [apply IH | done].
  - apply Hobj. induction items as [|[k v] items IHi]; constructor; [apply IH | done].
Qed.

Lemma skip_ws_spaces n s : skip_ws (repeat SPACE n ++ s) = skip_ws s.
Proof. induction n as [|n IH]; [done|]. by simpl. Qed.

Lemma skip_ws_newline_indent level s :
  skip_ws (newline_indent level ++ s) = skip_ws s.
Proof. unfold newline_indent. cbn [app skip_ws is_ws]. simpl (_ || _). apply skip_ws_spaces. Qed.

Lemma skip_ws_stop c s : is_ws c = false → skip_ws (c :: s) = c :: s.
Proof. intros Hc. cbn [skip_ws]. by rewrite Hc. Qed.

Lemma skip_ws_indent_quote level s :
  skip_ws (newline_indent level ++ QUOTE :: s) = QUOTE :: s.
Proof. by rewrite skip_ws_newline_indent, skip_ws_stop. Qed.

Lemma iterencode_head level o :
  ∃ c tl, iterencode level o = c :: tl ∧ starts_value c.
Proof.
  unfold starts_value.
  destruct o as [| [|] | n | s | [|v values] | [|kv items]];
    try (by eexists _, _; split; [reflexivity | tauto]).
  destruct (intstr_head n) as (c & tl & Hc & [Hm | Hd]);
    exists c, tl; (split; [done | tauto]).
Qed.

Lemma starts_value_not_ws c : starts_value c → is_ws c = false.
Proof.
  unfold starts_value. rewrite is_digit_spec. intros H. unfold is_ws.
  repeat (apply orb_false_iff; split); apply N.eqb_neq; lia.
Qed.

Lemma skip_ws_value level o s :
  skip_ws (iterencode level o ++ s) = iterencode level o ++ s.
Proof.
  destruct (iterencode_head level o) as (c & tl & -> & Hc).
  by apply skip_ws_stop, starts_value_not_ws.
Qed.

Lemma join_cons sep c cs : join sep (c :: cs) = c ++ flat_map (app sep) cs.
Proof.
  revert c. induction cs as [|c2 cs IH]; intros c; [by rewrite app_nil_r|].
  change (join sep (c :: c2 :: cs)) with (c ++ sep ++ join sep (c2 :: cs)).
  rewrite IH. cbn [flat_map]. by rewrite <- app_assoc.
Qed.

Lemma ends_value_comma s : ends_value (COMMA :: s).
Proof. by left. Qed.

Lemma ends_value_newline level s : ends_value (newline_indent level ++ s).
Proof. by right. Qed.

Lemma dict_set_fresh d k v :
  k ∉ map fst d → dict_set d k v = d ++ [(k, v)].
Proof.
  induction d as [|[k' v'] d IH]; intros Hk; [done|].
  cbn [dict_set]. rewrite decide_False.
  - rewrite IH; [done|]. intros Hin. apply Hk. by right.
  - intros ->. apply Hk. by left.
Qed.

Lemma dict_nodup_from d items :
  NoDup (map fst (d ++ items)) →
  fold_left (λ d kv, dict_set d (fst kv) (snd kv)) items d = d ++ items.
Proof.
  revert d. induction items as [|[k v] items IH]; intros d Hnd;
    [by rewrite app_nil_r|].
  cbn [fold_left fst snd]. rewrite dict_set_fresh.
  - rewrite IH; rewrite <- app_assoc; done.
  - rewrite map_app in Hnd. apply NoDup_app in Hnd as (_ & Hdisj & _).
    intros Hin. apply (Hdisj k Hin). by left.
Qed.

Lemma dict_nodup items : NoDup (map fst items) → dict items = items.
Proof. intros Hnd. by apply (dict_nodup_from []). Qed.

Lemma array_loop_eq fuel s values :
  array_loop (S fuel) s values
  = '(value, s1) ← scan_once fuel s;
    let values := values ++ [value] in
    match skip_ws s1 with
    | nextchar :: s2 =>
        if nextchar =? RBRACKET then Some (JArr values, s2)
        else if nextchar =? COMMA then array_loop fuel (skip_ws s2) values
        else None
    | [] => None
    end.
Proof. done. Qed.

Lemma object_loop_eq fuel s pairs :
  object_loop (S fuel) s pairs
  = '(key, s1) ← scanstring s;
    match skip_ws s1 with
    | c :: s2 =>
        if c =? COLON then
          '(value, s3) ← scan_once fuel (skip_ws s2);
          let pairs := pairs ++ [(key, value)] in
          match skip_ws s3 with
          | nextchar :: s4 =>
              if nextchar =? RBRACE then Some (JObj (dict pairs), s4)
              else if nextchar =? COMMA then
                match skip_ws s4 with
                | q :: s5 =>
                    if q =? QUOTE then object_loop fuel s5 pairs else None
                | [] => None
                end
              else None
          | [] => None
          end
        else None
    | [] => None
    end.
Proof. done. Qed.

(** The loop of [JSONArray] reads back the elements. *)
Lemma array_loop_encoded level rest vs :
  Forall reads_back vs → Forall (λ v, wf_json v = true) vs →
  ∀ v acc fuel,
    reads_back v → wf_json v = true →
    (S (cost v) + list_sum (map (λ v, S (cost v)) vs) ≤ fuel)%nat →
    array_loop fuel
      (iterencode (S level) v
       ++ flat_map (app (COMMA :: newline_indent (S level)))
                   (map (iterencode (S level)) vs)
       ++ newline_indent level ++ RBRACKET :: rest) acc
    = Some (JArr (acc ++ v :: vs), rest).
Proof.
  induction vs as [|v2 vs IH]; intros Hback Hwf v acc fuel Hv Hwfv Hfuel;
    (destruct fuel as [|fuel]; [simpl in Hfuel; lia|]);
    rewrite array_loop_eq.
  - cbn [map flat_map app].
    rewrite Hv by (first [done | apply ends_value_newline | simpl in Hfuel; lia]).
    cbn [mbind option_bind]. rewrite skip_ws_newline_indent.
    by rewrite skip_ws_stop.
  - apply Forall_cons in Hback as [Hv2 Hback].
    apply Forall_cons in Hwf as [Hwf2 Hwf].
    cbn [map flat_map list_sum] in Hfuel |- *.
    rewrite <- !app_assoc. cbn [app].
    rewrite Hv by (first [done | apply ends_value_comma | simpl in Hfuel; lia]).
    cbn [mbind option_bind]. rewrite skip_ws_stop by done.
    simpl (COMMA =? _). cbn match.
    rewrite skip_ws_newline_indent, skip_ws_value.
    rewrite IH by (first [done | simpl in Hfuel; lia]). by rewrite <- app_assoc.
Qed.

(** The loop of [JSONObject] reads back the items. *)
Lemma object_loop_encoded level rest items :
  Forall (λ kv, reads_back kv.2) items →
  Forall (λ kv, wf_str kv.1 = true ∧ wf_json kv.2 = true) items →
  ∀ k v acc fuel,
    reads_back v → wf_str k = true → wf_json v = true →
    (S (cost v) + list_sum (map (λ kv, S (cost (snd kv))) items) ≤ fuel)%nat →
    object_loop fuel
      (flat_map escape_char k ++ QUOTE :: COLON :: SPACE
       :: iterencode (S level) v
       ++ flat_map (app (COMMA :: newline_indent (S level)))
            (map (λ kv, encode_basestring_ascii (fst kv) ++ [COLON; SPACE]
                          ++ iterencode (S level) (snd kv)) items)
       ++ newline_indent level ++ RBRACE :: rest) acc
    = Some (JObj (dict (acc ++ (k, v) :: items)), rest).
Proof.
  induction items as [|[k2 v2] items IH];
    intros Hback Hwf k v acc fuel Hv Hwfk Hwfv Hfuel;
    (destruct fuel as [|fuel]; [simpl in Hfuel; lia|]);
    rewrite object_loop_eq, scanstring_encoded by done;
    cbn [mbind option_bind]; rewrite skip_ws_stop by done;
    simpl (COLON =? _); cbn match;
    change (SPACE :: ?s) with ([SPACE] ++ s);
    rewrite (skip_ws_spaces 1), skip_ws_value.
  - cbn [map flat_map app].
    rewrite Hv by (first [done | apply ends_value_newline | simpl in Hfuel; lia]).
    cbn [mbind option_bind]. rewrite skip_ws_newline_indent.
    by rewrite skip_ws_stop.
  - apply Forall_cons in Hback as [Hv2 Hback].
    apply Forall_cons in Hwf as [[Hwfk2 Hwf2] Hwf].
    cbn [map flat_map list_sum fst snd] in Hfuel, Hv2, Hwfk2, Hwf2 |- *.
    rewrite <- !app_assoc. cbn [app].
    rewrite Hv by (first [done | apply ends_value_comma | simpl in Hfuel; lia]).
    cbn [mbind option_bind]. rewrite skip_ws_stop by done.
    simpl (COMMA =? _). cbn match.
    rewrite skip_ws_newline_indent.
    unfold encode_basestring_ascii. cbn [app]. rewrite skip_ws_stop by done.
    simpl (QUOTE =? _). cbn match.
    rewrite <- !app_assoc. cbn [app].
    rewrite IH by (first [done | simpl in Hfuel; lia]). by rewrite <- app_assoc.
Qed.

Lemma scan_once_string fuel s1 :
  scan_once (S fuel) (QUOTE :: s1)
  = '(str, rest) ← scanstring s1; Some (JStr str, rest).
Proof. done. Qed.

Lemma scan_once_array fuel s1 c tl :
  skip_ws s1 = c :: tl → c ≠ RBRACKET →
  scan_once (S fuel) (LBRACKET :: s1) = array_loop fuel (c :: tl) [].
Proof.
  intros Hs Hc%N.eqb_neq. cbn [scan_once]. simpl (LBRACKET =? _). cbn match.
  by rewrite Hs, Hc.
Qed.

Lemma scan_once_object fuel s1 tl :
  skip_ws s1 = QUOTE :: tl →
  scan_once (S fuel) (LBRACE :: s1) = object_loop fuel tl [].
Proof.
  intros Hs. cbn [scan_once]. simpl (LBRACE =? _). cbn match. by rewrite Hs.
Qed.

Lemma scan_once_number fuel c tl :
  c = MINUS ∨ is_digit c = true →
  scan_once (S fuel) (c :: tl)
  = '(n, rest) ← match_number (c :: tl); Some (JInt n, rest).
Proof.
  intros [-> | Hd%is_digit_spec]; [done|].
  cbn [scan_once strip_prefix u map String.list_ascii_of_string].
  simpl (Ascii.N_of_ascii _).
  rewrite !(proj2 (N.eqb_neq c _)) by lia.
  by rewrite !(proj2 (N.eqb_neq _ c)) by lia.
Qed.

Lemma forallb_Forall {A} (f : A → bool) l :
  forallb f l = true ↔ Forall (λ x, f x = true) l.
Proof.
  induction l as [|x l IH]; [by split|].
  cbn [forallb]. rewrite andb_true_iff, Forall_cons. by rewrite IH.
Qed.

Lemma wf_json_arr values :
  wf_json (JArr values) = true → Forall (λ v, wf_json v = true) values.
Proof. cbn [wf_json]. by intros H%forallb_Forall. Qed.

Lemma wf_json_obj items :
  wf_json (JObj items) = true →
  NoDup (map fst items)
  ∧ Forall (λ kv, wf_str kv.1 = true ∧ wf_json kv.2 = true) items.
Proof.
  cbn [wf_json]. intros [Hnd Hall]%andb_true_iff.
  split; [by apply bool_decide_eq_true in Hnd|].
  apply forallb_Forall in Hall. eapply Forall_impl; [done|].
  intros [k v] H. by apply andb_true_iff in H.
Qed.

(** Reading back an encoded value: [scan_once] returns the value and stops
    behind it. *)
Lemma scan_once_encoded o : reads_back o.
Proof.
  induction o as [| b | n | s | values IH | items IH] using json_ind';
    intros level fuel rest Hwf Hrest Hfuel;
    (destruct fuel as [|fuel]; [simpl in Hfuel; lia|]).
  - done.
  - by destruct b.
  - cbn [iterencode].
    destruct (intstr_head n) as (c & tl & Hn & Hc).
    pose proof (match_number_intstr n rest Hrest) as Hnum.
    rewrite Hn in Hnum |- *. cbn [app] in Hnum |- *.
    by rewrite scan_once_number, Hnum.
  - cbn [iterencode wf_json] in Hwf |- *. unfold encode_basestring_ascii.
    cbn [app]. rewrite <- app_assoc. cbn [app].
    by rewrite scan_once_string, scanstring_encoded.
  - destruct values as [|v vs]; [done|].
    apply wf_json_arr in Hwf. apply Forall_cons in Hwf as [Hwfv Hwf].
    apply Forall_cons in IH as [Hv IH].
    change (iterencode level (JArr (v :: vs)))
      with ([LBRACKET] ++ newline_indent (S level)
            ++ join (COMMA :: newline_indent (S level))
                 (map (iterencode (S level)) (v :: vs))
            ++ newline_indent level ++ [RBRACKET]).
    cbn [map]. rewrite join_cons. rewrite <- !app_assoc. cbn [app].
    destruct (iterencode_head (S level) v) as (c & tl & Hhead & Hc).
    rewrite (scan_once_array fuel _ c (tl ++ 
      flat_map (app (COMMA :: newline_indent (S level)))
               (map (iterencode (S level)) vs)
      ++ newline_indent level ++ RBRACKET :: rest)).
    + rewrite app_comm_cons, <- Hhead.
      rewrite (array_loop_encoded level rest vs IH Hwf v []); [done.. |].
      simpl in Hfuel. lia.
    + rewrite (skip_ws_newline_indent (S level)), skip_ws_value.
      by rewrite Hhead.
    + intros ->. unfold starts_value in Hc. rewrite is_digit_spec in Hc. lia.
  - destruct items as [|[k v] items]; [done|].
    apply wf_json_obj in Hwf as [Hnd Hwf].
    apply Forall_cons in Hwf as [[Hwfk Hwfv] Hwf].
    apply Forall_cons in IH as [Hv IH].
    change (iterencode level (JObj ((k, v) :: items)))
      with ([LBRACE] ++ newline_indent (S level)
            ++ join (COMMA :: newline_indent (S level))
                 (map (λ kv, encode_basestring_ascii (fst kv) ++ [COLON; SPACE]
                               ++ iterencode (S level) (snd kv)) ((k, v) :: items))
            ++ newline_indent level ++ [RBRACE]).
    cbn [map fst snd]. rewrite join_cons. unfold encode_basestring_ascii at 1.
    rewrite <- !app_assoc. cbn [app]. rewrite <- !app_assoc. cbn [app].
    rewrite (scan_once_object fuel _ _ (skip_ws_indent_quote (S level) _)).
    rewrite (object_loop_encoded level rest items IH Hwf k v []);
      [|done..|simpl in Hfuel; lia].
    cbn [app]. by rewrite dict_nodup.
Qed.

Lemma cost_le_length level o : (cost o ≤ length (iterencode level o))%nat.
Proof.
  revert level.
  induction o as [| b | n | s | values IH | items IH] using json_ind';
    intros level.
  - simpl. lia.
  - destruct b; simpl; lia.
  - destruct (intstr_head n) as (c & tl & Hn & _). cbn [iterencode cost].
    rewrite Hn. simpl. lia.
  - simpl. lia.
  - destruct values as [|v vs]; [simpl; lia|].
    change (iterencode level (JArr (v :: vs)))
      with ([LBRACKET] ++ newline_indent (S level)
            ++ join (COMMA :: newline_indent (S level))
                 (map (iterencode (S level)) (v :: vs))
            ++ newline_indent level ++ [RBRACKET]).
    cbn [map]. rewrite join_cons, !length_app. cbn [cost length map list_sum].
    apply Forall_cons in IH as [Hv IH]. specialize (Hv (S level)).
    assert (list_sum (map (λ v, S (cost v)) vs)
            ≤ length (flat_map (app (COMMA :: newline_indent (S level)))
                               (map (iterencode (S level)) vs)))%nat.
    { clear Hv. induction IH as [|v2 vs Hv2 _ IHvs]; [done|].
      cbn [map flat_map]. rewrite !length_app. cbn [length].
      unfold list_sum in *. cbn [fold_right].
      specialize (Hv2 (S level)). lia. }
    cbn [length]. unfold list_sum in *. cbn [fold_right]. lia.
  - destruct items as [|[k v] items]; [simpl; lia|].
    change (iterencode level (JObj ((k, v) :: items)))
      with ([LBRACE] ++ newline_indent (S level)
            ++ join (COMMA :: newline_indent (S level))
                 (map (λ kv, encode_basestring_ascii (fst kv) ++ [COLON; SPACE]
                               ++ iterencode (S level) (snd kv)) ((k, v) :: items))
            ++ newline_indent level ++ [RBRACE]).
    cbn [map fst snd]. rewrite join_cons, !length_app.
    cbn [cost length map list_sum snd].
    apply Forall_cons in IH as [Hv IH]. specialize (Hv (S level)).
    cbn [snd] in Hv.
    assert (list_sum (map (λ kv, S (cost (snd kv))) items)
            ≤ length (flat_map (app (COMMA :: newline_indent (S level)))
                 (map (λ kv, encode_basestring_ascii (fst kv) ++ [COLON; SPACE]
                               ++ iterencode (S level) (snd kv)) items)))%nat.
    { clear Hv. induction IH as [|[k2 v2] items Hv2 _ IHi]; [done|].
      cbn [map flat_map fst snd]. rewrite !length_app. cbn [length].
      unfold list_sum in *. cbn [fold_right snd].
      specialize (Hv2 (S level)). cbn [snd] in Hv2. lia. }
    cbn [length]. unfold list_sum in *. cbn [fold_right]. lia.
Qed.

(** [json.load] returns a value that [json.dump] wrote. *)
Lemma json_load_dump o : wf_json o = true → json_load (json_dump o) = Some o.
Proof.
  intros Hwf. unfold json_load, decode, json_dump.
  pose proof (skip_ws_value 0 o []) as Hskip. rewrite app_nil_r in Hskip.
  rewrite Hskip.
  pose proof (scan_once_encoded o 0%nat (S (length (iterencode 0 o))) [] Hwf I)
    as Hscan.
  rewrite app_nil_r in Hscan. rewrite Hscan; [done|].
  pose proof (cost_le_length 0 o). lia.
Qed.



(** The ways in which [scanstring] returns. *)
Lemma scanstring_inv s out rest :
  scanstring s = Some (out, rest) →
  (∃ s1, s = QUOTE :: s1 ∧ out = [] ∧ rest = s1)
  ∨ (∃ c s1 str, s = c :: s1 ∧ c ≠ BACKSLASH
       ∧ scanstring s1 = Some (str, rest) ∧ out = c :: str)
  ∨ (∃ esc char s2 str, s = BACKSLASH :: esc :: s2 ∧ backslash esc = Some char
       ∧ scanstring s2 = Some (str, rest) ∧ out = char :: str)
  ∨ (∃ a b c d uni s3 str, s = BACKSLASH :: 117 :: a :: b :: c :: d :: s3
       ∧ decode_uXXXX a b c d = Some uni
       ∧ (is_high_surrogate uni = false ∨ no_low_ahead s3)
       ∧ scanstring s3 = Some (str, rest) ∧ out = uni :: str)
  ∨ (∃ a b c d a2 b2 c2 d2 uni uni2 s6 str,
       s = BACKSLASH :: 117 :: a :: b :: c :: d
           :: BACKSLASH :: 117 :: a2 :: b2 :: c2 :: d2 :: s6
       ∧ decode_uXXXX a b c d = Some uni ∧ is_high_surrogate uni = true
       ∧ decode_uXXXX a2 b2 c2 d2 = Some uni2 ∧ is_low_surrogate uni2 = true
       ∧ scanstring s6 = Some (str, rest)
       ∧ out = 0x10000 + N.lor (N.shiftl (uni - 0xd800) 10) (uni2 - 0xdc00) :: str).
Proof.
  destruct s as [|c s1]; [done|]. cbn [scanstring].
  destruct (N.eqb_spec c QUOTE) as [-> | Hq].
  { intros [= <- <-]. left. by eexists. }
  destruct (N.eqb_spec c BACKSLASH) as [-> | Hb].
  2:{ destruct (c <? 32); [done|].
      destruct (scanstring s1) as [[str r]|] eqn:Hs1; [|done].
      intros [= <- <-]. right. left. by eexists _, _, _. }
  destruct s1 as [|esc s2]; [done|].
  destruct (N.eqb_spec esc 117) as [-> | Hu].
  2:{ destruct (backslash esc) as [char|] eqn:Hesc; [|done].
      cbn [mbind option_bind].
      destruct (scanstring s2) as [[str r]|] eqn:Hs2; [|done].
      intros [= <- <-]. right. right. left. by eexists _, _, _, _. }
  destruct s2 as [|a [|b [|c [|d s3]]]]; [done.. |].
  destruct (decode_uXXXX a b c d) as [uni|] eqn:Hd; [|done].
  cbn [mbind option_bind].
  destruct (is_high_surrogate uni) eqn:Hhigh; cbn [andb].
  2:{ destruct (scanstring s3) as [[str r]|] eqn:Hs3; [|done].
      intros [= <- <-]. do 3 right. left.
      eexists _, _, _, _, _, _, _. repeat split; eauto. }
  destruct (unicode_escape_ahead s3) eqn:Hahead.
  2:{ destruct (scanstring s3) as [[str r]|] eqn:Hs3; [|done].
      intros [= <- <-]. do 3 right. left.
      eexists _, _, _, _, _, _, _. repeat split; eauto. right. by left. }
  destruct s3 as [|bs [|e2 s5]]; [done.. |].
  cbn [unicode_escape_ahead] in Hahead.
  apply andb_true_iff in Hahead as [->%N.eqb_eq ->%N.eqb_eq].
  destruct s5 as [|a2 [|b2 [|c2 [|d2 s6]]]]; [done.. |].
  destruct (decode_uXXXX a2 b2 c2 d2) as [uni2|] eqn:Hd2; [|done].
  cbn [mbind option_bind].
  destruct (is_low_surrogate uni2) eqn:Hlow.
  - destruct (scanstring s6) as [[str r]|] eqn:Hs6; [|done].
    intros [= <- <-]. do 4 right.
    eexists _, _, _, _, _, _, _, _, _, _, _, _. repeat split; eauto.
  - destruct (scanstring (BACKSLASH :: 117 :: a2 :: b2 :: c2 :: d2 :: s6))
      as [[str r]|] eqn:Hs3; [|done].
    intros [= <- <-]. do 3 right. left.
    eexists _, _, _, _, _, _, _. repeat split; eauto.
    right. right. by eexists _, _, _, _, _, _.
Qed.









Lemma dict_set_keys d k v x :
  x ∈ map fst (dict_set d k v) → x = k ∨ x ∈ map fst d.
Proof.
  induction d as [|[k' v'] d IH]; cbn [dict_set map fst].
  - intros ->%list_elem_of_singleton. by left.
  - case_decide as Hk.
    + cbn [map fst]. by right.
    + cbn [map fst]. intros [-> | Hin]%elem_of_cons.
      * right. by left.
      * destruct (IH Hin) as [-> | ?]; [by left | right; by right].
Qed.

Lemma dict_set_wf d k v :
  NoDup (map fst d) → Forall item_ok d → item_ok (k, v) →
  NoDup (map fst (dict_set d k v)) ∧ Forall item_ok (dict_set d k v).
Proof.
  intros Hnd Hall [Hk Hv].
  induction d as [|[k' v'] d IH]; cbn [dict_set map fst].
  - split; [apply NoDup_singleton | by repeat constructor].
  - cbn [map fst] in Hnd. apply NoDup_cons in Hnd as [Hnin Hnd].
    apply Forall_cons in Hall as [[Hk' Hv'] Hall].
    case_decide as Heq.
    + subst k'. split; [by apply NoDup_cons | by repeat constructor].
    + destruct (IH Hnd Hall) as [IHnd IHall].
      split; [|by repeat constructor].
      cbn [map fst]. apply NoDup_cons. split; [|done].
      intros [-> | ?]%dict_set_keys; done.
Qed.


Lemma wf_json_obj_intro items :
  NoDup (map fst items) → Forall item_ok items → wf_json (JObj items) = true.
Proof.
  intros Hnd Hall. cbn [wf_json]. apply andb_true_iff.
  split; [by apply bool_decide_eq_true|].
  apply forallb_Forall. eapply Forall_impl; [done|].
  intros [k v] [Hk Hv]. by apply andb_true_iff.
Qed.





(** *** Fuel *)

Lemma skip_ws_length s : (length (skip_ws s) ≤ length s)%nat.
Proof.
  induction s as [|c s IH]; [done|]. cbn [skip_ws].
  destruct (is_ws c); cbn [length]; lia.
Qed.

Lemma scanstring_length n :
  ∀ s out rest, (length s ≤ n)%nat →
    scanstring s = Some (out, rest) → (length rest < length s)%nat.
Proof.
  induction n as [|n IH]; intros s out rest Hlen Hscan.
  { destruct s; [done | simpl in Hlen; lia]. }
  apply scanstring_inv in Hscan
    as [(s1 & -> & -> & ->)
       |[(c & s1 & str & -> & Hb & Hs1 & ->)
       |[(esc & char & s2 & str & -> & Hesc & Hs2 & ->)
       |[(a & b & c & d & uni & s3 & str & -> & Hd & Hlone & Hs3 & ->)
       |(a & b & c & d & a2 & b2 & c2 & d2 & uni & uni2 & s6 & str
         & -> & Hd & Hhigh & Hd2 & Hlow & Hs6 & ->)]]]];
    cbn [length] in *; [lia | ..];
    match goal with
    | H : scanstring _ = Some _ |- _ => apply IH in H; [lia | cbn [length]; lia]
    end.
Qed.

Lemma strip_prefix_length lit s rest :
  strip_prefix lit s = Some rest → length s = (length lit + length rest)%nat.
Proof.
  revert s. induction lit as [|a lit IH]; intros s; cbn [strip_prefix].
  - by intros [= ->].
  - destruct s as [|b s]; [done|]. destruct (a =? b); [|done].
    intros Hs%IH. cbn [length]. lia.
Qed.

Lemma scan_digits_length acc s :
  (length (scan_digits acc s).2 ≤ length s)%nat.
Proof.
  revert acc. induction s as [|c s IH]; intros acc; [done|].
  cbn [scan_digits]. destruct (is_digit c); [|done].
  specialize (IH (10 * acc + (c - 48))). cbn [length]. lia.
Qed.

Lemma match_number_length s n rest :
  match_number s = Some (n, rest) → (length rest < length s)%nat.
Proof.
  unfold match_number. intros Hm.
  assert (Hnat : ∀ s1 m r, match_natural s1 = Some (m, r) →
            (length r < length s1)%nat).
  { intros s1 m r. unfold match_natural.
    destruct s1 as [|c s1]; [done|].
    destruct (c =? ZERO); [intros [= <- <-]; cbn [length]; lia|].
    destruct (is_digit c); [|done].
    pose proof (scan_digits_length (c - 48) s1) as Hd.
    destruct (scan_digits (c - 48) s1). intros [= <- <-].
    cbn [length snd] in *. lia. }
  destruct s as [|c s1]; [done|].
  destruct (c =? MINUS); cbn [mbind option_bind] in Hm.
  - destruct (match_natural s1) as [[m r]|] eqn:Hn; [|done].
    cbn [mbind option_bind] in Hm. destruct (float_follows r); [done|].
    injection Hm as <- <-. apply Hnat in Hn. cbn [length]. lia.
  - destruct (match_natural (c :: s1)) as [[m r]|] eqn:Hn; [|done].
    cbn [mbind option_bind] in Hm. destruct (float_follows r); [done|].
    injection Hm as <- <-. by apply Hnat in Hn.
Qed.

(** A call that returns with some fuel returns the same with any fuel that
    is at least the number of characters it consumes. *)
Lemma fuel_adequate fuel :
  (∀ s o rest,
     scan_once fuel s = Some (o, rest) →
     (length rest < length s)%nat
     ∧ ∀ fuel', (length s - length rest ≤ fuel')%nat →
                scan_once fuel' s = Some (o, rest))
  ∧ (∀ s pairs o rest,
       object_loop fuel s pairs = Some (o, rest) →
       (length rest < length s)%nat
       ∧ ∀ fuel', (length s - length rest ≤ fuel')%nat →
                  object_loop fuel' s pairs = Some (o, rest))
  ∧ (∀ s values o rest,
       array_loop fuel s values = Some (o, rest) →
       (length rest < length s)%nat
       ∧ ∀ fuel', (length s - length rest ≤ fuel')%nat →
                  array_loop fuel' s values = Some (o, rest)).
Proof.
  induction fuel as [|fuel (IHscan & IHobj & IHarr)]; [done|].
  split; [|split].
  - intros s o rest. destruct s as [|nextchar s1]; [done|].
    cbn [scan_once].
    destruct (nextchar =? QUOTE) eqn:Hq.
    { destruct (scanstring s1) as [[str r]|] eqn:Hstr; [|done].
      intros [= <- <-].
      pose proof (scanstring_length _ _ _ _ (Nat.le_refl _) Hstr).
      split; [cbn [length]; lia|]. intros [|fuel'] Hf; [cbn [length] in Hf; lia|].
      cbn [scan_once]. by rewrite Hq, Hstr. }
    destruct (nextchar =? LBRACE) eqn:Hbrace.
    { pose proof (skip_ws_length s1) as Hskip.
      destruct (skip_ws s1) as [|c s2] eqn:Hs1; [done|].
      destruct (c =? RBRACE) eqn:Hc.
      { intros [= <- <-]. cbn [length] in *. split; [lia|].
        intros [|fuel'] Hf; [lia|]. cbn [scan_once].
        by rewrite Hq, Hbrace, Hs1, Hc. }
      destruct (c =? QUOTE) eqn:Hcq; [|done].
      intros Hloop. apply IHobj in Hloop as [Hlen Hloop].
      cbn [length] in *. split; [lia|].
      intros [|fuel'] Hf; [lia|]. cbn [scan_once].
      rewrite Hq, Hbrace, Hs1, Hc, Hcq. apply Hloop. lia. }
    destruct (nextchar =? LBRACKET) eqn:Hbracket.
    { pose proof (skip_ws_length s1) as Hskip.
      destruct (skip_ws s1) as [|c s2] eqn:Hs1; [done|].
      destruct (c =? RBRACKET) eqn:Hc.
      { intros [= <- <-]. cbn [length] in *. split; [lia|].
        intros [|fuel'] Hf; [lia|]. cbn [scan_once].
        by rewrite Hq, Hbrace, Hbracket, Hs1, Hc. }
      intros Hloop. apply IHarr in Hloop as [Hlen Hloop].
      cbn [length] in *. split; [lia|].
      intros [|fuel'] Hf; [lia|]. cbn [scan_once].
      rewrite Hq, Hbrace, Hbracket, Hs1, Hc. apply Hloop. cbn [length]. lia. }
    destruct (strip_prefix (u "null") (nextchar :: s1)) as [r|] eqn:Hnull.
    { intros [= <- <-]. apply strip_prefix_length in Hnull as Hlen.
      cbn [length u map String.list_ascii_of_string] in Hlen |- *.
      split; [lia|]. intros [|fuel'] Hf; [lia|]. cbn [scan_once].
      by rewrite Hq, Hbrace, Hbracket, Hnull. }
    destruct (strip_prefix (u "true") (nextchar :: s1)) as [r|] eqn:Htrue.
    { intros [= <- <-]. apply strip_prefix_length in Htrue as Hlen.
      cbn [length u map String.list_ascii_of_string] in Hlen |- *.
      split; [lia|]. intros [|fuel'] Hf; [lia|]. cbn [scan_once].
      by rewrite Hq, Hbrace, Hbracket, Hnull, Htrue. }
    destruct (strip_prefix (u "false") (nextchar :: s1)) as [r|] eqn:Hfalse.
    { intros [= <- <-]. apply strip_prefix_length in Hfalse as Hlen.
      cbn [length u map String.list_ascii_of_string] in Hlen |- *.
      split; [lia|]. intros [|fuel'] Hf; [lia|]. cbn [scan_once].
      by rewrite Hq, Hbrace, Hbracket, Hnull, Htrue, Hfalse. }
    destruct (match_number (nextchar :: s1)) as [[n r]|] eqn:Hnum; [|done].
    intros [= <- <-]. apply match_number_length in Hnum as Hlen.
    split; [done|]. intros [|fuel'] Hf; [lia|]. cbn [scan_once].
    by rewrite Hq, Hbrace, Hbracket, Hnull, Htrue, Hfalse, Hnum.
  - intros s pairs o rest. rewrite object_loop_eq.
    destruct (scanstring s) as [[key s1]|] eqn:Hkey; [|done].
    pose proof (scanstring_length _ _ _ _ (Nat.le_refl _) Hkey) as Hlen1.
    cbn [mbind option_bind].
    pose proof (skip_ws_length s1) as Hskip1.
    destruct (skip_ws s1) as [|c s2] eqn:Hs1; [done|].
    destruct (c =? COLON) eqn:Hc; [|done].
    pose proof (skip_ws_length s2) as Hskip2.
    destruct (scan_once fuel (skip_ws s2)) as [[value s3]|] eqn:Hval; [|done].
    apply IHscan in Hval as [Hlen3 Hval].
    cbn [mbind option_bind].
    pose proof (skip_ws_length s3) as Hskip3.
    destruct (skip_ws s3) as [|nextchar s4] eqn:Hs3; [done|].
    destruct (nextchar =? RBRACE) eqn:Hn.
    { intros [= <- <-]. cbn [length] in *. split; [lia|].
      intros [|fuel'] Hf; [lia|]. rewrite object_loop_eq, Hkey.
      cbn [mbind option_bind]. rewrite Hs1, Hc, Hval by lia.
      cbn [mbind option_bind]. by rewrite Hs3, Hn. }
    destruct (nextchar =? COMMA) eqn:Hcomma; [|done].
    pose proof (skip_ws_length s4) as Hskip4.
    destruct (skip_ws s4) as [|q s5] eqn:Hs4; [done|].
    destruct (q =? QUOTE) eqn:Hqq; [|done].
    intros Hloop. apply IHobj in Hloop as [Hlen5 Hloop].
    cbn [length] in *. split; [lia|].
    intros [|fuel'] Hf; [lia|]. rewrite object_loop_eq, Hkey.
    cbn [mbind option_bind]. rewrite Hs1, Hc, Hval by lia.
    cbn [mbind option_bind]. rewrite Hs3, Hn, Hcomma, Hs4, Hqq.
    apply Hloop. lia.
  - intros s values o rest. rewrite array_loop_eq.
    destruct (scan_once fuel s) as [[value s1]|] eqn:Hval; [|done].
    apply IHscan in Hval as [Hlen1 Hval].
    cbn [mbind option_bind].
    pose proof (skip_ws_length s1) as Hskip1.
    destruct (skip_ws s1) as [|nextchar s2] eqn:Hs1; [done|].
    destruct (nextchar =? RBRACKET) eqn:Hn.
    { intros [= <- <-]. cbn [length] in *. split; [lia|].
      intros [|fuel'] Hf; [lia|]. rewrite array_loop_eq, Hval by lia.
      cbn [mbind option_bind]. by rewrite Hs1, Hn. }
    destruct (nextchar =? COMMA) eqn:Hcomma; [|done].
    pose proof (skip_ws_length s2) as Hskip2.
    intros Hloop. apply IHarr in Hloop as [Hlen2 Hloop].
    cbn [length] in *. split; [lia|].
    intros [|fuel'] Hf; [lia|]. rewrite array_loop_eq, Hval by lia.
    cbn [mbind option_bind]. rewrite Hs1, Hn, Hcomma.
    apply Hloop. lia.
Qed.

(** The fuel of [json_load] is enough: a text that decodes with some fuel
    decodes with it, so [json_load] returns [None] only for a text that
    does not decode with any fuel. *)
Lemma decode_fuel fuel s o : decode fuel s = Some o → json_load s = Some o.
Proof.
  unfold json_load, decode.
  destruct (scan_once fuel (skip_ws s)) as [[obj rest]|] eqn:Hscan; [|done].
  apply (fuel_adequate fuel) in Hscan as [_ Hscan].
  pose proof (skip_ws_length s).
  rewrite Hscan by lia. done.
Qed.

Lemma json_load_None s : json_load s = None ↔ ∀ fuel, decode fuel s = None.
Proof.
  split; [|by intros H; apply H].
  intros Hnone fuel. destruct (decode fuel s) as [o|] eqn:Hdec; [|done].
  apply decode_fuel in Hdec. congruence.
Qed.




















Lemma digits_are_digits f n : Forall (λ c, 48 ≤ c ≤ 57) (digits f n).
Proof.
  revert n. induction f as [|f IH]; intros n; [done|]. cbn [digits].
  destruct (N.ltb_spec n 10).
  - repeat constructor; lia.
  - apply Forall_app. split; [apply IH|]. repeat constructor; n_arith.
Qed.




(** *** A text that is cut *)

(** Where a text that is cut falls in a concatenation: inside the first
    part, or behind it. *)
Lemma cut_app {A} (a b p q : list A) :
  a ++ b = p ++ q →
  (∃ k, k ≠ [] ∧ a = p ++ k) ∨ (∃ p', p = a ++ p' ∧ b = p' ++ q).
Proof.
  revert p. induction a as [|x a IH]; intros p Heq.
  - right. by exists p.
  - destruct p as [|y p].
    + left. by exists (x :: a).
    + injection Heq as -> Heq.
      destruct (IH p Heq) as [(k & Hk & ->) | (p' & -> & ->)].
      * left. by exists k.
      * right. by exists p'.
Qed.

Lemma cut_cons {A} (x : A) t p q :
  x :: t = p ++ q → p = [] ∨ ∃ p', p = x :: p' ∧ t = p' ++ q.
Proof.
  destruct p as [|y p]; [by left|]. intros [= <- ->]. right. by exists p.
Qed.

Ltac cut_cases H :=
  repeat match type of H with
         | _ :: _ = ?p ++ _ =>
             destruct p as [|? p]; cbn [app] in H;
             [clear H | injection H as <- H]
         | [] = ?p ++ ?k =>
             destruct p; cbn [app] in H; [subst k | discriminate H]
         end.

Lemma escape_cut c e p k :
  escape_spec c e → e = p ++ k → k ≠ [] → scanstring p = None.
Proof.
  intros He Heq Hk.
  destruct He as [? ? ? ? | esc Hesc | a b c' d Hlt Hdec
                 | a b c' d a2 b2 c2 d2 s1 s2 Hd1 Hhigh Hd2 Hlow Hc];
    cut_cases Heq; try done;
    cbn [scanstring]; simpl (_ =? _); cbn match;
    rewrite ?Hd1; cbn [mbind option_bind]; rewrite ?Hhigh; done.
Qed.

Lemma unicode_escape_ahead_cut t q :
  unicode_escape_ahead (t ++ q) = false → unicode_escape_ahead t = false.
Proof. by destruct t as [|x [|y t]]. Qed.

Lemma backslash_not_high esc c :
  backslash esc = Some c → is_high_surrogate c = false.
Proof.
  unfold backslash. intros Hesc.
  repeat (case_match; [by simplify_eq|]). done.
Qed.

(** A cut behind a complete escape: the rest decides. *)
Lemma scanstring_escape_cut c e t q :
  escape_spec c e →
  is_high_surrogate c = false ∨ no_low_ahead (t ++ q) →
  scanstring t = None → scanstring (e ++ t) = None.
Proof.
  intros He Hahead Ht.
  destruct (is_high_surrogate c) eqn:Hhigh.
  2: { by rewrite (scanstring_escape c e t He), Ht by by left. }
  destruct Hahead as [|Hahead]; [done|].
  destruct He as [? ? ? Hle | esc Hesc | a b c' d Hlt Hdec
                 | a b c' d a2 b2 c2 d2 s1 s2 Hd1 Hh1 Hd2 Hlow Hc].
  - unfold is_high_surrogate in Hhigh.
    apply andb_true_iff in Hhigh as [?%N.leb_le _]. lia.
  - by rewrite (backslash_not_high esc c) in Hhigh.
  - cbn [app].
    destruct Hahead as [Hno | (a2 & b2 & c2 & d2 & s6 & uni2 & Heq & Hd2 & Hlow)].
    + apply unicode_escape_ahead_cut in Hno.
      rewrite (scanstring_unicode a b c' d c t Hdec), Ht; [done|].
      by rewrite Hno, andb_false_r.
    + symmetry in Heq. cut_cases Heq; cbn [app].
      * rewrite (scanstring_unicode a b c' d c [] Hdec), Ht; [done|].
        by rewrite andb_false_r.
      * rewrite (scanstring_unicode a b c' d c [BACKSLASH] Hdec), Ht; [done|].
        by rewrite andb_false_r.
      * cbn [scanstring]. simpl (_ =? _). cbn match. rewrite Hdec.
        cbn [mbind option_bind]. by rewrite Hhigh.
      * cbn [scanstring]. simpl (_ =? _). cbn match. rewrite Hdec.
        cbn [mbind option_bind]. by rewrite Hhigh.
      * cbn [scanstring]. simpl (_ =? _). cbn match. rewrite Hdec.
        cbn [mbind option_bind]. by rewrite Hhigh.
      * cbn [scanstring]. simpl (_ =? _). cbn match. rewrite Hdec.
        cbn [mbind option_bind]. by rewrite Hhigh.
      * by rewrite (scanstring_unicode_not_pair a b c' d a2 b2 c2 d2 c uni2 _
                      Hdec Hd2 Hlow), Ht.
  - subst c. unfold is_high_surrogate in Hhigh.
    apply andb_true_iff in Hhigh as [_ ?%N.leb_le]. lia.
Qed.

(** A string that is cut before its closing quote is unterminated. *)
Lemma scanstring_cut s p q :
  wf_str s = true → q ≠ [] →
  flat_map escape_char s ++ [QUOTE] = p ++ q → scanstring p = None.
Proof.
  revert p. induction s as [|c s IH]; intros p Hwf Hq Heq.
  - cbn in Heq. cut_cases Heq; done.
  - apply wf_str_cons in Hwf as (Hc & Hs & Hadj).
    cbn [flat_map] in Heq. rewrite <- app_assoc in Heq.
    apply cut_app in Heq as [(k & Hk & Hcut) | (p' & -> & Heq)].
    + by apply (escape_cut c (escape_char c) p k (escape_char_spec c Hc)).
    + apply (scanstring_escape_cut c _ p' q (escape_char_spec c Hc));
        [|by apply IH].
      destruct Hadj as [? | Hadj]; [by left | right]. rewrite <- Heq.
      destruct s as [|c2 s]; [by left|].
      pose proof (wf_str_cons _ _ Hs) as (Hc2 & _ & _).
      cbn [flat_map]. rewrite <- app_assoc.
      apply (escape_not_low_ahead c2); [by apply escape_char_spec | done].
Qed.

Lemma scan_digits_all acc l :
  Forall (λ c, 48 ≤ c ≤ 57) l → (scan_digits acc l).2 = [].
Proof.
  revert acc. induction l as [|c l IH]; intros acc Hall; [done|].
  apply Forall_cons in Hall as [Hc Hall].
  rewrite scan_digits_digit by by apply is_digit_spec. by apply IH.
Qed.

Lemma natural_cut f m tl q :
  f ≠ 0%nat → m < 2 ^ N.of_nat f → 0 < m → digits f m = tl ++ q →
  match match_natural tl with
  | None => True
  | Some (_, rest) => rest = []
  end.
Proof.
  intros Hf Hm Hpos Heq.
  destruct (digits_head f m Hf Hm Hpos) as (d & tl0 & Hd & Hdig & Hnz).
  pose proof (digits_are_digits f m) as Hall. rewrite Heq in Hall.
  rewrite Hd in Heq. destruct tl as [|c tl]; [done|].
  injection Heq as -> Heq. apply Forall_app in Hall as [Hall _].
  apply Forall_cons in Hall as [_ Hall].
  cbn [match_natural]. rewrite (proj2 (N.eqb_neq c ZERO)), Hdig by done.
  pose proof (scan_digits_all (c - 48) tl Hall).
  by destruct (scan_digits (c - 48) tl).
Qed.

(** An integer literal that is cut is read to its end, if at all. *)
Lemma intstr_cut n p q :
  q ≠ [] → intstr n = p ++ q →
  match match_number p with
  | None => True
  | Some (_, rest) => rest = []
  end.
Proof.
  intros Hq. unfold intstr. set (m := Z.abs_N n).
  pose proof (log2_fuel m) as Hfuel.
  destruct (Z.ltb_spec n 0) as [Hneg | Hpos]; intros Heq.
  - destruct p as [|c p]; [done|]. injection Heq as <- Heq.
    pose proof (natural_cut _ m p q (Nat.neq_succ_0 _) Hfuel ltac:(lia) Heq)
      as Hcut.
    unfold match_number. simpl (MINUS =? MINUS). cbn [mbind option_bind].
    destruct (match_natural p) as [[v rest]|]; [|done]. subst rest. done.
  - destruct (N.eq_dec m 0) as [Hm | Hm].
    { rewrite Hm in Heq. cbn in Heq. cut_cases Heq; done. }
    pose proof (natural_cut _ m p q (Nat.neq_succ_0 _) Hfuel ltac:(lia) Heq)
      as Hcut.
    destruct (digits_head _ m (Nat.neq_succ_0 _) Hfuel ltac:(lia))
      as (d & tl0 & Hd & Hdig & _).
    rewrite Hd in Heq. destruct p as [|c p]; [done|]. injection Heq as -> Heq.
    unfold match_number.
    assert ((c =? MINUS) = false) as ->.
    { apply N.eqb_neq. intros ->. done. }
    cbn [mbind option_bind].
    destruct (match_natural (c :: p)) as [[v rest]|]; [|done]. subst rest. done.
Qed.

Lemma scan_once_encoded_or_none o level fuel rest :
  wf_json o = true → ends_value rest →
  scan_once fuel (iterencode level o ++ rest) = None
  ∨ scan_once fuel (iterencode level o ++ rest) = Some (o, rest).
Proof.
  intros Hwf Hrest.
  destruct (scan_once fuel (iterencode level o ++ rest)) as [[v r]|] eqn:Hscan;
    [right | by left].
  apply (proj1 (fuel_adequate fuel)) in Hscan as [_ Hscan].
  specialize (Hscan (cost o `max` length (iterencode level o ++ rest))%nat
                ltac:(lia)).
  rewrite (scan_once_encoded o level _ rest Hwf Hrest) in Hscan by lia.
  by injection Hscan as <- <-.
Qed.

Lemma skip_ws_all p : Forall (λ c, is_ws c = true) p → skip_ws p = [].
Proof.
  induction 1 as [|c p Hc _ IH]; [done|]. cbn [skip_ws]. by rewrite Hc.
Qed.

(** A cut in or behind the line break before an item. *)
Lemma indent_cut level t p q :
  newline_indent level ++ t = p ++ q →
  skip_ws p = [] ∨ ∃ p', t = p' ++ q ∧ skip_ws p = skip_ws p'.
Proof.
  intros [(k & _ & Hcut) | (p' & -> & Ht)]%cut_app.
  - left. apply skip_ws_all.
    assert (Forall (λ c, is_ws c = true) (newline_indent level)) as Hall.
    { unfold newline_indent. apply Forall_cons. split; [done|].
      apply Forall_forall. by intros c ->%list_elem_of_In%repeat_spec. }
    rewrite Hcut in Hall. by apply Forall_app in Hall as [? _].
  - right. exists p'. by rewrite skip_ws_newline_indent.
Qed.

Lemma value_start_cut level o t p q :
  iterencode level o ++ t = p ++ q → skip_ws p = p.
Proof.
  destruct (iterencode_head level o) as (c & tl & -> & Hc).
  destruct p as [|x p]; [done|]. intros [= <- _].
  by apply skip_ws_stop, starts_value_not_ws.
Qed.

Lemma ends_value_cut t p q : ends_value t → t = p ++ q → ends_value p.
Proof. intros Ht ->. by destruct p. Qed.

Lemma scan_once_nil fuel : scan_once fuel [] = None.
Proof. by destruct fuel. Qed.

Lemma array_loop_nil fuel values : array_loop fuel [] values = None.
Proof. destruct fuel as [|fuel]; [done|]. by rewrite array_loop_eq, scan_once_nil. Qed.

Lemma array_loop_rest fuel s values :
  array_loop (S fuel) s values
  = '(value, s1) ← scan_once fuel s; array_rest fuel s1 (values ++ [value]).
Proof. done. Qed.

Lemma object_loop_rest fuel s pairs :
  object_loop (S fuel) s pairs
  = '(key, s1) ← scanstring s;
    match skip_ws s1 with
    | c :: s2 =>
        if c =? COLON then
          '(value, s3) ← scan_once fuel (skip_ws s2);
          object_rest fuel s3 (pairs ++ [(key, value)])
        else None
    | [] => None
    end.
Proof. done. Qed.

(** The value of an array item and what follows it, when the text is cut. *)
Lemma array_value_cut level v t acc fuel p q :
  cut_short v → wf_json v = true → q ≠ [] → ends_value t →
  iterencode level v ++ t = p ++ q →
  (∀ p', t = p' ++ q → array_rest fuel p' (acc ++ [v]) = None) →
  array_loop (S fuel) p acc = None.
Proof.
  intros Hv Hwf Hq Ht Heq Hrest. rewrite array_loop_rest.
  apply cut_app in Heq as [(k & Hk & Hcut) | (p' & -> & Htail)].
  - specialize (Hv level fuel p k Hwf Hk Hcut).
    destruct (scan_once fuel p) as [[v' r]|]; [|done].
    by destruct Hv as [-> _].
  - destruct (scan_once_encoded_or_none v level fuel p' Hwf
                (ends_value_cut t p' q Ht Htail)) as [-> | ->]; [done|].
    by apply Hrest.
Qed.

Lemma array_tail_cut level vs :
  Forall cut_short vs → Forall (λ v, wf_json v = true) vs →
  ∀ acc fuel p q,
    q ≠ [] →
    flat_map (app (COMMA :: newline_indent (S level)))
             (map (iterencode (S level)) vs)
    ++ newline_indent level ++ [RBRACKET] = p ++ q →
    array_rest fuel p acc = None.
Proof.
  induction vs as [|v vs IH]; intros Hcut Hwf acc fuel p q Hq Heq;
    unfold array_rest.
  - cbn [map flat_map app] in Heq.
    apply indent_cut in Heq as [-> | (p' & Heq & ->)]; [done|].
    cut_cases Heq; done.
  - apply Forall_cons in Hcut as [Hv Hcut]. apply Forall_cons in Hwf as [Hwfv Hwf].
    cbn [map flat_map] in Heq. rewrite <- !app_assoc in Heq. cbn [app] in Heq.
    apply cut_cons in Heq as [-> | (p1 & -> & Heq)]; [done|].
    rewrite skip_ws_stop by done. simpl (COMMA =? _). cbn match.
    apply indent_cut in Heq as [-> | (p' & Heq & ->)];
      [by apply array_loop_nil|].
    rewrite (value_start_cut _ _ _ _ _ Heq).
    destruct fuel as [|fuel]; [done|].
    eapply array_value_cut; [exact Hv | exact Hwfv | exact Hq | | exact Heq |].
    + destruct vs; [apply ends_value_newline | apply ends_value_comma].
    + intros p'' Hp''. by apply (IH Hcut Hwf _ _ _ q).
Qed.

(** The key and the value of an item and what follows, when the text is
    cut. *)
Lemma object_item_cut level k v t acc fuel p q :
  cut_short v → wf_str k = true → wf_json v = true → q ≠ [] → ends_value t →
  flat_map escape_char k ++ QUOTE :: COLON :: SPACE :: iterencode level v ++ t
  = p ++ q →
  (∀ p', t = p' ++ q → object_rest fuel p' (acc ++ [(k, v)]) = None) →
  object_loop (S fuel) p acc = None.
Proof.
  intros Hv Hwfk Hwf Hq Ht Heq Hrest. rewrite object_loop_rest.
  change (flat_map escape_char k ++ QUOTE :: ?s)
    with (flat_map escape_char k ++ [QUOTE] ++ s) in Heq.
  rewrite app_assoc in Heq.
  apply cut_app in Heq as [(k' & Hk' & Hcut) | (p1 & -> & Heq)].
  { by rewrite (scanstring_cut k p k' Hwfk Hk' Hcut). }
  rewrite <- app_assoc. cbn [app].
  rewrite scanstring_encoded by done. cbn [mbind option_bind].
  apply cut_cons in Heq as [-> | (p2 & -> & Heq)]; [done|].
  rewrite skip_ws_stop by done. simpl (COLON =? _). cbn match.
  apply cut_cons in Heq as [-> | (p3 & -> & Heq)];
    [by rewrite scan_once_nil|].
  change (SPACE :: p3) with ([SPACE] ++ p3). rewrite (skip_ws_spaces 1).
  rewrite (value_start_cut _ _ _ _ _ Heq).
  apply cut_app in Heq as [(k' & Hk' & Hcut) | (p4 & -> & Htail)].
  - specialize (Hv level fuel p3 k' Hwf Hk' Hcut).
    destruct (scan_once fuel p3) as [[v' r]|]; [|done].
    by destruct Hv as [-> _].
  - destruct (scan_once_encoded_or_none v level fuel p4 Hwf
                (ends_value_cut t p4 q Ht Htail)) as [-> | ->]; [done|].
    by apply Hrest.
Qed.

Lemma object_tail_cut level items :
  Forall (λ kv, cut_short kv.2) items →
  Forall (λ kv, wf_str kv.1 = true ∧ wf_json kv.2 = true) items →
  ∀ acc fuel p q,
    q ≠ [] →
    flat_map (app (COMMA :: newline_indent (S level)))
      (map (λ kv, encode_basestring_ascii (fst kv) ++ [COLON; SPACE]
                    ++ iterencode (S level) (snd kv)) items)
    ++ newline_indent level ++ [RBRACE] = p ++ q →
    object_rest fuel p acc = None.
Proof.
  induction items as [|[k v] items IH]; intros Hcut Hwf acc fuel p q Hq Heq;
    unfold object_rest.
  - cbn [map flat_map app] in Heq.
    apply indent_cut in Heq as [-> | (p' & Heq & ->)]; [done|].
    cut_cases Heq; done.
  - apply Forall_cons in Hcut as [Hv Hcut].
    apply Forall_cons in Hwf as [[Hwfk Hwfv] Hwf].
    cbn [map flat_map fst snd] in Heq, Hv, Hwfk, Hwfv.
    unfold encode_basestring_ascii in Heq at 1.
    rewrite <- !app_assoc in Heq. cbn [app] in Heq.
    rewrite <- !app_assoc in Heq. cbn [app] in Heq.
    apply cut_cons in Heq as [-> | (p1 & -> & Heq)]; [done|].
    rewrite skip_ws_stop by done. simpl (COMMA =? _). cbn match.
    apply indent_cut in Heq as [-> | (p' & Heq & ->)]; [done|].
    apply cut_cons in Heq as [-> | (p2 & -> & Heq)]; [done|].
    rewrite skip_ws_stop by done. simpl (QUOTE =? _). cbn match.
    destruct fuel as [|fuel]; [done|].
    eapply object_item_cut;
      [exact Hv | exact Hwfk | exact Hwfv | exact Hq | | exact Heq |].
    + destruct items; [apply ends_value_newline | apply ends_value_comma].
    + intros p'' Hp''. by apply (IH Hcut Hwf _ _ _ q).
Qed.

(** A value whose text is cut does not read back: the decoder fails, or,
    for an integer, it reads the digits that are left. *)
Lemma scan_once_cut o : cut_short o.
Proof.
  induction o as [| b | n | s | values IH | items IH] using json_ind';
    intros level fuel p q Hwf Hq Heq;
    (destruct fuel as [|fuel]; [done|]).
  - cbn in Heq. cut_cases Heq; done.
  - destruct b; cbn in Heq; cut_cases Heq; done.
  - cbn [iterencode] in Heq.
    pose proof (intstr_cut n p q Hq Heq) as Hcut.
    destruct (intstr_head n) as (c & tl & Hn & Hc). rewrite Hn in Heq.
    apply cut_cons in Heq as [-> | (p' & -> & _)]; [done|].
    rewrite scan_once_number by done.
    destruct (match_number (c :: p')) as [[m rest]|]; [|done].
    cbn. split; [done | by exists n].
  - cbn [iterencode wf_json] in Heq, Hwf. unfold encode_basestring_ascii in Heq.
    apply cut_cons in Heq as [-> | (p' & -> & Heq)]; [done|].
    by rewrite scan_once_string, (scanstring_cut s p' q Hwf Hq Heq).
  - destruct values as [|v vs]; [cbn in Heq; cut_cases Heq; done|].
    apply wf_json_arr in Hwf. apply Forall_cons in Hwf as [Hwfv Hwf].
    apply Forall_cons in IH as [Hv IH].
    change (iterencode level (JArr (v :: vs)))
      with ([LBRACKET] ++ newline_indent (S level)
            ++ join (COMMA :: newline_indent (S level))
                 (map (iterencode (S level)) (v :: vs))
            ++ newline_indent level ++ [RBRACKET]) in Heq.
    cbn [map] in Heq. rewrite join_cons in Heq.
    rewrite <- !app_assoc in Heq. cbn [app] in Heq.
    apply cut_cons in Heq as [-> | (p1 & -> & Heq)]; [done|].
    cbn [scan_once]. simpl (LBRACKET =? _). cbn match.
    apply indent_cut in Heq as [-> | (p' & Heq & ->)]; [done|].
    rewrite (value_start_cut _ _ _ _ _ Heq).
    destruct (iterencode_head (S level) v) as (c & tl & Hhead & Hc).
    destruct p' as [|c' p']; [done|].
    assert (c' = c) as -> by (rewrite Hhead in Heq; by injection Heq).
    assert ((c =? RBRACKET) = false) as ->.
    { apply N.eqb_neq. intros ->. unfold starts_value in Hc.
      rewrite is_digit_spec in Hc. lia. }
    destruct fuel as [|fuel]; [done|].
    assert (array_loop (S fuel) (c :: p') [] = None) as ->; [|done].
    eapply array_value_cut; [exact Hv | exact Hwfv | exact Hq | | exact Heq |].
    + destruct vs; [apply ends_value_newline | apply ends_value_comma].
    + intros p'' Hp''. by apply (array_tail_cut level vs IH Hwf _ _ _ q).
  - destruct items as [|[k v] items]; [cbn in Heq; cut_cases Heq; done|].
    apply wf_json_obj in Hwf as [_ Hwf].
    apply Forall_cons in Hwf as [[Hwfk Hwfv] Hwf].
    apply Forall_cons in IH as [Hv IH].
    change (iterencode level (JObj ((k, v) :: items)))
      with ([LBRACE] ++ newline_indent (S level)
            ++ join (COMMA :: newline_indent (S level))
                 (map (λ kv, encode_basestring_ascii (fst kv) ++ [COLON; SPACE]
                               ++ iterencode (S level) (snd kv)) ((k, v) :: items))
            ++ newline_indent level ++ [RBRACE]) in Heq.
    cbn [map fst snd] in Heq, Hv, Hwfk, Hwfv. rewrite join_cons in Heq.
    unfold encode_basestring_ascii in Heq at 1.
    rewrite <- !app_assoc in Heq. cbn [app] in Heq.
    rewrite <- !app_assoc in Heq. cbn [app] in Heq.
    apply cut_cons in Heq as [-> | (p1 & -> & Heq)]; [done|].
    cbn [scan_once]. simpl (LBRACE =? _). cbn match.
    apply indent_cut in Heq as [-> | (p' & Heq & ->)]; [done|].
    apply cut_cons in Heq as [-> | (p2 & -> & Heq)]; [done|].
    rewrite skip_ws_stop by done. simpl (_ =? _). cbn match.
    destruct fuel as [|fuel]; [done|].
    assert (object_loop (S fuel) p2 [] = None) as ->; [|done].
    eapply object_item_cut;
      [exact Hv | exact Hwfk | exact Hwfv | exact Hq | | exact Heq |].
    + destruct items; [apply ends_value_newline | apply ends_value_comma].
    + intros p'' Hp''. by apply (object_tail_cut level items IH Hwf _ _ _ q).
Qed.

(** A dictionary or a list that was written only in part does not load. *)
Lemma json_load_cut o n :
  wf_json o = true → (∀ i, o ≠ JInt i) →
  (n < length (json_dump o))%nat →
  json_load (take n (json_dump o)) = None.
Proof.
  intros Hwf Hint Hn. apply json_load_None. intros fuel. unfold decode.
  pose proof (take_drop n (json_dump o)) as Heq. symmetry in Heq.
  assert (Hq : drop n (json_dump o) ≠ []).
  { intros Hnil%(f_equal length). rewrite length_drop in Hnil. simpl in Hnil. lia. }
  unfold json_dump in Heq at 1.
  rewrite (value_start_cut 0 o [] _ _ ltac:(by rewrite app_nil_r)).
  pose proof (scan_once_cut o 0%nat fuel _ _ Hwf Hq Heq) as Hcut.
  destruct (scan_once fuel (take n (json_dump o))) as [[v rest]|]; [|done].
  destruct Hcut as [_ [i ->]]. by destruct (Hint i).
Qed.

Local Close Scope N_scope.

(** ** Configuration store *)




(** ** Saving: round trip and interruption *)

(** X15.  When the write of [save_config] raises before the whole text has
    reached the file, the warning is shown and the file holds a text that
    does not parse: the next [load_config] returns the default
    configuration, whatever was configured.  (When it is [open] that
    raises, the file is as before.) *)
Theorem save_config_interrupted (config : json) config_file written e :
  wf_json config = true → (∀ i, config ≠ JInt i) →
  written < length (json_dump config) →
  let saved := save_config config config_file (WriteRaises written e) in
  load_config saved.1 = json_of_config default_config
  ∧ saved.2
    = [MessageBox Warning "Error" ("Failed to save configuration: " +:+ e)]
  ∧ (save_config config config_file (OpenRaises e)).1 = config_file.
Proof.
  intros Hwf Hint Hcut. cbn [save_config fst snd load_config].
  by rewrite json_load_cut.
Qed.

Lemma dict_get_None d key : dict_get d key = None ↔ key ∉ map fst d.
Proof.
  induction d as [|[k v] d IH]; cbn [dict_get map fst].
  - split; [intros _; apply not_elem_of_nil | done].
  - case_decide as Hk.
    + subst. split; [done|]. intros Hnin. destruct Hnin. by left.
    + rewrite IH, not_elem_of_cons.
      split; [intros ?; split; [by intros -> | done] | by intros [_ ?]].
Qed.

Lemma dict_get_set d k v : dict_get (dict_set d k v) k = Some v.
Proof.
  induction d as [|[k' v'] d IH]; cbn [dict_set dict_get].
  - by rewrite decide_True.
  - case_decide as Hk; cbn [dict_get]; [by rewrite decide_True|].
    by rewrite decide_False.
Qed.

Lemma dict_get_set_ne d k v key :
  key ≠ k → dict_get (dict_set d k v) key = dict_get d key.
Proof.
  intros Hne. induction d as [|[k' v'] d IH]; cbn [dict_set dict_get].
  - by rewrite decide_False.
  - case_decide as Hk; cbn [dict_get].
    + subst. by rewrite !decide_False.
    + by rewrite IH.
Qed.

Lemma dict_set_same d k v : dict_get d k = Some v → dict_set d k v = d.
Proof.
  induction d as [|[k' v'] d IH]; cbn [dict_set dict_get]; [done|].
  case_decide as Hk; [by intros [= ->]|]. intros Hget. by rewrite IH.
Qed.

Lemma dict_set_keys_added d k v :
  ∃ added, map fst (dict_set d k v) = map fst d ++ added
           ∧ ∀ key, key ∈ added → key = k ∧ key ∉ map fst d.
Proof.
  destruct (decide (k ∈ map fst d)) as [Hin | Hnin].
  - exists []. split; [|by intros key ?%elem_of_nil]. rewrite app_nil_r.
    induction d as [|[k' v'] d IH]; cbn [dict_set map fst] in *.
    + by apply elem_of_nil in Hin.
    + case_decide as Hk; [done|]. cbn [map fst]. f_equal. apply IH.
      apply elem_of_cons in Hin as [-> | ?]; done.
  - exists [k]. split; [by rewrite dict_set_fresh, map_app|].
    by intros key ->%list_elem_of_singleton.
Qed.

Lemma dict_get_wf d k v :
  Forall item_ok d → dict_get d k = Some v → wf_json v = true.
Proof.
  induction 1 as [|[k' v'] d [_ Hv] _ IH]; cbn [dict_get]; [done|].
  case_decide; [by intros [= <-] | done].
Qed.

Lemma save_settings_dict_wf config ip a m :
  wf_json (JObj config) = true → wf_str ip = true →
  wf_json (JObj (dict_set (dict_set (dict_set config (u "shelly_ip") (JStr ip))
                             (u "autostart") (JBool a))
                   (u "minimize_to_tray") (JBool m))) = true.
Proof.
  intros [Hnd Hall]%wf_json_obj Hip.
  destruct (dict_set_wf config (u "shelly_ip") (JStr ip) Hnd Hall) as [Hnd1 Hall1];
    [by split|].
  destruct (dict_set_wf _ (u "autostart") (JBool a) Hnd1 Hall1) as [Hnd2 Hall2];
    [by split|].
  destruct (dict_set_wf _ (u "minimize_to_tray") (JBool m) Hnd2 Hall2)
    as [Hnd3 Hall3]; [by split|].
  by apply wf_json_obj_intro.
Qed.

Lemma save_settings_dict_loads config ip a m config_file platform raises :
  wf_json (JObj config) = true → wf_str ip = true →
  let saved :=
    save_settings_dict config ip a m config_file Written platform raises in
  load_config saved.1.2 = JObj saved.1.1
  ∧ saved.2 = configure_autostart platform raises
              ++ [MessageBox Information "Success" "Settings saved!"].
Proof.
  intros Hwf Hip. cbn zeta. unfold save_settings_dict, save_config.
  cbn [fst snd load_config app].
  by rewrite json_load_dump by by apply save_settings_dict_wf.
Qed.

Lemma keys_differ :
  u "shelly_ip" ≠ u "autostart" ∧ u "shelly_ip" ≠ u "minimize_to_tray"
  ∧ u "autostart" ≠ u "minimize_to_tray".
Proof. by vm_compute. Qed.

Section SaveProperties.
Context {KeySeq : Type} (QKeySequence : string → KeySeq).

Lemma init_widgets (c : Configuration) :
  let w := init QKeySequence c in
  config w = c ∧ ip_input w = shelly_ip c
  ∧ autostart_checkbox w = autostart c
  ∧ minimize_to_tray_checkbox w = minimize_to_tray c.
Proof. cbn zeta. unfold init. rewrite setup_shortcuts_eq. by destruct c. Qed.

(** X14.  [save_settings] assigns the text of the IP field and the states of
    the two boxes to the keys [shelly_ip], [autostart] and
    [minimize_to_tray] of the loaded dictionary and writes it: the other
    keys keep their values, every key keeps its place, and a key that was
    missing goes last.  When the write succeeds, [load_config] of the file
    returns that dictionary.  For the dictionary of a configuration record
    the file is the one that the window model writes. *)
Theorem save_settings_round_trip
    (loaded : list (text * json)) ip a m config_file platform autostart_raises :
  wf_json (JObj loaded) = true → wf_str ip = true →
  let saved := save_settings_dict loaded ip a m config_file Written platform
                 autostart_raises in
  let config' := saved.1.1 in
  load_config saved.1.2 = JObj config'
  ∧ saved.2 = configure_autostart platform autostart_raises
              ++ [MessageBox Information "Success" "Settings saved!"]
  ∧ dict_get config' (u "shelly_ip") = Some (JStr ip)
  ∧ dict_get config' (u "autostart") = Some (JBool a)
  ∧ dict_get config' (u "minimize_to_tray") = Some (JBool m)
  ∧ (∀ key, key ∉ [u "shelly_ip"; u "autostart"; u "minimize_to_tray"] →
       dict_get config' key = dict_get loaded key)
  ∧ (∃ added, map fst config' = map fst loaded ++ added
              ∧ added ⊆ [u "shelly_ip"; u "autostart"; u "minimize_to_tray"]
              ∧ ∀ key, key ∈ added → key ∉ map fst loaded)
  ∧ (∀ w : @ShellyController KeySeq,
       json_of_config (config w) = JObj loaded →
       ip = u (ip_input w) → a = autostart_checkbox w →
       m = minimize_to_tray_checkbox w →
       let typed :=
         save_settings config_file Written platform autostart_raises w in
       typed.1.2 = saved.1.2 ∧ typed.2 = saved.2
       ∧ json_of_config (config typed.1.1) = JObj config').
Proof.
  intros Hwf Hip saved config'.
  destruct keys_differ as (H12 & H13 & H23).
  destruct (save_settings_dict_loads loaded ip a m config_file platform
              autostart_raises Hwf Hip)
    as [Hload Hshown].
  split; [done|]. split; [done|].
  subst config' saved. unfold save_settings_dict, save_config. cbn [fst snd].
  split; [by rewrite !dict_get_set_ne, dict_get_set by done|].
  split; [by rewrite dict_get_set_ne, dict_get_set by done|].
  split; [by rewrite dict_get_set|].
  split; [|split].
  - intros key Hkey. rewrite !not_elem_of_cons in Hkey.
    destruct Hkey as (? & ? & ? & _). by rewrite !dict_get_set_ne by done.
  - destruct (dict_set_keys_added loaded (u "shelly_ip") (JStr ip))
      as (a1 & E1 & H1).
    destruct (dict_set_keys_added (dict_set loaded (u "shelly_ip") (JStr ip))
                (u "autostart") (JBool a)) as (a2 & E2 & H2).
    destruct (dict_set_keys_added
                (dict_set (dict_set loaded (u "shelly_ip") (JStr ip))
                   (u "autostart") (JBool a))
                (u "minimize_to_tray") (JBool m)) as (a3 & E3 & H3).
    exists (a1 ++ a2 ++ a3).
    split; [by rewrite E3, E2, E1, <- !app_assoc|].
    rewrite E2, E1 in H3. rewrite E1 in H2.
    split; intros key [Hk | [Hk | Hk]%elem_of_app]%elem_of_app.
    + destruct (H1 key Hk) as [-> _]. by left.
    + destruct (H2 key Hk) as [-> _]. right. by left.
    + destruct (H3 key Hk) as [-> _]. right. right. by left.
    + by destruct (H1 key Hk).
    + destruct (H2 key Hk) as [_ Hnin]. intros Hin. apply Hnin, elem_of_app.
      by left.
    + destruct (H3 key Hk) as [_ Hnin]. intros Hin.
      apply Hnin, elem_of_app. left. apply elem_of_app. by left.
  - intros w Hcanonical -> -> ->. cbn zeta.
    assert (Hagree :
              json_of_config {| shelly_ip := ip_input w;
                                autostart := autostart_checkbox w;
                                minimize_to_tray := minimize_to_tray_checkbox w;
                                hotkeys := hotkeys (config w) |}
              = JObj (dict_set
                        (dict_set
                           (dict_set loaded (u "shelly_ip")
                              (JStr (u (ip_input w))))
                           (u "autostart") (JBool (autostart_checkbox w)))
                        (u "minimize_to_tray")
                        (JBool (minimize_to_tray_checkbox w)))).
    { unfold json_of_config in Hcanonical |- *. injection Hcanonical as <-.
      cbn [hotkeys shelly_ip autostart minimize_to_tray]. by vm_compute. }
    unfold save_settings, save_config. cbn [fst snd config set_config].
    by rewrite Hagree.
Qed.

Lemma init_ui_widgets_inv config ip a m :
  init_ui_widgets config = Some (ip, a, m) →
  dict_get config (u "shelly_ip") = Some (JStr ip)
  ∧ dict_get config (u "autostart") = Some (JBool a)
  ∧ (dict_get config (u "minimize_to_tray") = Some (JBool m)
     ∨ dict_get config (u "minimize_to_tray") = None ∧ m = true).
Proof.
  unfold init_ui_widgets.
  destruct (dict_get config (u "shelly_ip")) as [[| | |ip'| |]|]; try done.
  destruct (dict_get config (u "autostart")) as [[|a'| | | |]|]; try done.
  destruct (dict_get config (u "minimize_to_tray")) as [[|m'| | | |]|];
    try done; intros [= -> -> <-]; auto.
Qed.

(** X16.  Saving right after start-up, with nothing touched: [init_ui] took
    the text of the IP field and the states of the boxes from the loaded
    dictionary, and [save_settings] assigns them back.  The dictionary is
    then the loaded one, except that a missing [minimize_to_tray] is added,
    last, with the default [True] of [init_ui]; this holds whatever the
    write does, and when it succeeds the file loads as that dictionary.
    For the dictionary of a configuration record nothing changes, and the
    widgets are those of the window model. *)
Theorem save_after_start_keeps_config
    (loaded : list (text * json)) ip a m config_file platform autostart_raises :
  wf_json (JObj loaded) = true →
  init_ui_widgets loaded = Some (ip, a, m) →
  let config' :=
    (save_settings_dict loaded ip a m config_file Written platform
       autostart_raises).1.1 in
  config' = match dict_get loaded (u "minimize_to_tray") with
            | Some _ => loaded
            | None => loaded ++ [(u "minimize_to_tray", JBool true)]
            end
  ∧ (∀ io, (save_settings_dict loaded ip a m config_file io platform
              autostart_raises).1.1 = config')
  ∧ load_config (save_settings_dict loaded ip a m config_file Written platform
                   autostart_raises).1.2
    = JObj config'
  ∧ (∀ c : Configuration, json_of_config c = JObj loaded →
       config' = loaded
       ∧ ip = u (shelly_ip c) ∧ a = autostart c ∧ m = minimize_to_tray c
       ∧ ip_input (init QKeySequence c) = shelly_ip c
       ∧ autostart_checkbox (init QKeySequence c) = autostart c
       ∧ minimize_to_tray_checkbox (init QKeySequence c) = minimize_to_tray c).
Proof.
  intros Hwf Hwidgets config'.
  destruct (init_ui_widgets_inv loaded ip a m Hwidgets) as (Hip & Ha & Hm).
  pose proof Hwf as [_ Hall]%wf_json_obj.
  assert (Hwfip : wf_str ip = true) by apply (dict_get_wf _ _ _ Hall Hip).
  assert (Hconfig : config'
            = match dict_get loaded (u "minimize_to_tray") with
              | Some _ => loaded
              | None => loaded ++ [(u "minimize_to_tray", JBool true)]
              end).
  { subst config'. unfold save_settings_dict, save_config. cbn [fst snd].
    rewrite (dict_set_same loaded _ _ Hip), (dict_set_same loaded _ _ Ha).
    destruct Hm as [Hm | [Hm ->]]; rewrite Hm.
    - by apply dict_set_same.
    - by apply dict_set_fresh, dict_get_None. }
  split; [done|]. split; [by intros []|].
  split; [by apply save_settings_dict_loads|].
  intros c Hc. rewrite Hconfig. unfold json_of_config in Hc.
  injection Hc as <-. revert Hip Ha Hm.
  destruct (init_widgets c) as (_ & -> & -> & ->).
  change (dict_get _ (u "shelly_ip")) with (Some (JStr (u (shelly_ip c)))).
  change (dict_get _ (u "autostart")) with (Some (JBool (autostart c))).
  change (dict_get _ (u "minimize_to_tray"))
    with (Some (JBool (minimize_to_tray c))).
  intros [= ->] [= ->] [[= ->] | [? _]]; done.
Qed.

End SaveProperties.


(** ** The theorems at concrete inputs *)

Lemma toggle_shelly_device_known_action_witness :
  reports_success
    (toggle_shelly_device (λ _ _, Status 200%Z) default_config "relay/0" "toggle")
  = true.
Proof.
  apply (toggle_shelly_device_known_action (λ _ _, Status 200%Z)
           default_config "relay/0" "toggle"); [by left | reflexivity].
Defined.

Lemma toggle_shelly_device_unknown_action_witness :
  requests_of
    (toggle_shelly_device (λ _ _, Status 200%Z) default_config "relay/0" "banana")
  = [].
Proof.
  apply (toggle_shelly_device_unknown_action (λ _ _, Status 200%Z)
           default_config "relay/0" "banana"); discriminate.
Defined.


Lemma remove_hotkey_selected_witness :
  live_shortcuts
    (remove_hotkey (λ s, s)
       (handle (λ s, s) (SelectCells [(0, 0)]) (init (λ s, s) default_config)))
  = [].
Proof.
  eapply (remove_hotkey_selected (λ s, s)
            (handle (λ s, s) (SelectCells [(0, 0)]) (init (λ s, s) default_config))
            0 0 []).
  - apply reachable_step, reachable_init.
  - reflexivity.
  - reflexivity.
Defined.

Lemma remove_hotkey_no_selection_witness :
  remove_hotkey (λ s, s) (init (λ s, s) default_config)
  = init (λ s, s) default_config.
Proof.
  apply (remove_hotkey_no_selection (λ s, s) (init (λ s, s) default_config)).
  reflexivity.
Defined.

Lemma device_address_is_ip_field_witness :
  shelly_ip (config (handle (λ s, s) (TypeIp "") (init (λ s, s) default_config)))
  = "".
Proof.
  apply (device_address_is_ip_field (λ s, s) (init (λ s, s) default_config)).
  apply reachable_init.
Defined.

Lemma save_failure_is_reported_witness :
  config (save_settings Missing (OpenRaises "disk full") Linux None
            (init (λ s, s) default_config)).1.1
  = default_config.
Proof.
  apply (save_failure_is_reported (λ s, s) (init (λ s, s) default_config)
           Missing (OpenRaises "disk full") Linux None).
  discriminate.
Defined.

(** C8 as it was stated fails: after the user empties the IP field the
    window is in a state it can be in and the address is the empty text. *)
Lemma device_address_empty_after_edit :
  let w := run (λ s, s) default_config [TypeIp ""] in
  reachable (λ s, s) w ∧ shelly_ip (config w) = "".
Proof.
  split; [|reflexivity].
  apply (reachable_step _ _ (TypeIp "")), reachable_init.
Qed.


(** Floats are outside the model, also where [json_load] fails on them; the
    digits and dots of a string are not a float. *)
Lemma floats_are_not_modelled :
  modelled_file (Content (u "[1.5]")) = false
  ∧ modelled_file (Content (u "[1e5]")) = false
  ∧ modelled_file (Content (u "[NaN]")) = false
  ∧ modelled_file (Content (u "[-Infinity]")) = false
  ∧ json_load (u "[1.5]") = None
  ∧ modelled_file (Content (json_dump (json_of_config default_config))) = true.
Proof. vm_compute. repeat split; reflexivity. Qed.


Lemma hotkeys_table_shows_config_witness :
  rows (hotkeys_table (handle (λ s, s) ClickAdd (init (λ s, s) default_config)))
  = map row_of
      (hotkeys (config (handle (λ s, s) ClickAdd (init (λ s, s) default_config)))).
Proof.
  apply (hotkeys_table_shows_config (λ s, s)).
  apply running_handle, running_init.
Defined.

Lemma tray_menu_shows_config_witness :
  ∃ shown : bool,
    current_tray_icon (init (λ s, s) default_config)
    = Some {| contextMenu :=
                tray_menu (if shown then "Hide" else "Show")
                  (hotkeys (config (init (λ s, s) default_config)));
              tray_visible := true |}.
Proof.
  apply (tray_menu_shows_config (λ s, s)). apply running_init.
Defined.

Lemma shortcut_activation_witness :
  ∃ ref shortcut,
    shortcuts (init (λ s, s) default_config) !! 0 = Some ref
    ∧ child_shortcuts (init (λ s, s) default_config) !! ref = Some shortcut
    ∧ sc_key shortcut = "Ctrl+Alt+L"
    ∧ shortcut_activated (λ _ _, Status 200%Z) (init (λ s, s) default_config) ref
      = toggle_shelly_device (λ _ _, Status 200%Z)
          (config (init (λ s, s) default_config)) "relay/0" "toggle".
Proof.
  apply (proj1 (shortcut_activation (λ s, s) (λ _ _, Status 200%Z)
                  (init (λ s, s) default_config) (running_init _ _)) 0
           {| hk_name := "Toggle Light"; hk_shortcut := "Ctrl+Alt+L";
              hk_endpoint := "relay/0"; hk_action := "toggle" |}).
  reflexivity.
Defined.

Lemma add_hotkey_appends_witness :
  hotkeys (config (add_hotkey (λ s, s) (init (λ s, s) default_config)))
  = hotkeys (config (init (λ s, s) default_config)) ++ [new_hotkey].
Proof.
  apply (add_hotkey_appends (λ s, s) (init (λ s, s) default_config)).
  apply running_init.
Defined.

Lemma edit_cell_sets_field_witness :
  hotkeys (config (edit_cell (λ s, s) 0 1 "Ctrl+Alt+K"
                     (init (λ s, s) default_config))) !! 0
  = Some {| hk_name := "Toggle Light"; hk_shortcut := "Ctrl+Alt+K";
            hk_endpoint := "relay/0"; hk_action := "toggle" |}.
Proof.
  apply (edit_cell_sets_field (λ s, s) (init (λ s, s) default_config) 0 1
           "Ctrl+Alt+K"
           {| hk_name := "Toggle Light"; hk_shortcut := "Ctrl+Alt+L";
              hk_endpoint := "relay/0"; hk_action := "toggle" |}).
  - apply running_init.
  - reflexivity.
  - lia.
Defined.

Lemma show_hide_window_text_witness :
  visible (show_hide_window (init (λ s : string, s) default_config))
  = negb (visible (init (λ s : string, s) default_config)).
Proof.
  apply (show_hide_window_text (λ s, s) (init (λ s, s) default_config)).
  apply running_init.
Defined.

Lemma closeEvent_minimizes_witness :
  closed_accepted (closeEvent false (init (λ s : string, s) default_config))
  = false.
Proof.
  apply (closeEvent_minimizes (λ s, s) (init (λ s, s) default_config) false).
  - apply running_init.
  - reflexivity.
Defined.

Lemma closeEvent_quits_witness :
  closed_accepted
    (closeEvent false
       (handle (λ s : string, s) (ClickMinimizeToTray Unchecked)
          (init (λ s, s) default_config)))
  = true.
Proof.
  apply (closeEvent_quits (λ s, s)
           (handle (λ s, s) (ClickMinimizeToTray Unchecked)
              (init (λ s, s) default_config)) false).
  - apply running_handle, running_init.
  - reflexivity.
Defined.

Lemma tray_icon_activated_restores_witness :
  visible
    (tray_icon_activated Trigger
       (closed_window
          (closeEvent false (init (λ s : string, s) default_config))))
  = true.
Proof.
  apply (tray_icon_activated_restores (λ s, s) (init (λ s, s) default_config)
           false).
  - apply running_init.
  - reflexivity.
Defined.

Lemma configure_autostart_follows_flag_witness :
  (configure_autostart_os Linux "/opt/shelly_controller.py" (λ _, None) 0 true
     {| run_value := None; autostart_dir := NoDir |}).2
  = [].
Proof.
  apply (configure_autostart_follows_flag Linux "/opt/shelly_controller.py" 0
           true {| run_value := None; autostart_dir := NoDir |}).
  discriminate.
Defined.

Lemma save_config_interrupted_witness :
  load_config
    (save_config (json_of_config default_config) Missing
       (WriteRaises 10 "disk full")).1
  = json_of_config default_config.
Proof.
  apply (save_config_interrupted (json_of_config default_config) Missing 10
           "disk full").
  - reflexivity.
  - discriminate.
  - vm_compute. lia.
Defined.

Lemma configure_autostart_silent_or_warns_witness :
  (configure_autostart_os Win32 "shelly_controller.py"
     (λ call, match call with
              | OpenKey => Some (OtherException "access denied")
              | _ => None
              end)
     0 true {| run_value := None; autostart_dir := NoDir |}).1
  = {| run_value := None; autostart_dir := NoDir |}.
Proof.
  destruct (configure_autostart_silent_or_warns Win32 "shelly_controller.py"
              (λ call, match call with
                       | OpenKey => Some (OtherException "access denied")
                       | _ => None
                       end)
              0 true {| run_value := None; autostart_dir := NoDir |})
    as (_ & _ & Hopen & _).
  apply Hopen; [reflexivity | discriminate].
Defined.

Lemma save_settings_round_trip_witness :
  let config := [ (u "autostart", JBool true); (u "room", JStr (u "attic"));
                  (u "shelly_ip", JStr (u "10.0.0.7")); (u "hotkeys", JArr []) ] in
  let saved := save_settings_dict config (u "10.0.0.8") false true Missing
                 Written Linux None in
  load_config saved.1.2
  = JObj [ (u "autostart", JBool false); (u "room", JStr (u "attic"));
           (u "shelly_ip", JStr (u "10.0.0.8")); (u "hotkeys", JArr []);
           (u "minimize_to_tray", JBool true) ].
Proof.
  intros config saved.
  apply (@save_settings_round_trip string config (u "10.0.0.8") false true
           Missing Linux None); reflexivity.
Defined.

Lemma save_after_start_keeps_config_witness :
  let config := [ (u "autostart", JBool true); (u "room", JStr (u "attic"));
                  (u "shelly_ip", JStr (u "10.0.0.7")); (u "hotkeys", JArr []) ] in
  (save_settings_dict config (u "10.0.0.7") true true Missing Written Linux
     None).1.1
  = config ++ [(u "minimize_to_tray", JBool true)].
Proof.
  intros config.
  apply (save_after_start_keeps_config (λ s : string, s) config (u "10.0.0.7")
           true true Missing Linux None); reflexivity.
Defined.
